(** * SocketCAN endpoint ([CANEndpointImpl.cpp]): model and properties

    The endpoint owns a raw CAN socket, an ordered filter list, two enable
    counters and a reader thread.  Every member function of
    [CANEndpointImpl] is transcribed as a computation over the endpoint
    object.  A computation yields an outcome (normal return, a thrown Poco
    exception, undefined behaviour, or a call that never returns), the
    endpoint afterwards, and the sequence of externally visible or
    synchronisation-relevant events it performed, in program order.

    Conditional compilation ([MACCHINA_HAVE_SOCKETCAN], [CAN_RAW_FD_FRAMES])
    is a field of the build configuration; the host kernel's answers to
    system calls are an oracle. *)

From Stdlib Require Import ZArith List Bool String Lia Relations.
Import ListNotations.
Open Scope Z_scope.

Set Implicit Arguments.

(** ** Constants of the host ABI, <linux/can.h> and <linux/can/raw.h> *)

Definition CAN_EFF_FLAG : Z := 0x80000000.
Definition CAN_RTR_FLAG : Z := 0x40000000.
Definition CAN_EFF_MASK : Z := 0x1FFFFFFF.
Definition CAN_SFF_MASK : Z := 0x000007FF.
Definition CAN_INV_FILTER : Z := 0x20000000.
Definition CAN_MAX_DLEN : nat := 8.
Definition CANFD_MAX_DLEN : nat := 64.

(** [struct can_filter]. *)
Record can_filter : Type := mk_can_filter { can_id : Z; can_mask : Z }.

(** Socket options used on the raw CAN socket. *)
Inductive SockOpt : Type := CAN_RAW_JOIN_FILTERS | CAN_RAW_FD_FRAMES_OPT.

(** ** Types declared in the CAN headers of the repository *)

(** Modelled from the spec: [struct Filter] of CANEndpoint.h, which is not
    among the sources at hand: an identifier and a mask, both 32-bit
    unsigned, and the invert flag. *)
Module Filter.
Record t : Type := mk { id : Z; mask : Z; invert : bool }.
End Filter.

(** Modelled from the spec: [CANEndpoint::FilterMode], declared in
    CANEndpoint.h; the code names both values. *)
Inductive FilterMode : Type := CAN_FILTER_MODE_OR | CAN_FILTER_MODE_AND.

Definition FilterMode_eqb (a b : FilterMode) : bool :=
  match a, b with
  | CAN_FILTER_MODE_OR, CAN_FILTER_MODE_OR => true
  | CAN_FILTER_MODE_AND, CAN_FILTER_MODE_AND => true
  | _, _ => false
  end.

(** Modelled from the spec: class [CANFrame] of CANFrame.h, seen here only
    through its accessors [id()], [flags()], [dlc()] and [payload()].  The
    identifier is an unsigned 32-bit value.  Nothing in the record ties
    [dlc] to the payload length; [well_formed] is the invariant of the data
    model: an identifier of at most 29 bits, a dlc of at most 8 and a
    payload of dlc bytes. *)
Module CANFrame.
Record t : Type := mk { id : Z; flags : Z; dlc : nat; payload : list Z }.

Definition MAX_PAYLOAD_SIZE : nat := 8.

Definition well_formed (f : t) : Prop :=
  0 <= id f <= CAN_EFF_MASK /\ (dlc f <= MAX_PAYLOAD_SIZE)%nat /\
  List.length (payload f) = dlc f.
End CANFrame.

(** Modelled from the spec: class [CANFDFrame], with the same members and
    [length] in place of [dlc]. *)
Module CANFDFrame.
Record t : Type := mk { id : Z; flags : Z; length : nat; payload : list Z }.
End CANFDFrame.

(** ** Build configuration *)

Inductive Endianness : Type := LittleEndian | BigEndian.

Record Config : Type := mkConfig {
  MACCHINA_HAVE_SOCKETCAN : bool;   (* #ifdef MACCHINA_HAVE_SOCKETCAN *)
  CAN_RAW_FD_FRAMES : bool;         (* #ifdef CAN_RAW_FD_FRAMES *)
  CAN_FLAG_IDE : Z;                 (* CANFrame::CAN_FLAG_IDE *)
  CAN_FLAG_RTR : Z;                 (* CANFrame::CAN_FLAG_RTR *)
  byte_order : Endianness           (* of the host, for canid_t in memory *)
}.

(** ** The endpoint object *)

(** Kernel-side state of the raw socket that the endpoint configures. *)
Record CANSocket : Type := mkSocket {
  raw_filter : list can_filter;   (* filter set installed by CAN_RAW_FILTER *)
  join_filters : Z;               (* CAN_RAW_JOIN_FILTERS *)
  fd_frames : Z                   (* CAN_RAW_FD_FRAMES *)
}.

(** [Poco::Thread]: only whether its target is running matters here. *)
Inductive Thread : Type := ThreadIdle | ThreadRunning.

Record CANEndpointImpl : Type := mkEndpoint {
  _interfc : string;
  _socket : CANSocket;
  _filter : list Filter.t;
  _filterMode : FilterMode;
  _enableEvents : Z;
  _enableFDEvents : Z;
  _thread : Thread;
  _logger_debug : bool            (* _logger.debug() *)
}.

Definition with_socket (k : CANSocket) (s : CANEndpointImpl) : CANEndpointImpl :=
  mkEndpoint (_interfc s) k (_filter s) (_filterMode s) (_enableEvents s)
             (_enableFDEvents s) (_thread s) (_logger_debug s).
Definition with_filter (l : list Filter.t) (s : CANEndpointImpl) : CANEndpointImpl :=
  mkEndpoint (_interfc s) (_socket s) l (_filterMode s) (_enableEvents s)
             (_enableFDEvents s) (_thread s) (_logger_debug s).
Definition with_filterMode (m : FilterMode) (s : CANEndpointImpl) : CANEndpointImpl :=
  mkEndpoint (_interfc s) (_socket s) (_filter s) m (_enableEvents s)
             (_enableFDEvents s) (_thread s) (_logger_debug s).
Definition with_enableEvents (n : Z) (s : CANEndpointImpl) : CANEndpointImpl :=
  mkEndpoint (_interfc s) (_socket s) (_filter s) (_filterMode s) n
             (_enableFDEvents s) (_thread s) (_logger_debug s).
Definition with_enableFDEvents (n : Z) (s : CANEndpointImpl) : CANEndpointImpl :=
  mkEndpoint (_interfc s) (_socket s) (_filter s) (_filterMode s) (_enableEvents s)
             n (_thread s) (_logger_debug s).
Definition with_thread (t : Thread) (s : CANEndpointImpl) : CANEndpointImpl :=
  mkEndpoint (_interfc s) (_socket s) (_filter s) (_filterMode s) (_enableEvents s)
             (_enableFDEvents s) t (_logger_debug s).

Definition with_raw_filter (l : list can_filter) (k : CANSocket) : CANSocket :=
  mkSocket l (join_filters k) (fd_frames k).
Definition with_option (o : SockOpt) (v : Z) (k : CANSocket) : CANSocket :=
  match o with
  | CAN_RAW_JOIN_FILTERS => mkSocket (raw_filter k) v (fd_frames k)
  | CAN_RAW_FD_FRAMES_OPT => mkSocket (raw_filter k) (join_filters k) v
  end.

(** ** Events, exceptions and outcomes *)

(** Members shared between caller threads and the reader thread. *)
Inductive Field : Type := F_filter | F_filterMode | F_enableEvents | F_enableFDEvents.

(** The two vectors that are subscripted. *)
Inductive Vec : Type := V_filter | V_fvec.

Inductive Event : Type :=
| EvLock                                   (* _mutex acquired *)
| EvUnlock                                 (* _mutex released *)
| EvRead (f : Field)
| EvWrite (f : Field)
| EvSubscript (v : Vec) (size idx : nat)   (* v[idx] evaluated, v.size() = size *)
| EvSetsockoptFilter (fvec : list can_filter) (ret : Z)
| EvSetOption (o : SockOpt) (v : Z)
| EvSendBytes (bytes : list Z) (error : option Z)   (* a write and its result *)
| EvThreadStart
| EvThreadJoin
| EvDump (label : string) (bytes : list Z).

Inductive Exn : Type :=
| IOException (msg : string) (code : Z)
| InvalidArgumentException (msg : string)
| NotImplementedException (msg : string)
| SystemException (msg : string).

Inductive Outcome (A : Type) : Type :=
| Ret (a : A)
| Throw (e : Exn)
| Undefined          (* memory outside the objects at hand is read or written *)
| Blocked.           (* the call waits for something that cannot happen *)
Arguments Throw {A} e.
Arguments Undefined {A}.
Arguments Blocked {A}.

Record Res (A : Type) : Type := mkRes {
  outcome : Outcome A;
  final : CANEndpointImpl;
  events : list Event
}.

Definition M (A : Type) : Type := CANEndpointImpl -> Res A.

Definition ret {A} (a : A) : M A := fun s => mkRes (Ret a) s [].
Definition throw {A} (e : Exn) : M A := fun s => mkRes (Throw e) s [].
Definition undefined {A} : M A := fun s => mkRes Undefined s [].

Definition bind {A B} (m : M A) (k : A -> M B) : M B :=
  fun s =>
    let r := m s in
    match outcome r with
    | Ret a => let r' := k a (final r) in
               mkRes (outcome r') (final r') (events r ++ events r')
    | Throw e => mkRes (Throw e) (final r) (events r)
    | Undefined => mkRes Undefined (final r) (events r)
    | Blocked => mkRes Blocked (final r) (events r)
    end.

Declare Scope cpp_scope.
Delimit Scope cpp_scope with cpp.
Notation "x <- m ;; k" := (bind m (fun x => k))
  (at level 61, m at next level, right associativity) : cpp_scope.
Notation "m ;;; k" := (bind m (fun _ => k))
  (at level 61, right associativity) : cpp_scope.
Open Scope cpp_scope.

Definition emit (e : Event) : M unit := fun s => mkRes (Ret tt) s [e].

(** Reading and writing a shared member. *)
Definition read {A} (f : Field) (proj : CANEndpointImpl -> A) : M A :=
  fun s => mkRes (Ret (proj s)) s [EvRead f].
Definition write (f : Field) (upd : CANEndpointImpl -> CANEndpointImpl) : M unit :=
  fun s => mkRes (Ret tt) (upd s) [EvWrite f].
(** Reading a member that is not shared mutable state: the interface name,
    the logger. *)
Definition peek {A} (proj : CANEndpointImpl -> A) : M A :=
  fun s => mkRes (Ret (proj s)) s [].

(** [Poco::FastMutex::ScopedLock lock(_mutex)]: the mutex is taken at the
    declaration and released when the scope is left, by return or by an
    exception. *)
Definition ScopedLock {A} (body : M A) : M A :=
  fun s =>
    let r := (emit EvLock ;;; body) s in
    match outcome r with
    | Undefined | Blocked => r
    | _ => mkRes (outcome r) (final r) (events r ++ [EvUnlock])
    end.

(** ** The host

    What the kernel answers to the three kinds of calls the endpoint makes.
    [None] is success; [Some e] is failure with [errno = e]. *)
Record Host : Type := mkHost {
  setsockopt_CAN_RAW_FILTER : CANSocket -> list can_filter -> option Z;
  setOption_error : CANSocket -> SockOpt -> Z -> option Z;
  sendBytes_error : CANSocket -> list Z -> option Z
}.

(** [bool operator == (const Filter& f1, const Filter& f2)]. *)
Definition Filter_eq (f1 f2 : Filter.t) : bool :=
  (Filter.id f1 =? Filter.id f2) && (Filter.mask f1 =? Filter.mask f2).

(** The search loop shared by [addFilter] and [removeFilter]:
    [for (it = _filter.begin(); it != _filter.end(); ++it) if (filter == *it) ...]. *)
Fixpoint find_equal (filter : Filter.t) (l : list Filter.t) : bool :=
  match l with
  | [] => false
  | x :: rest => if Filter_eq filter x then true else find_equal filter rest
  end.

(** [_filter.erase(it)] at the first [it] with [filter == *it]; [None] when
    the loop runs to [end()]. *)
Fixpoint erase_first_equal (filter : Filter.t) (l : list Filter.t)
  : option (list Filter.t) :=
  match l with
  | [] => None
  | x :: rest =>
      if Filter_eq filter x then Some rest
      else match erase_first_equal filter rest with
           | Some rest' => Some (x :: rest')
           | None => None
           end
  end.

(** [v[i].member = ...] on a local vector: the subscript is recorded and
    element [i] is replaced. *)
Fixpoint update_nth {A} (i : nat) (f : A -> A) (l : list A) : list A :=
  match l, i with
  | [], _ => []
  | x :: rest, O => f x :: rest
  | x :: rest, S j => x :: update_nth j f rest
  end.

Definition zero_can_filter : can_filter := mk_can_filter 0 0.
Definition zero_Filter : Filter.t := Filter.mk 0 0 false.

Section Endpoint.

Variable cfg : Config.
Variable host : Host.

(** *** Construction

    The initialiser list sets [_interfc], [_socket], [_filterMode],
    [_enableEvents] and [_logger]; [_filter] and [_thread] are default
    constructed; [_enableFDEvents] is not mentioned, so its value is
    whatever [indeterminate] happens to be. *)
Definition constructor (interfc : string) (sock : CANSocket) (debug : bool)
           (indeterminate : Z) : CANEndpointImpl :=
  mkEndpoint interfc sock [] CAN_FILTER_MODE_OR 0 indeterminate ThreadIdle debug.

(** *** Filter management *)

(** [v[idx]] on a [std::vector] with [v.size() = size]: the subscript is
    recorded, and outside the vector the behaviour is undefined
    ([operator[]] does not check; a checked standard library aborts). *)
Definition subscript (v : Vec) (size idx : nat) : M unit :=
  emit (EvSubscript v size idx) ;;;
  if (idx <? size)%nat then ret tt else undefined.

(** [_filter[i]] *)
Definition filter_at (i : nat) : M Filter.t :=
  l <- read F_filter _filter ;;
  subscript V_filter (List.length l) i ;;;
  ret (nth i l zero_Filter).

(** [fvec[i]] used as an lvalue *)
Definition fvec_at (fvec : list can_filter) (i : nat) (f : can_filter -> can_filter)
  : M (list can_filter) :=
  subscript V_fvec (List.length fvec) i ;;;
  ret (update_nth i f fvec).

(** The body of the [for] loop of [applyFilter]. *)
Definition applyFilter_body (i : nat) (fvec : list can_filter) : M (list can_filter) :=
  fi <- filter_at i ;;
  fvec <- fvec_at fvec i (fun c => mk_can_filter (Filter.id fi) (can_mask c)) ;;
  fi <- filter_at i ;;
  fvec <- fvec_at fvec i (fun c => mk_can_filter (can_id c) (Filter.mask fi)) ;;
  fi <- filter_at i ;;
  if Filter.invert fi
  then fvec_at fvec i (fun c => mk_can_filter (Z.lor (can_id c) CAN_INV_FILTER) (can_mask c))
  else ret fvec.

(** [for (std::size_t i = 0; i < _filter.size(); i++)]: the condition is
    evaluated before every iteration and once more on exit; [_filter] is
    not modified inside, so [remaining] is [_filter.size() - i]. *)
Fixpoint applyFilter_loop (remaining i : nat) (fvec : list can_filter)
  : M (list can_filter) :=
  read F_filter (fun s => List.length (_filter s)) ;;;
  match remaining with
  | O => ret fvec
  | S r => fvec' <- applyFilter_body i fvec ;; applyFilter_loop r (S i) fvec'
  end.

(** [setsockopt(sockfd, SOL_CAN_RAW, CAN_RAW_FILTER, ptr, len)]: on success
    the kernel replaces the socket's filter set by the array; on failure it
    returns -1, sets errno and leaves the set as it was.  The result is the
    pair of the return value and errno. *)
Definition setsockopt_filter (fvec : list can_filter) : M (Z * Z) :=
  fun s =>
    match setsockopt_CAN_RAW_FILTER host (_socket s) fvec with
    | None =>
        mkRes (Ret (0, 0)) (with_socket (with_raw_filter fvec (_socket s)) s)
              [EvSetsockoptFilter fvec 0]
    | Some errno =>
        mkRes (Ret (-1, errno)) s [EvSetsockoptFilter fvec (-1)]
    end.

(** [void CANEndpointImpl::applyFilter()].  [&fvec[0]] subscripts [fvec]
    at 0 whatever its size: with an empty [fvec] the subscript is outside
    the vector and what follows is undefined.  Otherwise the array handed to
    the kernel is the [fvec.size()] elements found there. *)
Definition applyFilter : M unit :=
  if MACCHINA_HAVE_SOCKETCAN cfg then
    n <- read F_filter (fun s => List.length (_filter s)) ;;
    fvec <- applyFilter_loop n 0 (repeat zero_can_filter n) ;;
    subscript V_fvec (List.length fvec) 0 ;;;
    r <- setsockopt_filter fvec ;;
    if fst r =? -1
    then throw (IOException "Failed to set CAN frame filter" (snd r))
    else ret tt
  else ret tt.

(** [void CANEndpointImpl::setFilter(const std::vector<Filter>& filter)] *)
Definition setFilter (filter : list Filter.t) : M unit :=
  ScopedLock (
    write F_filter (with_filter filter) ;;;
    applyFilter).

(** [std::vector<Filter> CANEndpointImpl::getFilter() const] *)
Definition getFilter : M (list Filter.t) :=
  ScopedLock (read F_filter _filter).

(** [bool CANEndpointImpl::addFilter(const Filter& filter)] *)
Definition addFilter (filter : Filter.t) : M bool :=
  ScopedLock (
    l <- read F_filter _filter ;;
    if find_equal filter l then ret false
    else
      write F_filter (fun s => with_filter (_filter s ++ [filter]) s) ;;;
      applyFilter ;;;
      ret true).

(** [bool CANEndpointImpl::removeFilter(const Filter& filter)] *)
Definition removeFilter (filter : Filter.t) : M bool :=
  ScopedLock (
    l <- read F_filter _filter ;;
    match erase_first_equal filter l with
    | Some l' =>
        write F_filter (with_filter l') ;;;
        applyFilter ;;;
        ret true
    | None => ret false
    end).

(** Modelled from the spec: [setOption] of the socket class, whose code is
    not part of the sources at hand.  [_socket.setOption(SOL_CAN_RAW, name,
    value)] sets the option; a failure of the socket layer surfaces as an
    IO error that carries the host error code. *)
Definition setOption (o : SockOpt) (v : Z) : M unit :=
  fun s =>
    match setOption_error host (_socket s) o v with
    | None => mkRes (Ret tt) (with_socket (with_option o v (_socket s)) s) [EvSetOption o v]
    | Some errno => mkRes (Throw (IOException "setsockopt" errno)) s [EvSetOption o v]
    end.

(** [void CANEndpointImpl::setFilterMode(CANEndpoint::FilterMode mode)] *)
Definition setFilterMode (mode : FilterMode) : M unit :=
  (if MACCHINA_HAVE_SOCKETCAN cfg then
     if FilterMode_eqb mode CAN_FILTER_MODE_AND
     then setOption CAN_RAW_JOIN_FILTERS 1
     else setOption CAN_RAW_JOIN_FILTERS 0
   else ret tt) ;;;
  write F_filterMode (with_filterMode mode).

(** [CANEndpoint::FilterMode CANEndpointImpl::getFilterMode() const] *)
Definition getFilterMode : M FilterMode :=
  read F_filterMode _filterMode.

(** [std::string CANEndpointImpl::device() const] *)
Definition device : M string := peek _interfc.

(** *** Event enabling *)

(** [_thread.start] on the endpoint; Poco refuses to start a thread that is already
    running. *)
Definition thread_start : M unit :=
  fun s =>
    match _thread s with
    | ThreadRunning => mkRes (Throw (SystemException "thread already running")) s []
    | ThreadIdle => mkRes (Ret tt) (with_thread ThreadRunning s) [EvThreadStart]
    end.

(** [_thread.join()] returns at once when the thread is not running, and
    otherwise when its target has left [run()].  [run()] leaves its loop
    only after a call of [eventsEnabled()] has returned false, and
    [eventsEnabled()] takes [_mutex]: the reader gets there only when the
    joining thread does not hold the mutex ([holding_mutex], known at each
    call site) and the counter is not positive.  Otherwise the join waits
    for ever.  [Interleaving] below derives this from the two threads'
    steps. *)
Definition thread_join (holding_mutex : bool) : M unit :=
  fun s =>
    match _thread s with
    | ThreadIdle => mkRes (Ret tt) s [EvThreadJoin]
    | ThreadRunning =>
        if negb holding_mutex && (_enableEvents s <=? 0)
        then mkRes (Ret tt) (with_thread ThreadIdle s) [EvThreadJoin]
        else mkRes Blocked s [EvThreadJoin]
    end.

(** [void CANEndpointImpl::enableEvents(bool enable)] *)
Definition enableEvents (enable : bool) : M unit :=
  ScopedLock (
    if enable then
      old <- read F_enableEvents _enableEvents ;;
      write F_enableEvents (with_enableEvents (old + 1)) ;;;
      if old =? 0 then thread_start else ret tt
    else
      c <- read F_enableEvents _enableEvents ;;
      if 0 <? c then
        write F_enableEvents (with_enableEvents (c - 1)) ;;;
        c' <- read F_enableEvents _enableEvents ;;
        if c' =? 0 then thread_join true else ret tt
      else ret tt).

(** [bool CANEndpointImpl::eventsEnabled() const] *)
Definition eventsEnabled : M bool :=
  ScopedLock (c <- read F_enableEvents _enableEvents ;; ret (0 <? c)).

(** [void CANEndpointImpl::enableFDEvents(bool enable)] *)
Definition enableFDEvents (enable : bool) : M unit :=
  if CAN_RAW_FD_FRAMES cfg then
    ScopedLock (
      if enable then
        old <- read F_enableFDEvents _enableFDEvents ;;
        write F_enableFDEvents (with_enableFDEvents (old + 1)) ;;;
        if old =? 0 then setOption CAN_RAW_FD_FRAMES_OPT 1 else ret tt
      else
        c <- read F_enableFDEvents _enableFDEvents ;;
        if 0 <? c then
          write F_enableFDEvents (with_enableFDEvents (c - 1)) ;;;
          c' <- read F_enableFDEvents _enableFDEvents ;;
          if c' =? 0 then setOption CAN_RAW_FD_FRAMES_OPT 0 else ret tt
        else ret tt)
  else
    if enable
    then throw (NotImplementedException
                  "CAN FD frames not supported by platform's SocketCAN")
    else ret tt.

(** [bool CANEndpointImpl::fdEventsEnabled() const] *)
Definition fdEventsEnabled : M bool :=
  ScopedLock (c <- read F_enableFDEvents _enableFDEvents ;; ret (0 <? c)).

(** [bool CANEndpointImpl::fdFramesSupported() const] *)
Definition fdFramesSupported : M bool := ret (CAN_RAW_FD_FRAMES cfg).

(** [CANEndpointImpl::~CANEndpointImpl()]: [ScopedLockWithUnlock] is
    released by hand before the join, or at the end of the scope. *)
Definition destructor : M unit :=
  emit EvLock ;;;
  c <- read F_enableEvents _enableEvents ;;
  if negb (c =? 0) then
    write F_enableEvents (with_enableEvents 0) ;;;
    emit EvUnlock ;;;
    thread_join false
  else emit EvUnlock.

End Endpoint.

(** ** Frame buffers

    Objects of [struct can_frame] and [struct canfd_frame] travel through
    the socket as their bytes.  Both structs start with the 32-bit
    identifier in host byte order, then one length byte, three further
    bytes, and the data array at offset 8. *)

Definition u32_to_bytes (e : Endianness) (v : Z) : list Z :=
  let le := [v mod 256; (v / 256) mod 256; (v / 65536) mod 256; (v / 16777216) mod 256] in
  match e with LittleEndian => le | BigEndian => rev le end.

Definition u32_of_bytes (e : Endianness) (b : list Z) : Z :=
  let le := match e with LittleEndian => b | BigEndian => rev b end in
  nth 0 le 0 + 256 * nth 1 le 0 + 65536 * nth 2 le 0 + 16777216 * nth 3 le 0.

Module can_frame.
Record t : Type := mk {
  can_id : Z; can_dlc : Z; __pad : Z; __res0 : Z; __res1 : Z; data : list Z
}.

(** An object of the struct holds exactly [CAN_MAX_DLEN] data bytes. *)
Definition is_object (f : t) : Prop := List.length (data f) = CAN_MAX_DLEN.

Definition to_bytes (e : Endianness) (f : t) : list Z :=
  u32_to_bytes e (can_id f) ++ [can_dlc f; __pad f; __res0 f; __res1 f] ++ data f.

Definition of_bytes (e : Endianness) (b : list Z) : t :=
  mk (u32_of_bytes e (firstn 4 b)) (nth 4 b 0) (nth 5 b 0) (nth 6 b 0) (nth 7 b 0)
     (firstn CAN_MAX_DLEN (skipn 8 b)).

Definition sizeof : nat := 16.
End can_frame.

Module canfd_frame.
Record t : Type := mk {
  can_id : Z; len : Z; flags : Z; __res0 : Z; __res1 : Z; data : list Z
}.

Definition is_object (f : t) : Prop := List.length (data f) = CANFD_MAX_DLEN.

Definition to_bytes (e : Endianness) (f : t) : list Z :=
  u32_to_bytes e (can_id f) ++ [len f; flags f; __res0 f; __res1 f] ++ data f.

Definition of_bytes (e : Endianness) (b : list Z) : t :=
  mk (u32_of_bytes e (firstn 4 b)) (nth 4 b 0) (nth 5 b 0) (nth 6 b 0) (nth 7 b 0)
     (firstn CANFD_MAX_DLEN (skipn 8 b)).

Definition sizeof : nat := 72.
End canfd_frame.

Definition CAN_MTU : nat := can_frame.sizeof.
Definition CANFD_MTU : nat := canfd_frame.sizeof.

(** [std::memcpy(dst, src, n)] into the array [dst] from the buffer [src];
    [None] when [n] bytes do not fit the array or are not available in the
    buffer. *)
Definition memcpy (dst src : list Z) (n : nat) : option (list Z) :=
  if ((n <=? List.length dst) && (n <=? List.length src))%nat
  then Some (firstn n src ++ skipn n dst)
  else None.

(** What the reader hands to the event sinks. *)
Inductive Notification : Type :=
| frameReceived (frame : CANFrame.t)
| sdFrameReceived (frame : CANFDFrame.t).

(** Modelled from the spec: the constructors
    [CANFrame(id, flags, dlc, const char* payload)] and
    [CANFDFrame(id, flags, length, const char* payload)] of CANFrame.h and
    CANFDFrame.h, which are not part of the sources at hand.  The data model
    requires the payload to hold exactly [dlc] bytes, so the constructor
    takes the first [dlc] bytes found at the pointer; [avail] is the memory
    from the pointer to the end of the enclosing object. *)
Definition CANFrame_from_ptr (id flags : Z) (dlc : Z) (avail : list Z)
  : Outcome CANFrame.t :=
  if (Z.to_nat dlc <=? List.length avail)%nat
  then Ret (CANFrame.mk id flags (Z.to_nat dlc) (firstn (Z.to_nat dlc) avail))
  else Undefined.

Definition CANFDFrame_from_ptr (id flags : Z) (len : Z) (avail : list Z)
  : Outcome CANFDFrame.t :=
  if (Z.to_nat len <=? List.length avail)%nat
  then Ret (CANFDFrame.mk id flags (Z.to_nat len) (firstn (Z.to_nat len) avail))
  else Undefined.

Section Transfer.

Variable cfg : Config.
Variable host : Host.

(** [if (frame.flags() & FLAG) scFrame.can_id |= BIT;] *)
Definition or_if_flag (flags flag bit can_id : Z) : Z :=
  if negb (Z.land flags flag =? 0) then Z.lor can_id bit else can_id.

(** [_logger.dump(label, payload.data(), n)] reads [n] bytes of the payload
    buffer. *)
Definition logger_dump (label : string) (payload : list Z) (n : nat) : M unit :=
  if (n <=? List.length payload)%nat
  then emit (EvDump label (firstn n payload))
  else undefined.

(** Modelled from the spec: [sendBytes] of the socket class, whose code is
    not part of the sources at hand.  [_socket.sendBytes(buffer, length)]
    writes the buffer; a failure of the socket layer surfaces as an IO
    error that carries the host error code. *)
Definition sendBytes (bytes : list Z) : M unit :=
  fun s =>
    match sendBytes_error host (_socket s) bytes with
    | None => mkRes (Ret tt) s [EvSendBytes bytes None]
    | Some errno =>
        mkRes (Throw (IOException "I/O error" errno)) s [EvSendBytes bytes (Some errno)]
    end.

(** [void CANEndpointImpl::sendFrame(const CANFrame& frame)].  [scFrame] is
    the local [struct can_frame] as it is before any member is assigned. *)
Definition sendFrame (frame : CANFrame.t) (scFrame : can_frame.t) : M unit :=
  debug <- peek _logger_debug ;;
  (if debug
   then logger_dump "Sending CAN frame" (CANFrame.payload frame) (CANFrame.dlc frame)
   else ret tt) ;;;
  if MACCHINA_HAVE_SOCKETCAN cfg then
    let can_id := CANFrame.id frame mod 2 ^ 32 in          (* canid_t is __u32 *)
    let can_id := or_if_flag (CANFrame.flags frame) (CAN_FLAG_IDE cfg) CAN_EFF_FLAG can_id in
    let can_id := or_if_flag (CANFrame.flags frame) (CAN_FLAG_RTR cfg) CAN_RTR_FLAG can_id in
    let can_dlc := Z.of_nat (CANFrame.dlc frame) mod 2 ^ 8 in   (* __u8 *)
    match memcpy (can_frame.data scFrame) (CANFrame.payload frame) (CANFrame.dlc frame) with
    | None => undefined
    | Some data =>
        sendBytes (can_frame.to_bytes (byte_order cfg)
                     (can_frame.mk can_id can_dlc (can_frame.__pad scFrame)
                        (can_frame.__res0 scFrame) (can_frame.__res1 scFrame) data))
    end
  else ret tt.

(** [void CANEndpointImpl::sendFDFrame(const CANFDFrame& frame)] *)
Definition sendFDFrame (frame : CANFDFrame.t) (scFrame : canfd_frame.t) : M unit :=
  debug <- peek _logger_debug ;;
  (if debug
   then logger_dump "Sending CAN-FD frame" (CANFDFrame.payload frame) (CANFDFrame.length frame)
   else ret tt) ;;;
  if MACCHINA_HAVE_SOCKETCAN cfg then
    let can_id := CANFDFrame.id frame mod 2 ^ 32 in
    let can_id := or_if_flag (CANFDFrame.flags frame) (CAN_FLAG_IDE cfg) CAN_EFF_FLAG can_id in
    let can_id := or_if_flag (CANFDFrame.flags frame) (CAN_FLAG_RTR cfg) CAN_RTR_FLAG can_id in
    let len := Z.of_nat (CANFDFrame.length frame) mod 2 ^ 8 in
    match memcpy (canfd_frame.data scFrame) (CANFDFrame.payload frame)
                 (CANFDFrame.length frame) with
    | None => undefined
    | Some data =>
        sendBytes (canfd_frame.to_bytes (byte_order cfg)
                     (canfd_frame.mk can_id len (canfd_frame.flags scFrame)
                        (canfd_frame.__res0 scFrame) (canfd_frame.__res1 scFrame) data))
    end
  else ret tt.

(** *** The reader *)

(** [_socket.receiveBytes(&scFrame, sizeof(scFrame))] with one datagram
    [msg] pending: the first [n] bytes of the buffer are overwritten, where
    [n] is the smaller of the datagram's length and the buffer's. *)
Definition receiveBytes (buffer msg : list Z) : list Z * nat :=
  let n := Nat.min (List.length msg) (List.length buffer) in
  (firstn n msg ++ skipn n buffer, n).

(** [flags] as the reader rebuilds them from the identifier word. *)
Definition decode_flags (can_id : Z) : Z :=
  let flags := 0 in
  let flags := if negb (Z.land can_id CAN_EFF_FLAG =? 0)
               then Z.lor flags (CAN_FLAG_IDE cfg) else flags in
  let flags := if negb (Z.land can_id CAN_RTR_FLAG =? 0)
               then Z.lor flags (CAN_FLAG_RTR cfg) else flags in
  flags.

(** The [#ifdef CAN_RAW_FD_FRAMES] branch of the loop body, after a
    successful poll: [uninit] is the local [struct canfd_frame] before the
    read, [msg] the datagram the kernel delivers. *)
Definition receive_fd (uninit : canfd_frame.t) (msg : list Z)
  : Outcome (option Notification) :=
  let '(buf, n) := receiveBytes (canfd_frame.to_bytes (byte_order cfg) uninit) msg in
  let scFrame := canfd_frame.of_bytes (byte_order cfg) buf in
  if (n =? CAN_MTU)%nat then
    let flags := decode_flags (canfd_frame.can_id scFrame) in
    let id := Z.land (canfd_frame.can_id scFrame) CAN_EFF_MASK in
    match CANFrame_from_ptr id flags (canfd_frame.len scFrame) (canfd_frame.data scFrame) with
    | Ret frame => Ret (Some (frameReceived frame))
    | Throw e => Throw e
    | Undefined => Undefined
    | Blocked => Blocked
    end
  else if (n =? CANFD_MTU)%nat then
    let flags := decode_flags (canfd_frame.can_id scFrame) in
    let id := Z.land (canfd_frame.can_id scFrame) CAN_EFF_MASK in
    match CANFDFrame_from_ptr id flags (canfd_frame.len scFrame) (canfd_frame.data scFrame) with
    | Ret frame => Ret (Some (sdFrameReceived frame))
    | Throw e => Throw e
    | Undefined => Undefined
    | Blocked => Blocked
    end
  else Ret None.

(** The [#else] branch: the buffer is a [struct can_frame]. *)
Definition receive_classic (uninit : can_frame.t) (msg : list Z)
  : Outcome (option Notification) :=
  let '(buf, n) := receiveBytes (can_frame.to_bytes (byte_order cfg) uninit) msg in
  let scFrame := can_frame.of_bytes (byte_order cfg) buf in
  if (n =? CAN_MTU)%nat then
    let flags := decode_flags (can_frame.can_id scFrame) in
    let id := Z.land (can_frame.can_id scFrame) CAN_EFF_MASK in
    match CANFrame_from_ptr id flags (can_frame.can_dlc scFrame) (can_frame.data scFrame) with
    | Ret frame => Ret (Some (frameReceived frame))
    | Throw e => Throw e
    | Undefined => Undefined
    | Blocked => Blocked
    end
  else Ret None.

(** One pass through the body of [while (eventsEnabled())] in [run()]:
    [readable] is the result of [_socket.poll]; the local buffer of either
    build is given by [uninit_fd] and [uninit].  A Poco exception is caught
    and logged, and nothing is delivered. *)
Definition run_body (readable : bool) (uninit_fd : canfd_frame.t)
           (uninit : can_frame.t) (msg : list Z) : Outcome (option Notification) :=
  let r :=
    if MACCHINA_HAVE_SOCKETCAN cfg then
      if readable then
        if CAN_RAW_FD_FRAMES cfg then receive_fd uninit_fd msg
        else receive_classic uninit msg
      else Ret None
    else Ret None in
  match r with
  | Throw _ => Ret None
  | _ => r
  end.

End Transfer.

(** ** Specification vocabulary *)

(** The element the filter-install protocol of the specification
    prescribes for a filter:
    [can_id := id | (invert ? INV_FILTER_BIT : 0)], [can_mask := mask]. *)
Definition spec_encode_filter (f : Filter.t) : can_filter :=
  mk_can_filter (Z.lor (Filter.id f) (if Filter.invert f then CAN_INV_FILTER else 0))
                (Filter.mask f).

(** The arrays handed to [setsockopt(CAN_RAW_FILTER)], in call order. *)
Fixpoint kernel_installs (evs : list Event) : list (list can_filter) :=
  match evs with
  | [] => []
  | EvSetsockoptFilter fvec _ :: rest => fvec :: kernel_installs rest
  | _ :: rest => kernel_installs rest
  end.

(** The buffers handed to the socket for writing, in order. *)
Fixpoint frames_written (evs : list Event) : list (list Z) :=
  match evs with
  | [] => []
  | EvSendBytes b _ :: rest => b :: frames_written rest
  | _ :: rest => frames_written rest
  end.

(** Those of them that the socket accepted: the frames transmitted. *)
Fixpoint frames_sent (evs : list Event) : list (list Z) :=
  match evs with
  | [] => []
  | EvSendBytes b None :: rest => b :: frames_sent rest
  | _ :: rest => frames_sent rest
  end.

(** Subscripts outside the vector they are applied to. *)
Definition out_of_bounds (e : Event) : bool :=
  match e with
  | EvSubscript _ size idx => (size <=? idx)%nat
  | _ => false
  end.

Definition subscripts_in_bounds (evs : list Event) : bool :=
  negb (existsb out_of_bounds evs).

(** Lock discipline: scanning the events of an operation that starts with
    the mutex free, every access to a shared member happens while the
    operation holds the mutex. *)
Fixpoint guarded_from (held : bool) (evs : list Event) : bool :=
  match evs with
  | [] => true
  | EvLock :: rest => guarded_from true rest
  | EvUnlock :: rest => guarded_from false rest
  | EvRead _ :: rest => held && guarded_from held rest
  | EvWrite _ :: rest => held && guarded_from held rest
  | _ :: rest => guarded_from held rest
  end.

Definition guarded (evs : list Event) : bool := guarded_from false evs.

(** Whether an operation took the mutex at all. *)
Definition acquires_mutex (evs : list Event) : bool :=
  existsb (fun e => match e with EvLock => true | _ => false end) evs.

(** Whether [_thread.join()] was called. *)
Definition join_attempted (evs : list Event) : bool :=
  existsb (fun e => match e with EvThreadJoin => true | _ => false end) evs.

(** A sequence of [enableEvents] calls by one caller, each on the endpoint
    the previous one left; it stops at the first call that does not
    return. *)
Fixpoint enableEvents_calls (calls : list bool) : M unit :=
  match calls with
  | [] => ret tt
  | enable :: rest => enableEvents enable ;;; enableEvents_calls rest
  end.

(** Number of calls with the given argument. *)
Definition calls_with (b : bool) (calls : list bool) : Z :=
  Z.of_nat (count_occ bool_dec calls b).

(** Starting from a counter of [c], the counter is positive after every
    call: each disabling call finds it above 1.  From [c = 0] this says that
    every non-empty prefix has more enabling than disabling calls. *)
Fixpoint stays_enabled_from (c : Z) (calls : list bool) : bool :=
  match calls with
  | [] => true
  | true :: rest => stays_enabled_from (c + 1) rest
  | false :: rest => (1 <? c) && stays_enabled_from (c - 1) rest
  end.

(** The identifier word, length byte and data array of a classic frame
    buffer as sent. *)
Definition identifier_field (e : Endianness) (bytes : list Z) : Z :=
  u32_of_bytes e (firstn 4 bytes).
Definition dlc_field (bytes : list Z) : Z := nth 4 bytes 0.
Definition data_field (bytes : list Z) : list Z := skipn 8 bytes.

(** The identifier word the encoding rule of the specification asks for. *)
Definition spec_identifier (cfg : Config) (frame : CANFrame.t) : Z :=
  Z.lor (Z.lor (Z.land (CANFrame.id frame) CAN_EFF_MASK)
               (if negb (Z.land (CANFrame.flags frame) (CAN_FLAG_IDE cfg) =? 0)
                then CAN_EFF_FLAG else 0))
        (if negb (Z.land (CANFrame.flags frame) (CAN_FLAG_RTR cfg) =? 0)
         then CAN_RTR_FLAG else 0).

(** The identifier word [sendFrame] builds: the identifier as it is. *)
Definition sent_identifier (cfg : Config) (frame : CANFrame.t) : Z :=
  Z.lor (Z.lor (CANFrame.id frame)
               (if negb (Z.land (CANFrame.flags frame) (CAN_FLAG_IDE cfg) =? 0)
                then CAN_EFF_FLAG else 0))
        (if negb (Z.land (CANFrame.flags frame) (CAN_FLAG_RTR cfg) =? 0)
         then CAN_RTR_FLAG else 0).

(** ** The reader thread against a caller

    [run()] with [eventsEnabled()] inlined, next to a caller that is inside
    [enableEvents(false)] or inside the destructor; the two threads take
    steps in any order and share the counter and the mutex. *)
Module Interleaving.

(** Where the reader is. *)
Inductive Reader : Type :=
| R_call                    (* at [while (eventsEnabled())], about to lock *)
| R_locked                  (* in [eventsEnabled()], holding the mutex *)
| R_read (enabled : bool)   (* has evaluated [_enableEvents > 0] *)
| R_test (enabled : bool)   (* mutex released, about to test the condition *)
| R_body                    (* in the loop body: poll, receive, deliver *)
| R_returned.               (* [run()] has returned *)

(** Where the caller is. *)
Inductive Caller : Type :=
| C_call            (* [enableEvents(false)]: about to lock *)
| C_locked          (* holding the mutex, before [_enableEvents > 0] *)
| C_join            (* counter decremented to 0, in [_thread.join()] *)
| C_unlock          (* at the end of the scope, holding the mutex *)
| C_returned
| D_call            (* the destructor: about to lock *)
| D_locked          (* holding the mutex, before [if (_enableEvents)] *)
| D_unlock_join     (* counter set to 0, about to [lock.unlock()] *)
| D_join            (* mutex released, in [_thread.join()] *)
| D_unlock_exit     (* counter was 0: at the end of the scope *)
| D_returned.

Inductive Owner : Type := Free | ByCaller | ByReader.

Record State : Type := mk {
  counter : Z; mutex : Owner; caller : Caller; reader : Reader
}.

Inductive step : State -> State -> Prop :=
| reader_lock c k :
    step (mk c Free k R_call) (mk c ByReader k R_locked)
| reader_read c k :
    step (mk c ByReader k R_locked) (mk c ByReader k (R_read (0 <? c)))
| reader_unlock c k b :
    step (mk c ByReader k (R_read b)) (mk c Free k (R_test b))
| reader_continue c m k :
    step (mk c m k (R_test true)) (mk c m k R_body)
| reader_leave c m k :
    step (mk c m k (R_test false)) (mk c m k R_returned)
| reader_body c m k :
    step (mk c m k R_body) (mk c m k R_call)
| disable_lock c r :
    step (mk c Free C_call r) (mk c ByCaller C_locked r)
| disable_nothing c r :
    c <= 0 -> step (mk c ByCaller C_locked r) (mk c ByCaller C_unlock r)
| disable_decrement c r :
    0 < c -> c - 1 <> 0 ->
    step (mk c ByCaller C_locked r) (mk (c - 1) ByCaller C_unlock r)
| disable_last c r :
    0 < c -> c - 1 = 0 ->
    step (mk c ByCaller C_locked r) (mk (c - 1) ByCaller C_join r)
| disable_joined c :
    step (mk c ByCaller C_join R_returned) (mk c ByCaller C_unlock R_returned)
| disable_unlock c r :
    step (mk c ByCaller C_unlock r) (mk c Free C_returned r)
| destroy_lock c r :
    step (mk c Free D_call r) (mk c ByCaller D_locked r)
| destroy_reset c r :
    c <> 0 -> step (mk c ByCaller D_locked r) (mk 0 ByCaller D_unlock_join r)
| destroy_nothing c r :
    c = 0 -> step (mk c ByCaller D_locked r) (mk c ByCaller D_unlock_exit r)
| destroy_unlock c r :
    step (mk c ByCaller D_unlock_join r) (mk c Free D_join r)
| destroy_joined c m :
    step (mk c m D_join R_returned) (mk c m D_returned R_returned)
| destroy_exit c r :
    step (mk c ByCaller D_unlock_exit r) (mk c Free D_returned r).

Definition reachable (st st' : State) : Prop := clos_refl_trans State step st st'.

(** The reader is somewhere in its loop with the counter at 1, and the
    caller is about to make the last disabling call. *)
Definition last_disable_start (st : State) : Prop :=
  counter st = 1 /\ caller st = C_call /\
  match reader st with
  | R_call | R_body => mutex st = Free
  | R_locked => mutex st = ByReader
  | R_read b => mutex st = ByReader /\ b = true
  | R_test b => mutex st = Free /\ b = true
  | R_returned => False
  end.

(** What stays true from there on. *)
Definition last_disable_invariant (st : State) : Prop :=
  match caller st with
  | C_call => counter st = 1 /\ mutex st <> ByCaller
  | C_locked => counter st = 1 /\ mutex st = ByCaller
  | C_join => counter st = 0 /\ mutex st = ByCaller
  | _ => False
  end /\
  match reader st with
  | R_call | R_body => mutex st <> ByReader
  | R_locked => mutex st = ByReader
  | R_read b => mutex st = ByReader /\ b = true
  | R_test b => mutex st <> ByReader /\ b = true
  | R_returned => False
  end.

(** The destructor starts with the reader somewhere in its loop. *)
Definition destroy_start (st : State) : Prop :=
  caller st = D_call /\
  match reader st with
  | R_call | R_body | R_test _ => mutex st = Free
  | R_locked | R_read _ => mutex st = ByReader
  | R_returned => False
  end.

Definition destroy_invariant (st : State) : Prop :=
  match caller st with
  | D_call | D_join | D_returned => mutex st <> ByCaller
  | D_locked | D_unlock_join | D_unlock_exit => mutex st = ByCaller
  | _ => False
  end /\
  match reader st with
  | R_locked | R_read _ => mutex st = ByReader
  | _ => mutex st <> ByReader
  end.

End Interleaving.

(** Events during which the mutex, once held, stays held. *)
Definition keeps_mutex (evs : list Event) : bool :=
  forallb (fun e => match e with EvUnlock => false | _ => true end) evs.

(** What the loop does besides computing: it reads [_filter] and
    subscripts the two vectors, always below their size. *)
Definition loop_event (e : Event) : Prop :=
  match e with
  | EvRead F_filter => True
  | EvSubscript _ size idx => (idx < size)%nat
  | _ => False
  end.

(** The tail of an install: [&fvec[0]], then the system call. *)
Definition install_tail (fvec : list can_filter) (r : Z) : list Event :=
  [EvSubscript V_fvec (List.length fvec) 0; EvSetsockoptFilter fvec r].

(** The result of an operation that, holding the mutex and after the
    events [pre], replaces the filter list by [l'], re-installs it and
    returns [v]: [evs] are the events of the loop of [applyFilter].  With
    an empty [l'] the operation gets as far as [&fvec[0]]. *)
Definition mutation_result {A} (host : Host) (v : A) (l' : list Filter.t)
           (s : CANEndpointImpl) (pre evs : list Event) : Res A :=
  let fvec := map spec_encode_filter l' in
  match l' with
  | [] =>
      mkRes Undefined (with_filter l' s)
            (EvLock :: (pre ++ EvWrite F_filter :: evs ++ [EvSubscript V_fvec 0 0])
                    ++ [])
  | _ :: _ =>
      match setsockopt_CAN_RAW_FILTER host (_socket s) fvec with
      | None =>
          mkRes (Ret v)
                (with_socket (with_raw_filter fvec (_socket s)) (with_filter l' s))
                (EvLock :: (pre ++ EvWrite F_filter :: evs ++ install_tail fvec 0)
                        ++ [EvUnlock])
      | Some errno =>
          mkRes (Throw (IOException "Failed to set CAN frame filter" errno))
                (with_filter l' s)
                (EvLock :: (pre ++ EvWrite F_filter :: evs ++ install_tail fvec (-1))
                        ++ [EvUnlock])
      end
  end.

(** Equality of filters as the specification words it: same identifier and
    same mask, whatever the invert flags. *)
Definition same_id_mask (f g : Filter.t) : Prop :=
  Filter.id g = Filter.id f /\ Filter.mask g = Filter.mask f.

(** An operation made exactly one install call; the array was the encoding
    of the whole list the endpoint now holds; and if the operation returned
    normally that array is what the kernel now has, whatever it had. *)
Definition installs_current_list {A} (r : Res A) : Prop :=
  kernel_installs (events r) = [map spec_encode_filter (_filter (final r))] /\
  (forall a, outcome r = Ret a ->
             raw_filter (_socket (final r)) = map spec_encode_filter (_filter (final r))).

(** ** Example objects *)

Definition example_cfg : Config := mkConfig true false 1 2 LittleEndian.
Definition example_cfg_fd : Config := mkConfig true true 1 2 BigEndian.
Definition host_accepting : Host :=
  mkHost (fun _ _ => None) (fun _ _ _ => None) (fun _ _ => None).
(** A host that answers every call with EINVAL (22). *)
Definition host_rejecting : Host :=
  mkHost (fun _ _ => Some 22) (fun _ _ _ => Some 22) (fun _ _ => Some 22).
Definition example_socket : CANSocket := mkSocket [mk_can_filter 0 0] 0 0.
Definition example_endpoint : CANEndpointImpl :=
  constructor "vcan0" example_socket false 7.
Definition example_filter : Filter.t := Filter.mk 0x100 0x7FF false.
Definition example_filter_inverted : Filter.t := Filter.mk 0x100 0x7FF true.
Definition example_filter_other : Filter.t := Filter.mk 0x1 0x1 true.
Definition example_endpoint_filtering : CANEndpointImpl :=
  with_filter [example_filter] example_endpoint.
Definition example_endpoint_two : CANEndpointImpl :=
  with_filter [example_filter; example_filter_other] example_endpoint.
(** An endpoint whose one filter is the one the kernel has. *)
Definition example_endpoint_synced : CANEndpointImpl :=
  with_socket (with_raw_filter [mk_can_filter 0x100 0x7FF] example_socket)
              example_endpoint_filtering.

(** The reader runs exactly when the counter is positive. *)
Definition reader_matches_counter (s : CANEndpointImpl) : Prop :=
  0 <= _enableEvents s /\ (_thread s = ThreadRunning <-> 0 < _enableEvents s).

(** The identifier word [sendFrame] stores, as the code computes it. *)
Definition sendFrame_can_id (cfg : Config) (frame : CANFrame.t) : Z :=
  or_if_flag (CANFrame.flags frame) (CAN_FLAG_RTR cfg) CAN_RTR_FLAG
    (or_if_flag (CANFrame.flags frame) (CAN_FLAG_IDE cfg) CAN_EFF_FLAG
       (CANFrame.id frame mod 2 ^ 32)).

(** The object [sendFrame] hands to the socket. *)
Definition sendFrame_object (cfg : Config) (frame : CANFrame.t)
           (scFrame : can_frame.t) : can_frame.t :=
  can_frame.mk (sendFrame_can_id cfg frame)
               (Z.of_nat (CANFrame.dlc frame) mod 2 ^ 8)
               (can_frame.__pad scFrame) (can_frame.__res0 scFrame)
               (can_frame.__res1 scFrame)
               (firstn (CANFrame.dlc frame) (CANFrame.payload frame)
                  ++ skipn (CANFrame.dlc frame) (can_frame.data scFrame)).

Definition dump_events (debug : bool) (label : string) (bytes : list Z) : list Event :=
  if debug then [EvDump label bytes] else [].

(** How the reader passes on the frame it constructed. *)
Definition deliver (r : Outcome CANFrame.t) : Outcome (option Notification) :=
  match r with
  | Ret frame => Ret (Some (frameReceived frame))
  | Throw e => Throw e
  | Undefined => Undefined
  | Blocked => Blocked
  end.

(** ** Vocabulary for sequences of operations *)

(** The three operations that change the filter list. *)
Inductive FilterOp : Type :=
| OpSet (l : list Filter.t)
| OpAdd (f : Filter.t)
| OpRemove (f : Filter.t).

(** One of them, as the endpoint runs it; [setFilter] returns nothing, which
    is reported as [true]. *)
Definition run_op (cfg : Config) (host : Host) (op : FilterOp) : M bool :=
  match op with
  | OpSet l => setFilter cfg host l ;;; ret true
  | OpAdd f => addFilter cfg host f
  | OpRemove f => removeFilter cfg host f
  end.

(** A sequence of them by one caller; it stops at the first that throws. *)
Fixpoint run_ops (cfg : Config) (host : Host) (ops : list FilterOp) : M unit :=
  match ops with
  | [] => ret tt
  | op :: rest => run_op cfg host op ;;; run_ops cfg host rest
  end.

(** The list an operation leaves, as a function of the list it finds. *)
Definition filter_list_after (op : FilterOp) (l : list Filter.t) : list Filter.t :=
  match op with
  | OpSet l' => l'
  | OpAdd f => if find_equal f l then l else l ++ [f]
  | OpRemove f => match erase_first_equal f l with Some l' => l' | None => l end
  end.

(** Whether an operation, finding the list [l], installs an empty list:
    [setFilter] with an empty argument, [removeFilter] of the only filter
    held. *)
Definition installs_empty (op : FilterOp) (l : list Filter.t) : bool :=
  match op with
  | OpSet [] => true
  | OpSet (_ :: _) => false
  | OpAdd _ => false
  | OpRemove f => match erase_first_equal f l with
                  | Some [] => true
                  | _ => false
                  end
  end.

(** No operation of the sequence does, each finding the list the previous
    ones leave. *)
Fixpoint never_installs_empty (ops : list FilterOp) (l : list Filter.t) : bool :=
  match ops with
  | [] => true
  | op :: rest =>
      negb (installs_empty op l) && never_installs_empty rest (filter_list_after op l)
  end.


(** The kernel's filter set is the encoding of the list the endpoint holds. *)
Definition in_sync (s : CANEndpointImpl) : Prop :=
  raw_filter (_socket s) = map spec_encode_filter (_filter s).

(** A host that never turns down a filter array, or a socket option. *)
Definition accepts_filters (host : Host) : Prop :=
  forall k fvec, setsockopt_CAN_RAW_FILTER host k fvec = None.
Definition accepts_options (host : Host) : Prop :=
  forall k o v, setOption_error host k o v = None.

(** A sequence of [enableFDEvents] calls by one caller. *)
Fixpoint enableFDEvents_calls (cfg : Config) (host : Host) (calls : list bool) : M unit :=
  match calls with
  | [] => ret tt
  | enable :: rest => enableFDEvents cfg host enable ;;; enableFDEvents_calls cfg host rest
  end.

(** No disabling call finds the counter at zero. *)
Fixpoint balanced_from (c : Z) (calls : list bool) : bool :=
  match calls with
  | [] => true
  | true :: rest => balanced_from (c + 1) rest
  | false :: rest => (0 <? c) && balanced_from (c - 1) rest
  end.

(** The FD option of the socket is on exactly when the FD counter is
    positive. *)
Definition fd_option_matches_counter (s : CANEndpointImpl) : Prop :=
  0 <= _enableFDEvents s /\
  fd_frames (_socket s) = (if 0 <? _enableFDEvents s then 1 else 0).

(** The socket options set, in call order. *)
Fixpoint options_set (evs : list Event) : list (SockOpt * Z) :=
  match evs with
  | [] => []
  | EvSetOption o v :: rest => (o, v) :: options_set rest
  | _ :: rest => options_set rest
  end.

(** The identifier word and the object [sendFDFrame] hands to the socket. *)
Definition sendFDFrame_can_id (cfg : Config) (frame : CANFDFrame.t) : Z :=
  or_if_flag (CANFDFrame.flags frame) (CAN_FLAG_RTR cfg) CAN_RTR_FLAG
    (or_if_flag (CANFDFrame.flags frame) (CAN_FLAG_IDE cfg) CAN_EFF_FLAG
       (CANFDFrame.id frame mod 2 ^ 32)).

Definition sendFDFrame_object (cfg : Config) (frame : CANFDFrame.t)
           (scFrame : canfd_frame.t) : canfd_frame.t :=
  canfd_frame.mk (sendFDFrame_can_id cfg frame)
                 (Z.of_nat (CANFDFrame.length frame) mod 2 ^ 8)
                 (canfd_frame.flags scFrame) (canfd_frame.__res0 scFrame)
                 (canfd_frame.__res1 scFrame)
                 (firstn (CANFDFrame.length frame) (CANFDFrame.payload frame)
                    ++ skipn (CANFDFrame.length frame) (canfd_frame.data scFrame)).

(** The flag word a received frame can carry. *)
Definition flags_of (cfg : Config) (ide rtr : bool) : Z :=
  Z.lor (if ide then CAN_FLAG_IDE cfg else 0) (if rtr then CAN_FLAG_RTR cfg else 0).

(** Whether anything at all was asked of the kernel. *)
Definition touches_kernel (e : Event) : bool :=
  match e with
  | EvSetsockoptFilter _ _ | EvSetOption _ _ | EvSendBytes _ _ => true
  | _ => false
  end.

(** Further example objects. *)
Definition example_cfg_nocan : Config := mkConfig false false 1 2 LittleEndian.
Definition example_endpoint_enabled : CANEndpointImpl :=
  with_thread ThreadRunning (with_enableEvents 2 example_endpoint).
Definition example_endpoint_fd : CANEndpointImpl :=
  with_enableFDEvents 0 example_endpoint.
Definition example_uninit : can_frame.t :=
  can_frame.mk 0 0 0 0 0 [9; 9; 9; 9; 9; 9; 9; 9].
Definition example_uninit_fd : canfd_frame.t :=
  canfd_frame.mk 0 0 0 0 0 (repeat 7 64).

(** What stays true while the destructor runs on an endpoint with events
    enabled: the counter is positive until the destructor resets it, and
    the destructor has returned only if the reader has. *)
Definition destroy_enabled_invariant (st : Interleaving.State) : Prop :=
  match Interleaving.caller st with
  | Interleaving.D_call | Interleaving.D_locked => 0 < Interleaving.counter st
  | Interleaving.D_unlock_join | Interleaving.D_join => Interleaving.counter st = 0
  | Interleaving.D_returned =>
      Interleaving.counter st = 0 /\ Interleaving.reader st = Interleaving.R_returned
  | _ => False
  end.

(** The header of an FD frame, read as that of a classic frame. *)
Definition as_classic (frame : CANFDFrame.t) : CANFrame.t :=
  CANFrame.mk (CANFDFrame.id frame) (CANFDFrame.flags frame) 0 [].

(** The identifier word [sendFDFrame] builds, for an identifier of 32 bits. *)
Definition sent_fd_identifier (cfg : Config) (frame : CANFDFrame.t) : Z :=
  Z.lor (Z.lor (CANFDFrame.id frame)
               (if negb (Z.land (CANFDFrame.flags frame) (CAN_FLAG_IDE cfg) =? 0)
                then CAN_EFF_FLAG else 0))
        (if negb (Z.land (CANFDFrame.flags frame) (CAN_FLAG_RTR cfg) =? 0)
         then CAN_RTR_FLAG else 0).

(** The members of a delivered frame, of either kind. *)
Definition note_id (n : Notification) : Z :=
  match n with
  | frameReceived f => CANFrame.id f
  | sdFrameReceived f => CANFDFrame.id f
  end.
Definition note_flags (n : Notification) : Z :=
  match n with
  | frameReceived f => CANFrame.flags f
  | sdFrameReceived f => CANFDFrame.flags f
  end.
Definition note_length (n : Notification) : nat :=
  match n with
  | frameReceived f => CANFrame.dlc f
  | sdFrameReceived f => CANFDFrame.length f
  end.
Definition note_payload (n : Notification) : list Z :=
  match n with
  | frameReceived f => CANFrame.payload f
  | sdFrameReceived f => CANFDFrame.payload f
  end.
Definition is_fd (n : Notification) : bool :=
  match n with
  | frameReceived _ => false
  | sdFrameReceived _ => true
  end.

(** What every delivered frame satisfies. *)
Definition well_formed_note (cfg : Config) (note : Notification) : Prop :=
  0 <= note_id note <= CAN_EFF_MASK /\
  (exists ide rtr, note_flags note = flags_of cfg ide rtr) /\
  List.length (note_payload note) = note_length note.

(** A datagram as a little-endian host receives it: identifier 0x123 with
    the EFF bit, two data bytes. *)
Definition example_datagram : list Z :=
  [0x23; 0x01; 0; 0x80; 2; 0; 0; 0; 0xAA; 0xBB; 0; 0; 0; 0; 0; 0].

(** ** Basic facts about computations *)

Lemma kernel_installs_app a b :
  kernel_installs (a ++ b) = kernel_installs a ++ kernel_installs b.
Proof.
  induction a as [|e a IH]; simpl; [reflexivity|].
  destruct e; simpl; rewrite ?IH; reflexivity.
Qed.

Lemma existsb_app_false {A} (p : A -> bool) a b :
  existsb p a = false -> existsb p (a ++ b) = existsb p b.
Proof. intros H. rewrite existsb_app, H. reflexivity. Qed.

Lemma guarded_from_held a b :
  keeps_mutex a = true -> guarded_from true (a ++ b) = guarded_from true b.
Proof.
  induction a as [|e a IH]; simpl; [reflexivity|].
  destruct e; simpl; intros H; try discriminate; auto.
Qed.

Lemma ScopedLock_guarded {A} (body : M A) s :
  keeps_mutex (events (body s)) = true ->
  guarded (events (ScopedLock body s)) = true.
Proof.
  intros H. unfold ScopedLock, bind, emit, guarded. simpl.
  destruct (outcome (body s)); simpl.
  - rewrite guarded_from_held by exact H. reflexivity.
  - rewrite guarded_from_held by exact H. reflexivity.
  - rewrite <- (app_nil_r (events (body s))).
    rewrite guarded_from_held by exact H. reflexivity.
  - rewrite <- (app_nil_r (events (body s))).
    rewrite guarded_from_held by exact H. reflexivity.
Qed.

(** ** The loop of [applyFilter] *)

Lemma loop_events_facts evs :
  Forall loop_event evs ->
  kernel_installs evs = [] /\ frames_written evs = [] /\ frames_sent evs = [] /\
  keeps_mutex evs = true /\ existsb out_of_bounds evs = false /\
  acquires_mutex evs = false.
Proof.
  induction 1 as [|e evs He _ IH]; simpl; [repeat split; reflexivity|].
  destruct IH as (I1 & I2 & I3 & I4 & I5 & I6).
  destruct e as [ | |f| |v size idx| | | | | | ]; simpl in He; try contradiction;
    simpl; repeat split; try assumption.
  rewrite I5, orb_false_r. apply Nat.leb_gt. exact He.
Qed.

Lemma update_nth_middle {A} (f : A -> A) (pre : list A) (x : A) (post : list A) :
  update_nth (List.length pre) f (pre ++ x :: post) = pre ++ f x :: post.
Proof. induction pre as [|p pre IH]; simpl; [reflexivity|]. rewrite IH. reflexivity. Qed.

Lemma Z_lor_INV_spec_encode (f : Filter.t) :
  (if Filter.invert f
   then mk_can_filter (Z.lor (Filter.id f) CAN_INV_FILTER) (Filter.mask f)
   else mk_can_filter (Filter.id f) (Filter.mask f)) = spec_encode_filter f.
Proof.
  unfold spec_encode_filter. destruct (Filter.invert f); [reflexivity|].
  rewrite Z.lor_0_r. reflexivity.
Qed.

Lemma bind_eq {A B} (m : M A) (k : A -> M B) s a s1 e1 o s2 e2 :
  m s = mkRes (Ret a) s1 e1 ->
  k a s1 = mkRes o s2 e2 ->
  bind m k s = mkRes o s2 (e1 ++ e2).
Proof. intros H1 H2. unfold bind. rewrite H1. simpl. rewrite H2. reflexivity. Qed.

Lemma bind_Throw {A B} (m : M A) (k : A -> M B) s e s1 e1 :
  m s = mkRes (Throw e) s1 e1 -> bind m k s = mkRes (Throw e) s1 e1.
Proof. intros H. unfold bind. rewrite H. reflexivity. Qed.

Lemma bind_Undefined {A B} (m : M A) (k : A -> M B) s s1 e1 :
  m s = mkRes Undefined s1 e1 -> bind m k s = mkRes Undefined s1 e1.
Proof. intros H. unfold bind. rewrite H. reflexivity. Qed.

Lemma subscript_eq v size idx s :
  (idx < size)%nat ->
  subscript v size idx s = mkRes (Ret tt) s [EvSubscript v size idx].
Proof.
  intros H. apply Nat.ltb_lt in H.
  unfold subscript. rewrite H. reflexivity.
Qed.

Lemma subscript_outside v size idx s :
  (size <= idx)%nat ->
  subscript v size idx s = mkRes Undefined s [EvSubscript v size idx].
Proof.
  intros H. apply Nat.ltb_ge in H.
  unfold subscript. rewrite H. reflexivity.
Qed.

Lemma filter_at_eq i s :
  (i < List.length (_filter s))%nat ->
  filter_at i s = mkRes (Ret (nth i (_filter s) zero_Filter)) s
                        [EvRead F_filter; EvSubscript V_filter (List.length (_filter s)) i].
Proof.
  intros H. unfold filter_at.
  eapply bind_eq with (e1 := [EvRead F_filter]); [reflexivity|].
  eapply bind_eq with (e1 := [EvSubscript V_filter (List.length (_filter s)) i]);
    [apply subscript_eq; exact H|reflexivity].
Qed.

Lemma fvec_at_eq fvec i f s :
  (i < List.length fvec)%nat ->
  fvec_at fvec i f s = mkRes (Ret (update_nth i f fvec)) s
                             [EvSubscript V_fvec (List.length fvec) i].
Proof.
  intros H. unfold fvec_at.
  eapply bind_eq with (e1 := [EvSubscript V_fvec (List.length fvec) i]);
    [apply subscript_eq; exact H|reflexivity].
Qed.

Lemma applyFilter_body_step (done : list Filter.t) x todo
      (fdone : list can_filter) z frest s :
  _filter s = done ++ x :: todo ->
  List.length fdone = List.length done ->
  exists evs,
    applyFilter_body (List.length done) (fdone ++ z :: frest) s
    = mkRes (Ret (fdone ++ spec_encode_filter x :: frest)) s evs
    /\ Forall loop_event evs.
Proof.
  intros Hl Hlen.
  assert (Hnth : nth (List.length done) (_filter s) zero_Filter = x).
  { rewrite Hl. apply nth_middle. }
  assert (Hlt : (List.length done < List.length (_filter s))%nat).
  { rewrite Hl, length_app. simpl. lia. }
  assert (Hlt' : forall c, (List.length done < List.length (fdone ++ c :: frest))%nat).
  { intros c. rewrite length_app. simpl. lia. }
  assert (Hup : forall f c, update_nth (List.length done) f (fdone ++ c :: frest)
                            = fdone ++ f c :: frest).
  { intros f c. rewrite <- Hlen. apply update_nth_middle. }
  unfold applyFilter_body.
  rewrite <- (Z_lor_INV_spec_encode x).
  destruct (Filter.invert x) eqn:Hinv; eexists; split.
  - eapply bind_eq; [apply filter_at_eq, Hlt|]. rewrite Hnth.
    eapply bind_eq; [apply fvec_at_eq, Hlt'|]. rewrite Hup.
    eapply bind_eq; [apply filter_at_eq, Hlt|]. rewrite Hnth.
    eapply bind_eq; [apply fvec_at_eq, Hlt'|]. rewrite Hup.
    eapply bind_eq; [apply filter_at_eq, Hlt|]. rewrite Hnth, Hinv.
    rewrite fvec_at_eq, Hup by apply Hlt'. cbn [can_id can_mask]. reflexivity.
  - repeat constructor; simpl; auto.
  - eapply bind_eq; [apply filter_at_eq, Hlt|]. rewrite Hnth.
    eapply bind_eq; [apply fvec_at_eq, Hlt'|]. rewrite Hup.
    eapply bind_eq; [apply filter_at_eq, Hlt|]. rewrite Hnth.
    eapply bind_eq; [apply fvec_at_eq, Hlt'|]. rewrite Hup.
    eapply bind_eq; [apply filter_at_eq, Hlt|]. rewrite Hnth, Hinv.
    cbn [can_id can_mask]. reflexivity.
  - repeat constructor; simpl; auto.
Qed.

Lemma applyFilter_loop_eq (todo done : list Filter.t) (fdone : list can_filter) s :
  _filter s = done ++ todo ->
  List.length fdone = List.length done ->
  exists evs,
    applyFilter_loop (List.length todo) (List.length done)
                     (fdone ++ repeat zero_can_filter (List.length todo)) s
    = mkRes (Ret (fdone ++ map spec_encode_filter todo)) s evs
    /\ Forall loop_event evs.
Proof.
  revert done fdone.
  induction todo as [|x todo IH]; intros done fdone Hl Hlen.
  - simpl. exists [EvRead F_filter]. split; [reflexivity|].
    repeat constructor.
  - destruct (applyFilter_body_step done x todo fdone zero_can_filter
                (repeat zero_can_filter (List.length todo)) s Hl Hlen)
      as (e1 & Hbody & He1).
    destruct (IH (done ++ [x]) (fdone ++ [spec_encode_filter x])) as (e2 & Hrest & He2).
    { rewrite <- app_assoc. exact Hl. }
    { rewrite !length_app, Hlen. reflexivity. }
    rewrite length_app, Nat.add_1_r, <- !app_assoc in Hrest. simpl in Hrest.
    exists (EvRead F_filter :: e1 ++ e2). split.
    + cbn [applyFilter_loop List.length repeat map].
      eapply bind_eq with (e1 := [EvRead F_filter]); [reflexivity|].
      eapply bind_eq; [exact Hbody|exact Hrest].
    + constructor; [exact I|]. apply Forall_app. split; assumption.
Qed.

Lemma ScopedLock_eq {A} (body : M A) s o s' evs :
  body s = mkRes o s' evs ->
  ScopedLock body s =
  mkRes o s' (EvLock :: evs ++ match o with
                               | Undefined | Blocked => []
                               | _ => [EvUnlock]
                               end).
Proof.
  intros H. unfold ScopedLock.
  rewrite (@bind_eq _ _ (emit EvLock) (fun _ => body) s tt s [EvLock] o s' evs
             eq_refl H).
  destruct o; simpl; rewrite ?app_nil_r; reflexivity.
Qed.

(** ** Filter operations in closed form *)

Section FilterFacts.

Variable cfg : Config.
Variable host : Host.
Hypothesis have_socketcan : MACCHINA_HAVE_SOCKETCAN cfg = true.

Lemma applyFilter_eq s :
  exists evs,
    Forall loop_event evs /\
    applyFilter cfg host s =
    let fvec := map spec_encode_filter (_filter s) in
    match _filter s with
    | [] => mkRes Undefined s (evs ++ [EvSubscript V_fvec 0 0])
    | _ :: _ =>
        match setsockopt_CAN_RAW_FILTER host (_socket s) fvec with
        | None =>
            mkRes (Ret tt) (with_socket (with_raw_filter fvec (_socket s)) s)
                  (evs ++ install_tail fvec 0)
        | Some errno =>
            mkRes (Throw (IOException "Failed to set CAN frame filter" errno)) s
                  (evs ++ install_tail fvec (-1))
        end
    end.
Proof.
  destruct (applyFilter_loop_eq (_filter s) [] [] s eq_refl eq_refl)
    as (e1 & Hloop & He1).
  simpl in Hloop.
  exists (EvRead F_filter :: e1). split; [constructor; [exact I|exact He1]|].
  assert (Hhead : forall o s2 e2,
             (subscript V_fvec (List.length (map spec_encode_filter (_filter s))) 0 ;;;
              r <- setsockopt_filter host (map spec_encode_filter (_filter s)) ;;
              if fst r =? -1
              then throw (IOException "Failed to set CAN frame filter" (snd r))
              else ret tt) s = mkRes o s2 e2 ->
             applyFilter cfg host s = mkRes o s2 ((EvRead F_filter :: e1) ++ e2)).
  { intros o s2 e2 H. unfold applyFilter. rewrite have_socketcan.
    eapply bind_eq with (e1 := [EvRead F_filter]); [reflexivity|].
    eapply bind_eq; [exact Hloop|exact H]. }
  cbv zeta. destruct (_filter s) as [|x l] eqn:Hl.
  - apply Hhead. apply bind_Undefined. apply subscript_outside. apply Nat.le_refl.
  - unfold install_tail.
    destruct (setsockopt_CAN_RAW_FILTER host (_socket s) (map spec_encode_filter (x :: l)))
      as [errno|] eqn:Hk; apply Hhead.
    + eapply bind_eq with (e1 := [EvSubscript V_fvec _ 0]);
        [apply subscript_eq; cbn; lia|].
      eapply bind_eq with (a := (-1, errno))
                          (e1 := [EvSetsockoptFilter (map spec_encode_filter (x :: l)) (-1)]).
      * unfold setsockopt_filter. rewrite Hk. reflexivity.
      * reflexivity.
    + eapply bind_eq with (e1 := [EvSubscript V_fvec _ 0]);
        [apply subscript_eq; cbn; lia|].
      eapply bind_eq with (a := (0, 0))
                          (e1 := [EvSetsockoptFilter (map spec_encode_filter (x :: l)) 0]).
      * unfold setsockopt_filter. rewrite Hk. reflexivity.
      * reflexivity.
Qed.

End FilterFacts.

Section MutationFacts.

Variable cfg : Config.
Variable host : Host.
Hypothesis have_socketcan : MACCHINA_HAVE_SOCKETCAN cfg = true.

Lemma write_apply_eq {A} (v : A) (upd : CANEndpointImpl -> CANEndpointImpl) l' s :
  upd s = with_filter l' s ->
  exists evs,
    Forall loop_event evs /\
    (write F_filter upd ;;; applyFilter cfg host ;;; ret v) s =
    let fvec := map spec_encode_filter l' in
    match l' with
    | [] =>
        mkRes Undefined (with_filter l' s)
              (EvWrite F_filter :: evs ++ [EvSubscript V_fvec 0 0])
    | _ :: _ =>
        match setsockopt_CAN_RAW_FILTER host (_socket s) fvec with
        | None =>
            mkRes (Ret v)
                  (with_socket (with_raw_filter fvec (_socket s)) (with_filter l' s))
                  (EvWrite F_filter :: evs ++ install_tail fvec 0)
        | Some errno =>
            mkRes (Throw (IOException "Failed to set CAN frame filter" errno))
                  (with_filter l' s)
                  (EvWrite F_filter :: evs ++ install_tail fvec (-1))
        end
    end.
Proof.
  intros Hupd.
  destruct (@applyFilter_eq cfg host have_socketcan (with_filter l' s)) as (evs & Hev & Happ).
  exists evs. split; [exact Hev|].
  cbv zeta in *. cbn [_filter _socket with_filter] in Happ.
  assert (Hw : write F_filter upd s = mkRes (Ret tt) (with_filter l' s) [EvWrite F_filter])
    by (unfold write; rewrite Hupd; reflexivity).
  destruct l' as [|x l'].
  - eapply bind_eq with (e1 := [EvWrite F_filter]); [exact Hw|].
    apply bind_Undefined. exact Happ.
  - destruct (setsockopt_CAN_RAW_FILTER host (_socket s) (map spec_encode_filter (x :: l'))).
    + eapply bind_eq with (e1 := [EvWrite F_filter]); [exact Hw|].
      apply bind_Throw. exact Happ.
    + eapply bind_eq with (e1 := [EvWrite F_filter]); [exact Hw|].
      rewrite <- (app_nil_r (evs ++ _)).
      eapply bind_eq; [exact Happ|reflexivity].
Qed.

Lemma setFilter_eq l s :
  exists evs, Forall loop_event evs /\
              setFilter cfg host l s = mutation_result host tt l s [] evs.
Proof.
  destruct (@write_apply_eq _ tt (with_filter l) l s eq_refl) as (evs & Hev & H).
  exists evs. split; [exact Hev|].
  unfold setFilter, mutation_result. cbv zeta in *.
  assert (Hsame : (write F_filter (with_filter l) ;;; applyFilter cfg host) s
                  = (write F_filter (with_filter l) ;;; applyFilter cfg host ;;; ret tt) s).
  { unfold bind. simpl.
    destruct (applyFilter cfg host (with_filter l s)) as [[[]|e| |] s' ev']; simpl;
      rewrite ?app_nil_r; reflexivity. }
  destruct l as [|x l].
  - rewrite (ScopedLock_eq _ s (eq_trans Hsame H)). reflexivity.
  - destruct (setsockopt_CAN_RAW_FILTER host (_socket s) (map spec_encode_filter (x :: l))).
    + rewrite (ScopedLock_eq _ s (eq_trans Hsame H)). reflexivity.
    + rewrite (ScopedLock_eq _ s (eq_trans Hsame H)). reflexivity.
Qed.

(** A body that reads the list, then replaces it by [l'] and installs it. *)
Lemma locked_mutation_eq {A} (v : A) (body : M A) (k : M A) l' s evs :
  body s = bind (read F_filter _filter) (fun _ => k) s ->
  k s =
  (let fvec := map spec_encode_filter l' in
   match l' with
   | [] =>
       mkRes Undefined (with_filter l' s)
             (EvWrite F_filter :: evs ++ [EvSubscript V_fvec 0 0])
   | _ :: _ =>
       match setsockopt_CAN_RAW_FILTER host (_socket s) fvec with
       | None =>
           mkRes (Ret v)
                 (with_socket (with_raw_filter fvec (_socket s)) (with_filter l' s))
                 (EvWrite F_filter :: evs ++ install_tail fvec 0)
       | Some errno =>
           mkRes (Throw (IOException "Failed to set CAN frame filter" errno))
                 (with_filter l' s)
                 (EvWrite F_filter :: evs ++ install_tail fvec (-1))
       end
   end) ->
  ScopedLock body s = mutation_result host v l' s [EvRead F_filter] evs.
Proof.
  intros Hbody Hk. unfold mutation_result. cbv zeta in *.
  destruct l' as [|x l'].
  - erewrite ScopedLock_eq.
    2:{ rewrite Hbody.
        eapply bind_eq with (e1 := [EvRead F_filter]); [reflexivity|exact Hk]. }
    reflexivity.
  - destruct (setsockopt_CAN_RAW_FILTER host (_socket s) (map spec_encode_filter (x :: l'))).
    + erewrite ScopedLock_eq.
      2:{ rewrite Hbody.
          eapply bind_eq with (e1 := [EvRead F_filter]); [reflexivity|exact Hk]. }
      reflexivity.
    + erewrite ScopedLock_eq.
      2:{ rewrite Hbody.
          eapply bind_eq with (e1 := [EvRead F_filter]); [reflexivity|exact Hk]. }
      reflexivity.
Qed.

Lemma addFilter_eq filter s :
  exists evs,
    Forall loop_event evs /\
    addFilter cfg host filter s =
    if find_equal filter (_filter s)
    then mkRes (Ret false) s [EvLock; EvRead F_filter; EvUnlock]
    else mutation_result host true (_filter s ++ [filter]) s [EvRead F_filter] evs.
Proof.
  destruct (@write_apply_eq _ true (fun s => with_filter (_filter s ++ [filter]) s)
              (_filter s ++ [filter]) s eq_refl) as (evs & Hev & H).
  exists evs. split; [exact Hev|].
  unfold addFilter.
  destruct (find_equal filter (_filter s)) eqn:Hfind.
  - erewrite ScopedLock_eq.
    2:{ eapply bind_eq with (e1 := [EvRead F_filter]); [reflexivity|].
        rewrite Hfind. reflexivity. }
    reflexivity.
  - eapply locked_mutation_eq; [|exact H].
    unfold bind, read. cbn. rewrite Hfind. reflexivity.
Qed.

Lemma removeFilter_eq filter s :
  exists evs,
    Forall loop_event evs /\
    removeFilter cfg host filter s =
    match erase_first_equal filter (_filter s) with
    | Some l' => mutation_result host true l' s [EvRead F_filter] evs
    | None => mkRes (Ret false) s [EvLock; EvRead F_filter; EvUnlock]
    end.
Proof.
  unfold removeFilter.
  destruct (erase_first_equal filter (_filter s)) as [l'|] eqn:Herase.
  - destruct (@write_apply_eq _ true (with_filter l') l' s eq_refl) as (evs & Hev & H).
    exists evs. split; [exact Hev|].
    eapply locked_mutation_eq; [|exact H].
    unfold bind, read. cbn. rewrite Herase. reflexivity.
  - exists []. split; [constructor|].
    erewrite ScopedLock_eq.
    2:{ eapply bind_eq with (e1 := [EvRead F_filter]); [reflexivity|].
        rewrite Herase. reflexivity. }
    reflexivity.
Qed.

End MutationFacts.

(** ** Facts about mutations *)

Lemma Filter_eq_iff f g : Filter_eq f g = true <-> same_id_mask f g.
Proof.
  unfold Filter_eq, same_id_mask. rewrite andb_true_iff, !Z.eqb_eq.
  split; intros [H1 H2]; split; congruence.
Qed.

Lemma find_equal_true_iff f l :
  find_equal f l = true <-> Exists (same_id_mask f) l.
Proof.
  induction l as [|x l IH]; simpl.
  - split; [discriminate|]. intros H; inversion H.
  - destruct (Filter_eq f x) eqn:E.
    + split; [|reflexivity]. intros _. left. apply Filter_eq_iff. exact E.
    + rewrite IH. split; intros H.
      * right. exact H.
      * inversion H as [? ? Hx|]; subst; [|assumption].
        apply Filter_eq_iff in Hx. congruence.
Qed.

Lemma erase_first_equal_None_iff f l :
  erase_first_equal f l = None <-> Forall (fun g => ~ same_id_mask f g) l.
Proof.
  induction l as [|x l IH]; simpl.
  - split; [constructor|reflexivity].
  - destruct (Filter_eq f x) eqn:E.
    + split; [discriminate|]. intros H. inversion H as [|? ? Hx _]; subst.
      exfalso. apply Hx. apply Filter_eq_iff. exact E.
    + destruct (erase_first_equal f l) as [l'|].
      * split; [discriminate|]. intros H. inversion H as [|? ? _ Hl]; subst.
        apply IH in Hl. discriminate.
      * split; [|reflexivity]. intros _. constructor.
        -- intros Hx. apply Filter_eq_iff in Hx. congruence.
        -- apply IH. reflexivity.
Qed.

(** What [erase_first_equal] removes: the first element equal to [f]. *)
Lemma erase_first_equal_Some f l l' :
  erase_first_equal f l = Some l' ->
  exists pre x post,
    l = pre ++ x :: post /\ l' = pre ++ post /\ same_id_mask f x /\
    Forall (fun g => ~ same_id_mask f g) pre.
Proof.
  revert l'. induction l as [|y l IH]; simpl; intros l' H; [discriminate|].
  destruct (Filter_eq f y) eqn:E.
  - inversion H; subst. exists [], y, l'. repeat split; try constructor.
    + apply Filter_eq_iff in E. apply E.
    + apply Filter_eq_iff in E. apply E.
  - destruct (erase_first_equal f l) as [l0|]; [|discriminate].
    inversion H; subst.
    destruct (IH l0 eq_refl) as (pre & x & post & -> & -> & Hx & Hpre).
    exists (y :: pre), x, post. repeat split; try apply Hx.
    constructor; [|exact Hpre].
    intros Hy. apply Filter_eq_iff in Hy. congruence.
Qed.

Lemma find_equal_false_iff f l :
  find_equal f l = false <-> Forall (fun g => ~ same_id_mask f g) l.
Proof.
  rewrite <- not_true_iff_false, find_equal_true_iff.
  rewrite <- Forall_Exists_neg. reflexivity.
Qed.

Lemma erase_first_equal_middle f pre x post :
  Forall (fun g => ~ same_id_mask f g) pre -> same_id_mask f x ->
  erase_first_equal f (pre ++ x :: post) = Some (pre ++ post).
Proof.
  intros Hpre Hx. induction Hpre as [|y pre Hy _ IH]; simpl.
  - apply Filter_eq_iff in Hx. rewrite Hx. reflexivity.
  - destruct (Filter_eq f y) eqn:E.
    + exfalso. apply Hy. apply Filter_eq_iff. exact E.
    + rewrite IH. reflexivity.
Qed.

Lemma mutation_result_filter {A} host (v : A) l' s pre evs :
  _filter (final (mutation_result host v l' s pre evs)) = l'.
Proof.
  unfold mutation_result. cbv zeta. destruct l'; [reflexivity|].
  destruct (setsockopt_CAN_RAW_FILTER host (_socket s) _); reflexivity.
Qed.

Lemma mutation_result_installs {A} host (v : A) l' s pre evs :
  l' <> [] ->
  Forall loop_event pre -> Forall loop_event evs ->
  _filter (final (mutation_result host v l' s pre evs)) = l' /\
  installs_current_list (mutation_result host v l' s pre evs).
Proof.
  intros Hne Hpre Hevs. destruct l' as [|x l']; [contradiction|].
  destruct (loop_events_facts Hpre) as (P1 & _).
  destruct (loop_events_facts Hevs) as (E1 & _).
  unfold installs_current_list, mutation_result. cbv zeta.
  destruct (setsockopt_CAN_RAW_FILTER host (_socket s) _);
    cbn [outcome final events _filter _socket with_socket with_filter
         with_raw_filter raw_filter kernel_installs];
    rewrite !kernel_installs_app, P1; cbn [kernel_installs app];
    rewrite kernel_installs_app, E1; simpl; repeat split; intros; discriminate.
Qed.

(** With an empty new list the operation stops at [&fvec[0]]: the list is
    replaced, the kernel is not called and the socket is as it was. *)
Lemma mutation_result_empty {A} host (v : A) s pre evs :
  Forall loop_event pre -> Forall loop_event evs ->
  let r := mutation_result host v [] s pre evs in
  outcome r = Undefined /\ _filter (final r) = [] /\
  kernel_installs (events r) = [] /\ _socket (final r) = _socket s.
Proof.
  intros Hpre Hevs.
  destruct (loop_events_facts Hpre) as (P1 & _).
  destruct (loop_events_facts Hevs) as (E1 & _).
  unfold mutation_result. cbv zeta. cbn [outcome final events].
  split; [reflexivity|]. split; [reflexivity|]. split; [|destruct s; reflexivity].
  rewrite app_nil_r. cbn [kernel_installs].
  rewrite kernel_installs_app, P1. cbn [kernel_installs app].
  rewrite kernel_installs_app, E1. reflexivity.
Qed.

(** ** Refusals of [addFilter] and [removeFilter] *)

(** C2. [addFilter f] returns false and changes nothing (neither the filter
    list nor anything else of the endpoint, and no install call is made)
    when the list holds a filter with the identifier and mask of [f];
    [removeFilter f] returns false and changes nothing when the list holds
    no such filter.  In both the invert flag of [f] and of the list's
    elements plays no part. *)
Theorem addFilter_removeFilter_refuse (cfg : Config) (host : Host)
        (f : Filter.t) (s : CANEndpointImpl) :
  (Exists (same_id_mask f) (_filter s) ->
   let r := addFilter cfg host f s in
   outcome r = Ret false /\ final r = s /\ kernel_installs (events r) = []) /\
  (Forall (fun g => ~ same_id_mask f g) (_filter s) ->
   let r := removeFilter cfg host f s in
   outcome r = Ret false /\ final r = s /\ kernel_installs (events r) = []).
Proof.
  split; intros H r; subst r.
  - apply find_equal_true_iff in H.
    unfold addFilter. erewrite ScopedLock_eq.
    2:{ eapply bind_eq with (e1 := [EvRead F_filter]); [reflexivity|].
        rewrite H. reflexivity. }
    repeat split.
  - apply erase_first_equal_None_iff in H.
    unfold removeFilter. erewrite ScopedLock_eq.
    2:{ eapply bind_eq with (e1 := [EvRead F_filter]); [reflexivity|].
        rewrite H. reflexivity. }
    repeat split.
Qed.

Lemma addFilter_removeFilter_refuse_witness :
  (outcome (addFilter example_cfg host_accepting example_filter_inverted
                      example_endpoint_filtering) = Ret false /\
   final (addFilter example_cfg host_accepting example_filter_inverted
                    example_endpoint_filtering) = example_endpoint_filtering) /\
  (outcome (removeFilter example_cfg host_accepting example_filter_other
                         example_endpoint_filtering) = Ret false /\
   final (removeFilter example_cfg host_accepting example_filter_other
                       example_endpoint_filtering) = example_endpoint_filtering).
Proof.
  destruct (addFilter_removeFilter_refuse example_cfg host_accepting
              example_filter_inverted example_endpoint_filtering) as [Hadd _].
  destruct (addFilter_removeFilter_refuse example_cfg host_accepting
              example_filter_other example_endpoint_filtering) as [_ Hrem].
  split.
  - destruct Hadd as (H1 & H2 & _).
    + left. split; reflexivity.
    + split; assumption.
  - destruct Hrem as (H1 & H2 & _).
    + repeat constructor; intros [H _]; discriminate H.
    + split; assumption.
Defined.

(** ** Installing the filter list *)

(** C3, where the code departs from it.  In a build with SocketCAN,
    installing an empty list stops at [&fvec[0]], a subscript outside the
    vector: [setFilter] with an empty argument, and [removeFilter] of the
    only filter held, replace the list but make no install call, and the
    kernel's filter set stays what it was.  Every other operation that
    changes the list does as the claim says: it makes exactly one install
    call, whose array is the encoding
    [can_id = id | (invert ? CAN_INV_FILTER : 0)], [can_mask = mask] of
    every element of the list the endpoint holds afterwards, in order, and
    when the operation returns the kernel's filter set is that array,
    whatever was installed before. *)
Theorem mutation_installs_current_list (cfg : Config) (host : Host)
        (s : CANEndpointImpl) :
  MACCHINA_HAVE_SOCKETCAN cfg = true ->
  (let r := setFilter cfg host [] s in
   outcome r = Undefined /\ _filter (final r) = [] /\
   kernel_installs (events r) = [] /\ _socket (final r) = _socket s) /\
  (forall f x,
      _filter s = [x] -> same_id_mask f x ->
      let r := removeFilter cfg host f s in
      outcome r = Undefined /\ _filter (final r) = [] /\
      kernel_installs (events r) = [] /\ _socket (final r) = _socket s) /\
  (forall l,
      l <> [] ->
      let r := setFilter cfg host l s in
      _filter (final r) = l /\ installs_current_list r) /\
  (forall f,
      let r := addFilter cfg host f s in
      outcome r <> Ret false ->
      _filter (final r) = _filter s ++ [f] /\ installs_current_list r) /\
  (forall f,
      let r := removeFilter cfg host f s in
      outcome r <> Ret false -> _filter (final r) <> [] ->
      (exists pre x post,
          _filter s = pre ++ x :: post /\ same_id_mask f x /\
          Forall (fun g => ~ same_id_mask f g) pre /\
          _filter (final r) = pre ++ post) /\
      installs_current_list r).
Proof.
  intros Hcfg. split; [|split; [|split; [|split]]].
  - intros r. subst r.
    destruct (@setFilter_eq cfg host Hcfg [] s) as (evs & Hev & ->).
    apply mutation_result_empty; [constructor|exact Hev].
  - intros f x Hl Hx r. subst r.
    destruct (@removeFilter_eq cfg host Hcfg f s) as (evs & Hev & ->).
    rewrite Hl. change [x] with ([] ++ x :: []).
    rewrite (@erase_first_equal_middle f [] x [] (Forall_nil _) Hx).
    apply (@mutation_result_empty bool host true s [EvRead F_filter] evs);
      [repeat constructor|exact Hev].
  - intros l Hne r. subst r.
    destruct (@setFilter_eq cfg host Hcfg l s) as (evs & Hev & ->).
    apply mutation_result_installs; [exact Hne|constructor|exact Hev].
  - intros f r Hr. subst r.
    destruct (@addFilter_eq cfg host Hcfg f s) as (evs & Hev & Heq).
    rewrite Heq in *.
    destruct (find_equal f (_filter s)); [exfalso; apply Hr; reflexivity|].
    apply mutation_result_installs; [|repeat constructor|exact Hev].
    intros H. apply app_eq_nil in H. destruct H as [_ H]. discriminate H.
  - intros f r Hr Hne. subst r.
    destruct (@removeFilter_eq cfg host Hcfg f s) as (evs & Hev & Heq).
    rewrite Heq in *.
    destruct (erase_first_equal f (_filter s)) as [l'|] eqn:Herase;
      [|exfalso; apply Hr; reflexivity].
    rewrite mutation_result_filter in Hne.
    destruct (@mutation_result_installs bool host true l' s [EvRead F_filter] evs)
      as [Hl Hinst]; [exact Hne|repeat constructor|exact Hev|].
    split; [|exact Hinst].
    destruct (erase_first_equal_Some _ _ Herase) as (pre & x & post & E1 & E2 & Hx & Hpre).
    exists pre, x, post. rewrite Hl. auto.
Qed.

Lemma mutation_installs_current_list_witness :
  (outcome (removeFilter example_cfg host_accepting example_filter_inverted
                         example_endpoint_filtering) = Undefined /\
   kernel_installs (events (removeFilter example_cfg host_accepting
                                         example_filter_inverted
                                         example_endpoint_filtering)) = [] /\
   raw_filter (_socket (final (removeFilter example_cfg host_accepting
                                 example_filter_inverted
                                 example_endpoint_filtering)))
   = [mk_can_filter 0 0]) /\
  raw_filter (_socket (final (setFilter example_cfg host_accepting
                                [example_filter; example_filter_other]
                                example_endpoint)))
  = [mk_can_filter 0x100 0x7FF; mk_can_filter 0x20000001 0x1] /\
  kernel_installs (events (addFilter example_cfg host_accepting example_filter_other
                                     example_endpoint_filtering))
  = [[mk_can_filter 0x100 0x7FF; mk_can_filter 0x20000001 0x1]] /\
  kernel_installs (events (removeFilter example_cfg host_accepting example_filter
                                        example_endpoint_two))
  = [[mk_can_filter 0x20000001 0x1]].
Proof.
  destruct (@mutation_installs_current_list example_cfg host_accepting
              example_endpoint eq_refl) as (_ & _ & Hset & _ & _).
  destruct (@mutation_installs_current_list example_cfg host_accepting
              example_endpoint_filtering eq_refl) as (_ & Hlast & _ & Hadd & _).
  destruct (@mutation_installs_current_list example_cfg host_accepting
              example_endpoint_two eq_refl) as (_ & _ & _ & _ & Hrem).
  split; [|split; [|split]].
  - destruct (Hlast example_filter_inverted example_filter eq_refl)
      as (Ho & _ & Hk & Hs); [split; reflexivity|].
    split; [exact Ho|]. split; [exact Hk|]. rewrite Hs. reflexivity.
  - destruct (Hset [example_filter; example_filter_other]) as (Hl & _ & Hk);
      [discriminate|].
    rewrite (Hk tt eq_refl), Hl. reflexivity.
  - destruct (Hadd example_filter_other) as (Hl & Hk & _); [discriminate|].
    rewrite Hk, Hl. reflexivity.
  - destruct (Hrem example_filter) as ((pre & x & post & _ & _ & _ & Hl) & Hk & _);
      [discriminate|discriminate|].
    rewrite Hk. reflexivity.
Defined.

Lemma mutation_result_rejected {A} host (v : A) l' s pre evs errno :
  l' <> [] ->
  setsockopt_CAN_RAW_FILTER host (_socket s) (map spec_encode_filter l') = Some errno ->
  let r := mutation_result host v l' s pre evs in
  outcome r = Throw (IOException "Failed to set CAN frame filter" errno) /\
  _filter (final r) = l' /\ _socket (final r) = _socket s.
Proof.
  intros Hne H. destruct l' as [|x l']; [contradiction|].
  unfold mutation_result. cbv zeta. rewrite H. repeat split.
Qed.

(** ** Rejected installs *)

(** C4. In a build with SocketCAN, when the kernel turns down the array
    with error code [errno], each of [setFilter], [addFilter] (of a filter
    not yet present) and [removeFilter] (of a filter present) throws
    [IOException] carrying [errno]; the endpoint then holds the new list
    (the argument of [setFilter]; the old list with the filter appended;
    the old list without the first equal filter), while the kernel's filter
    set is the one installed before the call.  The new list is not empty
    whenever the kernel is asked: with an empty new list no install call is
    made, so there is nothing for the kernel to turn down. *)
Theorem rejected_install_keeps_new_list (cfg : Config) (host : Host)
        (s : CANEndpointImpl) (errno : Z) :
  MACCHINA_HAVE_SOCKETCAN cfg = true ->
  (forall l,
      l <> [] ->
      setsockopt_CAN_RAW_FILTER host (_socket s) (map spec_encode_filter l) = Some errno ->
      let r := setFilter cfg host l s in
      outcome r = Throw (IOException "Failed to set CAN frame filter" errno) /\
      _filter (final r) = l /\ _socket (final r) = _socket s) /\
  (forall f,
      Forall (fun g => ~ same_id_mask f g) (_filter s) ->
      setsockopt_CAN_RAW_FILTER host (_socket s) (map spec_encode_filter (_filter s ++ [f]))
      = Some errno ->
      let r := addFilter cfg host f s in
      outcome r = Throw (IOException "Failed to set CAN frame filter" errno) /\
      _filter (final r) = _filter s ++ [f] /\ _socket (final r) = _socket s) /\
  (forall f pre x post,
      _filter s = pre ++ x :: post ->
      Forall (fun g => ~ same_id_mask f g) pre -> same_id_mask f x ->
      pre ++ post <> [] ->
      setsockopt_CAN_RAW_FILTER host (_socket s) (map spec_encode_filter (pre ++ post))
      = Some errno ->
      let r := removeFilter cfg host f s in
      outcome r = Throw (IOException "Failed to set CAN frame filter" errno) /\
      _filter (final r) = pre ++ post /\ _socket (final r) = _socket s) /\
  kernel_installs (events (setFilter cfg host [] s)) = [] /\
  (forall f x,
      _filter s = [x] -> same_id_mask f x ->
      kernel_installs (events (removeFilter cfg host f s)) = []).
Proof.
  intros Hcfg. split; [|split; [|split; [|split]]].
  - intros l Hne Hk r. subst r.
    destruct (@setFilter_eq cfg host Hcfg l s) as (evs & _ & ->).
    apply mutation_result_rejected; assumption.
  - intros f Hnew Hk r. subst r.
    destruct (@addFilter_eq cfg host Hcfg f s) as (evs & _ & ->).
    apply find_equal_false_iff in Hnew. rewrite Hnew.
    apply mutation_result_rejected; [|exact Hk].
    intros H. apply app_eq_nil in H. destruct H as [_ H]. discriminate H.
  - intros f pre x post Hl Hpre Hx Hne Hk r. subst r.
    destruct (@removeFilter_eq cfg host Hcfg f s) as (evs & _ & ->).
    rewrite Hl, (erase_first_equal_middle post Hpre Hx).
    apply mutation_result_rejected; assumption.
  - destruct (@setFilter_eq cfg host Hcfg [] s) as (evs & Hev & ->).
    apply mutation_result_empty; [constructor|exact Hev].
  - intros f x Hl Hx.
    destruct (@removeFilter_eq cfg host Hcfg f s) as (evs & Hev & ->).
    rewrite Hl. change [x] with ([] ++ x :: []).
    rewrite (@erase_first_equal_middle f [] x [] (Forall_nil _) Hx).
    apply (@mutation_result_empty bool host true s [EvRead F_filter] evs);
      [repeat constructor|exact Hev].
Qed.

Lemma rejected_install_keeps_new_list_witness :
  (outcome (setFilter example_cfg host_rejecting [example_filter_other]
                      example_endpoint_filtering)
   = Throw (IOException "Failed to set CAN frame filter" 22) /\
   _filter (final (setFilter example_cfg host_rejecting [example_filter_other]
                             example_endpoint_filtering))
   = [example_filter_other]) /\
  (outcome (addFilter example_cfg host_rejecting example_filter_other
                      example_endpoint_filtering)
   = Throw (IOException "Failed to set CAN frame filter" 22) /\
   _filter (final (addFilter example_cfg host_rejecting example_filter_other
                             example_endpoint_filtering))
   = [example_filter; example_filter_other]) /\
  (outcome (removeFilter example_cfg host_rejecting example_filter_inverted
                         example_endpoint_two)
   = Throw (IOException "Failed to set CAN frame filter" 22) /\
   _filter (final (removeFilter example_cfg host_rejecting example_filter_inverted
                                example_endpoint_two))
   = [example_filter_other] /\
   raw_filter (_socket (final (removeFilter example_cfg host_rejecting
                                 example_filter_inverted example_endpoint_two)))
   = [mk_can_filter 0 0]).
Proof.
  destruct (@rejected_install_keeps_new_list example_cfg host_rejecting
              example_endpoint_filtering 22 eq_refl) as (Hset & Hadd & _).
  destruct (@rejected_install_keeps_new_list example_cfg host_rejecting
              example_endpoint_two 22 eq_refl) as (_ & _ & Hrem & _).
  split; [|split].
  - destruct (Hset [example_filter_other]) as (H1 & H2 & _);
      [discriminate|reflexivity|].
    split; assumption.
  - destruct (Hadd example_filter_other) as (H1 & H2 & _).
    + repeat constructor. intros [H _]. discriminate H.
    + reflexivity.
    + split; assumption.
  - destruct (Hrem example_filter_inverted [] example_filter [example_filter_other])
      as (H1 & H2 & H3).
    + reflexivity.
    + constructor.
    + split; reflexivity.
    + discriminate.
    + reflexivity.
    + split; [exact H1|]. split; [exact H2|]. rewrite H3. reflexivity.
Defined.

(** ** Subscripts of the install path *)

Lemma existsb_out_of_bounds_app a b :
  existsb out_of_bounds a = false ->
  existsb out_of_bounds (a ++ b) = existsb out_of_bounds b.
Proof. apply existsb_app_false. Qed.

(** Every subscript of a mutation is in bounds except, when the new list is
    empty, the one in [&fvec[0]]. *)
Lemma mutation_result_subscripts {A} host (v : A) l' s pre evs :
  Forall loop_event pre -> Forall loop_event evs ->
  let r := mutation_result host v l' s pre evs in
  In (EvSubscript V_fvec (List.length l') 0) (events r) /\
  subscripts_in_bounds (events r) = negb (List.length l' =? 0)%nat.
Proof.
  intros Hpre Hevs.
  destruct (loop_events_facts Hpre) as (_ & _ & _ & _ & P5 & _).
  destruct (loop_events_facts Hevs) as (_ & _ & _ & _ & E5 & _).
  unfold mutation_result, subscripts_in_bounds, install_tail. cbv zeta.
  destruct l' as [|x l'].
  - cbn [events]. rewrite app_nil_r. split.
    + right. apply in_or_app. right. right. apply in_or_app. right.
      left. reflexivity.
    + cbn [existsb out_of_bounds orb].
      rewrite existsb_out_of_bounds_app by exact P5.
      cbn [existsb out_of_bounds orb].
      rewrite existsb_out_of_bounds_app by exact E5.
      reflexivity.
  - rewrite length_map.
    destruct (setsockopt_CAN_RAW_FILTER host (_socket s) _); cbn [events]; split.
    1,3: right; apply in_or_app; left; apply in_or_app; right; right;
         apply in_or_app; right; left; reflexivity.
    all: cbn [existsb out_of_bounds orb];
      rewrite <- app_assoc, existsb_out_of_bounds_app by exact P5;
      cbn [existsb out_of_bounds orb app];
      rewrite <- app_assoc, existsb_out_of_bounds_app by exact E5;
      reflexivity.
Qed.

(** C8. In a build with SocketCAN, installing an empty list evaluates
    [fvec[0]] on a vector of size 0: [setFilter] with an empty list, and
    [removeFilter] of the only filter held, both contain a subscript that
    is out of bounds. *)
Theorem empty_install_subscript_out_of_bounds (cfg : Config) (host : Host)
        (s : CANEndpointImpl) :
  MACCHINA_HAVE_SOCKETCAN cfg = true ->
  (let r := setFilter cfg host [] s in
   In (EvSubscript V_fvec 0 0) (events r) /\
   subscripts_in_bounds (events r) = false) /\
  (forall f x,
      _filter s = [x] -> same_id_mask f x ->
      let r := removeFilter cfg host f s in
      In (EvSubscript V_fvec 0 0) (events r) /\
      subscripts_in_bounds (events r) = false).
Proof.
  intros Hcfg. split.
  - intros r. subst r.
    destruct (@setFilter_eq cfg host Hcfg [] s) as (evs & Hev & ->).
    apply (@mutation_result_subscripts unit host tt [] s [] evs); [constructor|exact Hev].
  - intros f x Hl Hx r. subst r.
    destruct (@removeFilter_eq cfg host Hcfg f s) as (evs & Hev & ->).
    rewrite Hl. change [x] with ([] ++ x :: []).
    rewrite (@erase_first_equal_middle f [] x [] (Forall_nil _) Hx).
    apply (@mutation_result_subscripts bool host true [] s [EvRead F_filter] evs);
      [repeat constructor|exact Hev].
Qed.

Lemma empty_install_subscript_out_of_bounds_witness :
  subscripts_in_bounds
    (events (setFilter example_cfg host_accepting [] example_endpoint)) = false /\
  subscripts_in_bounds
    (events (removeFilter example_cfg host_accepting example_filter_inverted
                          example_endpoint_filtering)) = false.
Proof.
  split.
  - destruct (@empty_install_subscript_out_of_bounds example_cfg host_accepting
                example_endpoint eq_refl) as ((_ & H) & _).
    exact H.
  - destruct (@empty_install_subscript_out_of_bounds example_cfg host_accepting
                example_endpoint_filtering eq_refl) as (_ & H).
    destruct (H example_filter_inverted example_filter eq_refl) as (_ & H').
    + split; reflexivity.
    + exact H'.
Defined.

(** With a non-empty argument every subscript of [setFilter] is in bounds. *)
Lemma nonempty_install_subscripts_in_bounds (cfg : Config) (host : Host)
      (l : list Filter.t) (s : CANEndpointImpl) :
  MACCHINA_HAVE_SOCKETCAN cfg = true -> l <> [] ->
  subscripts_in_bounds (events (setFilter cfg host l s)) = true.
Proof.
  intros Hcfg Hl.
  destruct (@setFilter_eq cfg host Hcfg l s) as (evs & Hev & ->).
  destruct (@mutation_result_subscripts unit host tt l s [] evs) as (_ & ->);
    [constructor|exact Hev|].
  destruct l; [contradiction|reflexivity].
Qed.

(** ** The initial state *)

(** C10. A newly constructed endpoint has filter mode OR, an empty filter
    list, a classic enable counter of zero and an idle reader thread;
    [getFilterMode] returns OR, [getFilter] the empty list and
    [eventsEnabled] false. *)
Theorem constructor_initial_state (interfc : string) (sock : CANSocket)
        (debug : bool) (indeterminate : Z) :
  let s := constructor interfc sock debug indeterminate in
  _filterMode s = CAN_FILTER_MODE_OR /\ _filter s = [] /\ _enableEvents s = 0 /\
  _thread s = ThreadIdle /\
  outcome (getFilterMode s) = Ret CAN_FILTER_MODE_OR /\
  outcome (getFilter s) = Ret [] /\
  outcome (eventsEnabled s) = Ret false /\
  final (eventsEnabled s) = s.
Proof. repeat split. Qed.

(** ** One call of [enableEvents] *)

Lemma enableEvents_true_eq s :
  reader_matches_counter s ->
  enableEvents true s =
  if _enableEvents s =? 0
  then mkRes (Ret tt) (with_thread ThreadRunning (with_enableEvents 1 s))
             [EvLock; EvRead F_enableEvents; EvWrite F_enableEvents;
              EvThreadStart; EvUnlock]
  else mkRes (Ret tt) (with_enableEvents (_enableEvents s + 1) s)
             [EvLock; EvRead F_enableEvents; EvWrite F_enableEvents; EvUnlock].
Proof.
  intros [Hc Hthr]. unfold enableEvents.
  destruct (_enableEvents s =? 0) eqn:E.
  - apply Z.eqb_eq in E.
    assert (Hidle : _thread s = ThreadIdle).
    { destruct (_thread s); [reflexivity|]. exfalso.
      assert (0 < _enableEvents s) by (apply Hthr; reflexivity). lia. }
    erewrite ScopedLock_eq.
    2:{ eapply bind_eq with (e1 := [EvRead F_enableEvents]); [reflexivity|].
        eapply bind_eq with (e1 := [EvWrite F_enableEvents]); [reflexivity|].
        rewrite E. simpl. unfold thread_start. cbn [_thread with_enableEvents].
        rewrite Hidle. reflexivity. }
    reflexivity.
  - erewrite ScopedLock_eq.
    2:{ eapply bind_eq with (e1 := [EvRead F_enableEvents]); [reflexivity|].
        eapply bind_eq with (e1 := [EvWrite F_enableEvents]); [reflexivity|].
        rewrite E. reflexivity. }
    reflexivity.
Qed.

Lemma enableEvents_false_eq s :
  reader_matches_counter s ->
  enableEvents false s =
  if 0 <? _enableEvents s
  then if _enableEvents s - 1 =? 0
       then mkRes Blocked (with_enableEvents 0 s)
                  [EvLock; EvRead F_enableEvents; EvWrite F_enableEvents;
                   EvRead F_enableEvents; EvThreadJoin]
       else mkRes (Ret tt) (with_enableEvents (_enableEvents s - 1) s)
                  [EvLock; EvRead F_enableEvents; EvWrite F_enableEvents;
                   EvRead F_enableEvents; EvUnlock]
  else mkRes (Ret tt) s [EvLock; EvRead F_enableEvents; EvUnlock].
Proof.
  intros [Hc Hthr]. unfold enableEvents.
  destruct (0 <? _enableEvents s) eqn:E.
  - assert (Hrun : _thread s = ThreadRunning) by (apply Hthr, Z.ltb_lt, E).
    destruct (_enableEvents s - 1 =? 0) eqn:E1.
    + erewrite ScopedLock_eq.
      2:{ eapply bind_eq with (e1 := [EvRead F_enableEvents]); [reflexivity|].
          rewrite E.
          eapply bind_eq with (e1 := [EvWrite F_enableEvents]); [reflexivity|].
          eapply bind_eq with (e1 := [EvRead F_enableEvents]); [reflexivity|].
          cbn [_enableEvents with_enableEvents]. rewrite E1.
          unfold thread_join. cbn [_thread with_enableEvents]. rewrite Hrun.
          apply Z.eqb_eq in E1. rewrite E1. reflexivity. }
      reflexivity.
    + erewrite ScopedLock_eq.
      2:{ eapply bind_eq with (e1 := [EvRead F_enableEvents]); [reflexivity|].
          rewrite E.
          eapply bind_eq with (e1 := [EvWrite F_enableEvents]); [reflexivity|].
          eapply bind_eq with (e1 := [EvRead F_enableEvents]); [reflexivity|].
          cbn [_enableEvents with_enableEvents]. rewrite E1. reflexivity. }
      reflexivity.
  - erewrite ScopedLock_eq.
    2:{ eapply bind_eq with (e1 := [EvRead F_enableEvents]); [reflexivity|].
        rewrite E. reflexivity. }
    reflexivity.
Qed.

Lemma eventsEnabled_eq s :
  eventsEnabled s = mkRes (Ret (0 <? _enableEvents s)) s
                          [EvLock; EvRead F_enableEvents; EvUnlock].
Proof. reflexivity. Qed.

(** The disabling call that takes the counter from 1 to 0 stores 0 and
    calls join while it still holds the mutex: it does not return, the
    reader does not stop, and the mutex is not released.  The destructor,
    which unlocks before it joins, does return. *)
Lemma enableEvents_last_disable_blocks s :
  reader_matches_counter s -> _enableEvents s = 1 ->
  let r := enableEvents false s in
  outcome r = Blocked /\ _enableEvents (final r) = 0 /\
  _thread (final r) = ThreadRunning /\
  join_attempted (events r) = true /\ keeps_mutex (events r) = true.
Proof.
  intros Hinv H1 r. subst r.
  assert (Hrun : _thread s = ThreadRunning) by (apply Hinv; lia).
  rewrite (enableEvents_false_eq Hinv), H1. cbn. rewrite Hrun. repeat split.
Qed.

Lemma destructor_joins_reader s :
  reader_matches_counter s ->
  let r := destructor s in
  outcome r = Ret tt /\ _enableEvents (final r) = 0 /\ _thread (final r) = ThreadIdle.
Proof.
  intros [Hc Hthr] r. subst r. unfold destructor.
  destruct (_enableEvents s =? 0) eqn:E.
  - apply Z.eqb_eq in E.
    assert (Hidle : _thread s = ThreadIdle).
    { destruct (_thread s); [reflexivity|].
      assert (0 < _enableEvents s) by (apply Hthr; reflexivity). lia. }
    erewrite bind_eq with (e1 := [EvLock]); [|reflexivity|].
    2:{ eapply bind_eq with (e1 := [EvRead F_enableEvents]); [reflexivity|].
        rewrite E. reflexivity. }
    cbn. auto.
  - assert (Hrun : _thread s = ThreadRunning).
    { apply Hthr. apply Z.eqb_neq in E. lia. }
    erewrite bind_eq with (e1 := [EvLock]); [|reflexivity|].
    2:{ eapply bind_eq with (e1 := [EvRead F_enableEvents]); [reflexivity|].
        rewrite E. cbn [negb].
        eapply bind_eq with (e1 := [EvWrite F_enableEvents]); [reflexivity|].
        eapply bind_eq with (e1 := [EvUnlock]); [reflexivity|].
        unfold thread_join. cbn [_thread _enableEvents with_enableEvents].
        rewrite Hrun. reflexivity. }
    cbn. auto.
Qed.

(** ** Sequences of [enableEvents] calls *)

Lemma bind_outcome_Ret {A B} (m : M A) (k : A -> M B) s a :
  outcome (m s) = Ret a ->
  bind m k s = mkRes (outcome (k a (final (m s)))) (final (k a (final (m s))))
                     (events (m s) ++ events (k a (final (m s)))).
Proof. intros H. unfold bind. rewrite H. reflexivity. Qed.

Lemma calls_with_cons_same b calls :
  calls_with b (b :: calls) = calls_with b calls + 1.
Proof.
  unfold calls_with. rewrite count_occ_cons_eq by reflexivity. lia.
Qed.

Lemma calls_with_cons_other b c calls :
  c <> b -> calls_with b (c :: calls) = calls_with b calls.
Proof.
  intros H. unfold calls_with. rewrite count_occ_cons_neq by exact H. reflexivity.
Qed.

(** A call that leaves the counter positive returns and keeps the reader in
    step with the counter. *)
Lemma enableEvents_keeps_enabled (enable : bool) (s : CANEndpointImpl) :
  reader_matches_counter s ->
  (if enable then true else 1 <? _enableEvents s) = true ->
  outcome (enableEvents enable s) = Ret tt /\
  reader_matches_counter (final (enableEvents enable s)) /\
  _enableEvents (final (enableEvents enable s)) =
  if enable then _enableEvents s + 1 else _enableEvents s - 1.
Proof.
  intros Hinv Hpos. destruct enable.
  - rewrite (enableEvents_true_eq Hinv). destruct Hinv as [Hc Hthr].
    unfold reader_matches_counter.
    destruct (_enableEvents s =? 0) eqn:E; cbn.
    + apply Z.eqb_eq in E. rewrite E. repeat split; try lia.
    + apply Z.eqb_neq in E. repeat split; try lia.
      intros _. apply Hthr. lia.
  - rewrite (enableEvents_false_eq Hinv). destruct Hinv as [Hc Hthr].
    unfold reader_matches_counter. apply Z.ltb_lt in Hpos.
    replace (0 <? _enableEvents s) with true by (symmetry; apply Z.ltb_lt; lia).
    replace (_enableEvents s - 1 =? 0) with false by (symmetry; apply Z.eqb_neq; lia).
    cbn. repeat split; try lia.
    intros _. apply Hthr. lia.
Qed.

Lemma enableEvents_calls_counter calls : forall s,
  reader_matches_counter s ->
  stays_enabled_from (_enableEvents s) calls = true ->
  let r := enableEvents_calls calls s in
  outcome r = Ret tt /\ reader_matches_counter (final r) /\
  _enableEvents (final r)
  = _enableEvents s + calls_with true calls - calls_with false calls.
Proof.
  induction calls as [|enable rest IH]; intros s Hinv Hbal.
  - cbn. repeat split; try apply Hinv. unfold calls_with. simpl. lia.
  - assert (Hpos : (if enable then true else 1 <? _enableEvents s) = true).
    { destruct enable; [reflexivity|]. simpl in Hbal.
      apply andb_true_iff in Hbal. apply Hbal. }
    destruct (enableEvents_keeps_enabled enable Hinv Hpos) as (Hout & Hinv1 & Hcnt).
    cbn [enableEvents_calls]. cbv zeta.
    rewrite (@bind_outcome_Ret _ _ (enableEvents enable)
               (fun _ => enableEvents_calls rest) s tt Hout).
    cbn [outcome final].
    assert (Hbal1 : stays_enabled_from (_enableEvents (final (enableEvents enable s)))
                                       rest = true).
    { rewrite Hcnt. destruct enable; simpl in Hbal; [exact Hbal|].
      apply andb_true_iff in Hbal. apply Hbal. }
    destruct (IH _ Hinv1 Hbal1) as (Hout2 & Hinv2 & Hcnt2).
    split; [exact Hout2|]. split; [exact Hinv2|].
    rewrite Hcnt2, Hcnt. destruct enable.
    + rewrite calls_with_cons_same, calls_with_cons_other by discriminate. lia.
    + rewrite calls_with_cons_same, calls_with_cons_other by discriminate. lia.
Qed.

(** C1, as the code has it.  Starting from an endpoint whose counter is 0
    and whose reader is idle, take any sequence of [enableEvents] calls that
    leaves the counter positive after each call (so no disabling call finds
    the counter at 0), with [k] enabling and [j] disabling calls.  Then
    every call returns, the counter is [k - j], [eventsEnabled] returns true
    iff [k > j], and the reader thread runs iff [k > j].  A disabling call
    on a counter of 0 returns with the endpoint unchanged and without
    calling join. *)
Theorem enableEvents_reference_count (calls : list bool) (s : CANEndpointImpl) :
  _enableEvents s = 0 -> _thread s = ThreadIdle ->
  stays_enabled_from 0 calls = true ->
  let k := calls_with true calls in
  let j := calls_with false calls in
  let r := enableEvents_calls calls s in
  (outcome r = Ret tt /\ _enableEvents (final r) = k - j /\
   (outcome (eventsEnabled (final r)) = Ret true <-> k > j) /\
   (_thread (final r) = ThreadRunning <-> k > j)) /\
  (forall s0, _enableEvents s0 = 0 ->
              let r0 := enableEvents false s0 in
              outcome r0 = Ret tt /\ final r0 = s0 /\
              join_attempted (events r0) = false).
Proof.
  intros Hc Hthr Hbal k j r. split.
  - assert (Hinv : reader_matches_counter s).
    { unfold reader_matches_counter. rewrite Hc, Hthr.
      split; [lia|]. split; [discriminate|lia]. }
    rewrite <- Hc in Hbal.
    destruct (enableEvents_calls_counter calls Hinv Hbal) as (Hout & [Hpos Hrun] & Hcnt).
    fold r in Hout, Hpos, Hrun, Hcnt. fold k j in Hcnt. rewrite Hc in Hcnt.
    split; [exact Hout|]. split; [lia|]. split.
    + rewrite eventsEnabled_eq. cbn [outcome]. split.
      * intros H. inversion H as [H1]. apply Z.ltb_lt in H1. lia.
      * intros H. f_equal. apply Z.ltb_lt. lia.
    + rewrite Hrun. lia.
  - intros s0 H0 r0. subst r0. unfold enableEvents.
    erewrite ScopedLock_eq.
    2:{ eapply bind_eq with (e1 := [EvRead F_enableEvents]); [reflexivity|].
        rewrite H0. reflexivity. }
    repeat split.
Qed.

Lemma enableEvents_reference_count_witness :
  outcome (eventsEnabled
             (final (enableEvents_calls [true; true; false] example_endpoint)))
  = Ret true /\
  _enableEvents (final (enableEvents_calls [true; true; false; true] example_endpoint))
  = 2.
Proof.
  split.
  - destruct (@enableEvents_reference_count [true; true; false] example_endpoint
                eq_refl eq_refl eq_refl) as ((_ & _ & H & _) & _).
    apply H. reflexivity.
  - destruct (@enableEvents_reference_count [true; true; false; true]
                example_endpoint eq_refl eq_refl eq_refl) as ((_ & H & _) & _).
    exact H.
Defined.

(** The claim for every interleaving fails: a disabling call that comes
    first is dropped, so after [enableEvents(false)], [enableEvents(true)]
    there are [k = 1] enabling and [j = 1 <= k] disabling calls and yet
    [eventsEnabled()] returns true and the reader runs. *)
Lemma enableEvents_unbalanced_counterexample :
  calls_with false [false; true] <= calls_with true [false; true] /\
  outcome (enableEvents_calls [false; true] example_endpoint) = Ret tt /\
  outcome (eventsEnabled (final (enableEvents_calls [false; true] example_endpoint)))
  = Ret true /\
  _thread (final (enableEvents_calls [false; true] example_endpoint)) = ThreadRunning /\
  ~ (calls_with true [false; true] > calls_with false [false; true]).
Proof. vm_compute. repeat split; discriminate. Qed.

(** ** Lock discipline *)

Lemma guarded_locked evs :
  keeps_mutex evs = true -> guarded (EvLock :: evs ++ [EvUnlock]) = true.
Proof.
  intros H. unfold guarded. cbn [guarded_from].
  rewrite guarded_from_held by exact H. reflexivity.
Qed.

Lemma mutation_result_guarded {A} host (v : A) l' s pre evs :
  Forall loop_event pre -> Forall loop_event evs ->
  guarded (events (mutation_result host v l' s pre evs)) = true.
Proof.
  intros Hpre Hevs.
  destruct (loop_events_facts Hpre) as (_ & _ & _ & P4 & _).
  destruct (loop_events_facts Hevs) as (_ & _ & _ & E4 & _).
  unfold mutation_result. cbv zeta.
  assert (Hkeep : forall tl,
             keeps_mutex tl = true ->
             keeps_mutex (pre ++ EvWrite F_filter :: evs ++ tl) = true).
  { intros tl Htl. unfold keeps_mutex in *.
    rewrite forallb_app, P4. cbn [forallb andb].
    rewrite forallb_app, E4. exact Htl. }
  destruct l' as [|x l'].
  - cbn [events]. unfold guarded. cbn [guarded_from].
    rewrite guarded_from_held by (apply Hkeep; reflexivity). reflexivity.
  - destruct (setsockopt_CAN_RAW_FILTER host (_socket s) _);
      cbn [events]; apply guarded_locked; apply Hkeep; reflexivity.
Qed.

(** The operations that declare a [ScopedLock] touch the shared members
    only while they hold the mutex. *)
Lemma locked_operations_guarded (cfg : Config) (host : Host) (s : CANEndpointImpl) :
  MACCHINA_HAVE_SOCKETCAN cfg = true ->
  (forall l, guarded (events (setFilter cfg host l s)) = true) /\
  (forall f, guarded (events (addFilter cfg host f s)) = true) /\
  (forall f, guarded (events (removeFilter cfg host f s)) = true) /\
  guarded (events (getFilter s)) = true /\
  guarded (events (eventsEnabled s)) = true /\
  guarded (events (fdEventsEnabled s)) = true /\
  (forall enable, guarded (events (enableEvents enable s)) = true).
Proof.
  intros Hcfg. repeat split.
  - intros l. destruct (@setFilter_eq cfg host Hcfg l s) as (evs & Hev & ->).
    apply mutation_result_guarded; [constructor|exact Hev].
  - intros f. destruct (@addFilter_eq cfg host Hcfg f s) as (evs & Hev & ->).
    destruct (find_equal f (_filter s)); [reflexivity|].
    apply mutation_result_guarded; [repeat constructor|exact Hev].
  - intros f. destruct (@removeFilter_eq cfg host Hcfg f s) as (evs & Hev & ->).
    destruct (erase_first_equal f (_filter s)); [|reflexivity].
    apply mutation_result_guarded; [repeat constructor|exact Hev].
  - intros []; unfold enableEvents; apply ScopedLock_guarded.
    + unfold bind, read, write, thread_start. cbn.
      destruct (_enableEvents s =? 0); cbn; [|reflexivity].
      destruct (_thread s); reflexivity.
    + unfold bind, read, write, thread_join. cbn.
      destruct (0 <? _enableEvents s); cbn; [|reflexivity].
      destruct (_enableEvents s - 1 =? 0); cbn; [|reflexivity].
      destruct (_thread s); reflexivity.
Qed.

(** C9, where the code departs from it.  [setFilterMode] and
    [getFilterMode] never take the mutex: [getFilterMode] reads
    [_filterMode], and a [setFilterMode] that returns has written it, with
    the mutex not held. *)
Theorem filterMode_accessed_without_mutex (cfg : Config) (host : Host)
        (mode : FilterMode) (s : CANEndpointImpl) :
  acquires_mutex (events (setFilterMode cfg host mode s)) = false /\
  acquires_mutex (events (getFilterMode s)) = false /\
  In (EvRead F_filterMode) (events (getFilterMode s)) /\
  guarded (events (getFilterMode s)) = false /\
  (outcome (setFilterMode cfg host mode s) = Ret tt ->
   _filterMode (final (setFilterMode cfg host mode s)) = mode /\
   In (EvWrite F_filterMode) (events (setFilterMode cfg host mode s)) /\
   guarded (events (setFilterMode cfg host mode s)) = false).
Proof.
  split; [|split; [reflexivity|split; [left; reflexivity|split; [reflexivity|]]]].
  - unfold setFilterMode, bind, setOption, write.
    destruct (MACCHINA_HAVE_SOCKETCAN cfg); [|reflexivity].
    destruct (FilterMode_eqb mode CAN_FILTER_MODE_AND);
      destruct (setOption_error host (_socket s) CAN_RAW_JOIN_FILTERS _); reflexivity.
  - unfold setFilterMode, bind, setOption, write.
    destruct (MACCHINA_HAVE_SOCKETCAN cfg).
    + destruct (FilterMode_eqb mode CAN_FILTER_MODE_AND);
        destruct (setOption_error host (_socket s) CAN_RAW_JOIN_FILTERS _);
        cbn; intros H; try discriminate H;
        (split; [reflexivity|split; [right; left; reflexivity|reflexivity]]).
    + cbn. intros _. split; [reflexivity|split; [left; reflexivity|reflexivity]].
Qed.

Lemma filterMode_accessed_without_mutex_witness :
  guarded (events (setFilterMode example_cfg host_accepting CAN_FILTER_MODE_AND
                                 example_endpoint)) = false /\
  guarded (events (getFilterMode example_endpoint)) = false.
Proof.
  destruct (filterMode_accessed_without_mutex example_cfg host_accepting
              CAN_FILTER_MODE_AND example_endpoint) as (_ & _ & _ & Hget & Hset).
  split; [|exact Hget].
  destruct (Hset eq_refl) as (_ & _ & H). exact H.
Defined.

(** ** Frame buffers: arithmetic *)

Lemma u32_round_trip e v :
  0 <= v < 2 ^ 32 -> u32_of_bytes e (u32_to_bytes e v) = v.
Proof.
  intros Hv. unfold u32_of_bytes, u32_to_bytes.
  change (2 ^ 32) with 4294967296 in Hv.
  destruct e; cbn [rev app nth]; Z.div_mod_to_equations; lia.
Qed.

Lemma u32_to_bytes_length e v : List.length (u32_to_bytes e v) = 4%nat.
Proof. destruct e; reflexivity. Qed.

Lemma lor_below n a b :
  0 <= n -> 0 <= a < 2 ^ n -> 0 <= b < 2 ^ n -> 0 <= Z.lor a b < 2 ^ n.
Proof.
  intros Hn Ha Hb.
  assert (H0 : 0 <= Z.lor a b) by (apply Z.lor_nonneg; lia).
  split; [exact H0|].
  destruct (Z.eq_dec (Z.lor a b) 0) as [E|E]; [rewrite E; lia|].
  assert (Hn0 : 0 < n).
  { destruct (Z.eq_dec n 0) as [->|]; [|lia]. exfalso. apply E.
    replace a with 0 by (simpl in Ha; lia). replace b with 0 by (simpl in Hb; lia).
    reflexivity. }
  apply Z.log2_lt_pow2; [lia|].
  rewrite Z.log2_lor by lia.
  apply Z.max_lub_lt.
  - destruct (Z.eq_dec a 0) as [->|]; [simpl; lia|]. apply Z.log2_lt_pow2; lia.
  - destruct (Z.eq_dec b 0) as [->|]; [simpl; lia|]. apply Z.log2_lt_pow2; lia.
Qed.

Lemma land_EFF_MASK_small v : 0 <= v <= CAN_EFF_MASK -> Z.land v CAN_EFF_MASK = v.
Proof.
  intros Hv. change CAN_EFF_MASK with (Z.ones 29) in *.
  rewrite Z.land_ones by lia. apply Z.mod_small.
  rewrite Z.ones_equiv in Hv. lia.
Qed.

Lemma sendFrame_can_id_range cfg frame :
  0 <= sendFrame_can_id cfg frame < 2 ^ 32.
Proof.
  unfold sendFrame_can_id, or_if_flag.
  assert (Hid : 0 <= CANFrame.id frame mod 2 ^ 32 < 2 ^ 32)
    by (apply Z.mod_pos_bound; reflexivity).
  assert (He : 0 <= CAN_EFF_FLAG < 2 ^ 32) by (unfold CAN_EFF_FLAG; lia).
  assert (Hr : 0 <= CAN_RTR_FLAG < 2 ^ 32) by (unfold CAN_RTR_FLAG; lia).
  destruct (negb (Z.land (CANFrame.flags frame) (CAN_FLAG_RTR cfg) =? 0));
    destruct (negb (Z.land (CANFrame.flags frame) (CAN_FLAG_IDE cfg) =? 0));
    repeat (apply lor_below; try lia); lia.
Qed.

Lemma sendFrame_can_id_sent cfg frame :
  0 <= CANFrame.id frame < 2 ^ 32 ->
  sendFrame_can_id cfg frame = sent_identifier cfg frame.
Proof.
  intros Hid. unfold sendFrame_can_id, sent_identifier, or_if_flag.
  rewrite Z.mod_small by exact Hid.
  destruct (negb (Z.land (CANFrame.flags frame) (CAN_FLAG_RTR cfg) =? 0));
    destruct (negb (Z.land (CANFrame.flags frame) (CAN_FLAG_IDE cfg) =? 0));
    rewrite ?Z.lor_0_r; reflexivity.
Qed.

Lemma sent_identifier_spec cfg frame :
  0 <= CANFrame.id frame <= CAN_EFF_MASK ->
  sent_identifier cfg frame = spec_identifier cfg frame.
Proof.
  intros Hid. unfold sent_identifier, spec_identifier.
  rewrite land_EFF_MASK_small by exact Hid. reflexivity.
Qed.

(** Masking the stored word with the 29-bit mask gives back an identifier
    that fits 29 bits. *)
Lemma sent_identifier_masked cfg frame :
  0 <= CANFrame.id frame <= CAN_EFF_MASK ->
  Z.land (sent_identifier cfg frame) CAN_EFF_MASK = CANFrame.id frame.
Proof.
  intros Hid. unfold sent_identifier.
  rewrite !Z.land_lor_distr_l, land_EFF_MASK_small by exact Hid.
  destruct (negb (Z.land (CANFrame.flags frame) (CAN_FLAG_RTR cfg) =? 0));
    destruct (negb (Z.land (CANFrame.flags frame) (CAN_FLAG_IDE cfg) =? 0));
    change (Z.land CAN_EFF_FLAG CAN_EFF_MASK) with 0;
    change (Z.land CAN_RTR_FLAG CAN_EFF_MASK) with 0;
    change (Z.land 0 CAN_EFF_MASK) with 0;
    rewrite !Z.lor_0_r; reflexivity.
Qed.

(** ** [sendFrame] in closed form *)

Lemma sendFrame_eq cfg host frame scFrame s :
  MACCHINA_HAVE_SOCKETCAN cfg = true ->
  (CANFrame.dlc frame <= List.length (can_frame.data scFrame))%nat ->
  (CANFrame.dlc frame <= List.length (CANFrame.payload frame))%nat ->
  let bytes := can_frame.to_bytes (byte_order cfg) (sendFrame_object cfg frame scFrame) in
  let err := sendBytes_error host (_socket s) bytes in
  sendFrame cfg host frame scFrame s =
  mkRes (match err with
         | None => Ret tt
         | Some errno => Throw (IOException "I/O error" errno)
         end)
        s
        (dump_events (_logger_debug s) "Sending CAN frame"
                     (firstn (CANFrame.dlc frame) (CANFrame.payload frame))
           ++ [EvSendBytes bytes err]).
Proof.
  intros Hcfg Hdst Hsrc bytes err.
  assert (Hcpy : memcpy (can_frame.data scFrame) (CANFrame.payload frame)
                        (CANFrame.dlc frame)
                 = Some (firstn (CANFrame.dlc frame) (CANFrame.payload frame)
                           ++ skipn (CANFrame.dlc frame) (can_frame.data scFrame))).
  { unfold memcpy. apply Nat.leb_le in Hdst, Hsrc. rewrite Hdst, Hsrc. reflexivity. }
  assert (Hsend : sendBytes host bytes s =
                  mkRes (match err with
                         | None => Ret tt
                         | Some errno => Throw (IOException "I/O error" errno)
                         end) s [EvSendBytes bytes err]).
  { unfold sendBytes. fold err. destruct err; reflexivity. }
  unfold sendFrame.
  eapply bind_eq with (e1 := []) (a := _logger_debug s); [reflexivity|].
  cbn [app].
  eapply bind_eq with (a := tt) (s1 := s).
  - unfold dump_events, logger_dump.
    destruct (_logger_debug s); [|reflexivity].
    apply Nat.leb_le in Hsrc. rewrite Hsrc. reflexivity.
  - rewrite Hcfg. cbv zeta. rewrite Hcpy. exact Hsend.
Qed.

Lemma sendFrame_object_bytes cfg frame scFrame :
  can_frame.is_object scFrame ->
  (CANFrame.dlc frame <= CAN_MAX_DLEN)%nat ->
  (CANFrame.dlc frame <= List.length (CANFrame.payload frame))%nat ->
  let bytes := can_frame.to_bytes (byte_order cfg) (sendFrame_object cfg frame scFrame) in
  List.length bytes = CAN_MTU /\
  identifier_field (byte_order cfg) bytes = sendFrame_can_id cfg frame /\
  dlc_field bytes = Z.of_nat (CANFrame.dlc frame) /\
  data_field bytes = firstn (CANFrame.dlc frame) (CANFrame.payload frame)
                       ++ skipn (CANFrame.dlc frame) (can_frame.data scFrame).
Proof.
  intros Hobj Hdlc Hsrc bytes. subst bytes.
  unfold can_frame.is_object, CAN_MAX_DLEN in *.
  unfold can_frame.to_bytes, sendFrame_object.
  cbn [can_frame.can_id can_frame.can_dlc can_frame.__pad can_frame.__res0
       can_frame.__res1 can_frame.data].
  repeat split.
  - rewrite !length_app, u32_to_bytes_length, length_firstn, length_skipn.
    cbn [List.length]. unfold CAN_MTU, can_frame.sizeof. lia.
  - unfold identifier_field.
    rewrite firstn_app, u32_to_bytes_length, firstn_all2
      by (rewrite u32_to_bytes_length; lia).
    cbn [Nat.sub firstn]. rewrite app_nil_r.
    apply u32_round_trip. apply sendFrame_can_id_range.
  - unfold dlc_field.
    rewrite app_nth2 by (rewrite u32_to_bytes_length; lia).
    rewrite u32_to_bytes_length. cbn [Nat.sub nth app].
    apply Z.mod_small. change (2 ^ 8) with 256. lia.
  - unfold data_field.
    rewrite skipn_app, u32_to_bytes_length, skipn_all2
      by (rewrite u32_to_bytes_length; lia).
    reflexivity.
Qed.

(** ** Sending a classic frame *)





(** C6, as the code has it.  In a build with SocketCAN, for a classic frame
    with a 32-bit identifier, dlc at most 8 and a payload of dlc bytes,
    [sendFrame] hands the socket exactly one buffer, of [CAN_MTU] bytes.
    Its identifier word is [id | (IDE ? EFF_FLAG : 0) | (RTR ? RTR_FLAG : 0)]
    with the identifier not masked; when the identifier fits 29 bits this is
    the word [(id & EFF_MASK) | ...] of the encoding rule.  The length byte
    is dlc and the first dlc data bytes are the payload.  For [id = 0x7FF]
    with IDE unset the low 11 bits of the identifier word are 0x7FF and the
    EFF bit is clear; with RTR unset as well the word is 0x7FF, every higher
    bit clear. *)
Theorem sendFrame_buffer_layout (cfg : Config) (host : Host)
        (frame : CANFrame.t) (scFrame : can_frame.t) (s : CANEndpointImpl) :
  MACCHINA_HAVE_SOCKETCAN cfg = true ->
  can_frame.is_object scFrame ->
  0 <= CANFrame.id frame < 2 ^ 32 ->
  (CANFrame.dlc frame <= CAN_MAX_DLEN)%nat ->
  List.length (CANFrame.payload frame) = CANFrame.dlc frame ->
  exists bytes,
    frames_written (events (sendFrame cfg host frame scFrame s)) = [bytes] /\
    List.length bytes = CAN_MTU /\
    identifier_field (byte_order cfg) bytes = sent_identifier cfg frame /\
    (CANFrame.id frame <= CAN_EFF_MASK ->
     identifier_field (byte_order cfg) bytes = spec_identifier cfg frame) /\
    dlc_field bytes = Z.of_nat (CANFrame.dlc frame) /\
    firstn (CANFrame.dlc frame) (data_field bytes) = CANFrame.payload frame /\
    (CANFrame.id frame = 0x7FF ->
     Z.land (CANFrame.flags frame) (CAN_FLAG_IDE cfg) = 0 ->
     Z.land (identifier_field (byte_order cfg) bytes) CAN_SFF_MASK = 0x7FF /\
     Z.land (identifier_field (byte_order cfg) bytes) CAN_EFF_FLAG = 0 /\
     (Z.land (CANFrame.flags frame) (CAN_FLAG_RTR cfg) = 0 ->
      identifier_field (byte_order cfg) bytes = 0x7FF)).
Proof.
  intros Hcfg Hobj Hid Hdlc Hlen.
  assert (Hsrc : (CANFrame.dlc frame <= List.length (CANFrame.payload frame))%nat)
    by (rewrite Hlen; apply Nat.le_refl).
  assert (Hdst : (CANFrame.dlc frame <= List.length (can_frame.data scFrame))%nat).
  { unfold can_frame.is_object in Hobj. rewrite Hobj. exact Hdlc. }
  rewrite (@sendFrame_eq cfg host frame scFrame s Hcfg Hdst Hsrc).
  destruct (@sendFrame_object_bytes cfg frame scFrame Hobj Hdlc Hsrc)
    as (Hsize & Hident & Hdlcf & Hdata).
  exists (can_frame.to_bytes (byte_order cfg) (sendFrame_object cfg frame scFrame)).
  rewrite (sendFrame_can_id_sent cfg frame Hid) in Hident.
  cbn [events]. unfold dump_events.
  split; [destruct (_logger_debug s); reflexivity|].
  split; [exact Hsize|]. split; [exact Hident|].
  split; [intros Hsmall; rewrite Hident; apply sent_identifier_spec; lia|].
  split; [exact Hdlcf|]. split.
  - rewrite Hdata. rewrite <- Hlen at 1.
    rewrite firstn_app, length_firstn, Hlen, Nat.min_id, Nat.sub_diag.
    cbn [firstn]. rewrite app_nil_r, firstn_firstn, Nat.min_id.
    rewrite <- Hlen. apply firstn_all.
  - intros H7 Hide. rewrite Hident. unfold sent_identifier.
    rewrite H7, Hide.
    destruct (Z.land (CANFrame.flags frame) (CAN_FLAG_RTR cfg) =? 0) eqn:Hrtr.
    + repeat split.
    + repeat split. intros H0. rewrite H0 in Hrtr. discriminate Hrtr.
Qed.

Lemma sendFrame_buffer_layout_witness :
  exists bytes,
    frames_written
      (events (sendFrame example_cfg host_accepting
                 (CANFrame.mk 0x7FF 0 8 [0; 1; 2; 3; 4; 5; 6; 7])
                 (can_frame.mk 0 0 0 0 0 [9; 9; 9; 9; 9; 9; 9; 9]) example_endpoint))
    = [bytes] /\
    identifier_field LittleEndian bytes = 0x7FF /\
    dlc_field bytes = 8 /\
    firstn 8 (data_field bytes) = [0; 1; 2; 3; 4; 5; 6; 7].
Proof.
  destruct (@sendFrame_buffer_layout example_cfg host_accepting
              (CANFrame.mk 0x7FF 0 8 [0; 1; 2; 3; 4; 5; 6; 7])
              (can_frame.mk 0 0 0 0 0 [9; 9; 9; 9; 9; 9; 9; 9]) example_endpoint)
    as (bytes & Hw & _ & _ & _ & Hd & Hp & H7).
  - reflexivity.
  - reflexivity.
  - vm_compute. split; [discriminate|reflexivity].
  - vm_compute. lia.
  - reflexivity.
  - exists bytes. split; [exact Hw|]. split; [|split].
    + apply H7; reflexivity.
    + exact Hd.
    + exact Hp.
Defined.

(** The identifier is stored as it is: with bit 29 set and no flag, the
    identifier word has bit 29 set, where the encoding rule gives 0.  And
    with [id = 0x7FF], IDE unset and RTR set, bit 30 of the word is set. *)
Lemma sendFrame_identifier_counterexample :
  (identifier_field LittleEndian
     (can_frame.to_bytes LittleEndian
        (sendFrame_object example_cfg (CANFrame.mk 0x20000000 0 0 [])
           (can_frame.mk 0 0 0 0 0 [0; 0; 0; 0; 0; 0; 0; 0])))
   = 0x20000000 /\
   frames_written
     (events (sendFrame example_cfg host_accepting (CANFrame.mk 0x20000000 0 0 [])
                (can_frame.mk 0 0 0 0 0 [0; 0; 0; 0; 0; 0; 0; 0]) example_endpoint))
   = [can_frame.to_bytes LittleEndian
        (sendFrame_object example_cfg (CANFrame.mk 0x20000000 0 0 [])
           (can_frame.mk 0 0 0 0 0 [0; 0; 0; 0; 0; 0; 0; 0]))] /\
   spec_identifier example_cfg (CANFrame.mk 0x20000000 0 0 []) = 0) /\
  (Z.land 2 (CAN_FLAG_IDE example_cfg) = 0 /\
   frames_written
     (events (sendFrame example_cfg host_accepting (CANFrame.mk 0x7FF 2 0 [])
                (can_frame.mk 0 0 0 0 0 [0; 0; 0; 0; 0; 0; 0; 0]) example_endpoint))
   = [[0xFF; 0x07; 0; 0x40; 0; 0; 0; 0; 0; 0; 0; 0; 0; 0; 0; 0]] /\
   identifier_field LittleEndian
     [0xFF; 0x07; 0; 0x40; 0; 0; 0; 0; 0; 0; 0; 0; 0; 0; 0; 0] = 0x400007FF).
Proof. vm_compute. repeat split. Qed.

(** ** List surgery *)

Lemma firstn_app_exact {A} n (a b : list A) :
  List.length a = n -> firstn n (a ++ b) = a.
Proof.
  intros <-. rewrite firstn_app, Nat.sub_diag, firstn_all. cbn [firstn].
  apply app_nil_r.
Qed.

(** The first eight bytes of either struct: identifier word, length byte
    and three more bytes. *)
Lemma header_fields e v b4 b5 b6 b7 rest :
  0 <= v < 2 ^ 32 ->
  let buf := u32_to_bytes e v ++ [b4; b5; b6; b7] ++ rest in
  u32_of_bytes e (firstn 4 buf) = v /\
  nth 4 buf 0 = b4 /\ nth 5 buf 0 = b5 /\ nth 6 buf 0 = b6 /\ nth 7 buf 0 = b7 /\
  skipn 8 buf = rest.
Proof.
  intros Hv buf. subst buf.
  rewrite (@firstn_app_exact _ 4 (u32_to_bytes e v) _ (u32_to_bytes_length e v)).
  split; [apply u32_round_trip; exact Hv|].
  destruct e; repeat split.
Qed.

(** ** Receiving what was sent *)

Lemma can_frame_to_bytes_length e obj :
  can_frame.is_object obj ->
  List.length (can_frame.to_bytes e obj) = 16%nat.
Proof.
  intros H. unfold can_frame.to_bytes.
  rewrite !length_app, u32_to_bytes_length, H. reflexivity.
Qed.

Lemma canfd_frame_to_bytes_length e obj :
  canfd_frame.is_object obj ->
  List.length (canfd_frame.to_bytes e obj) = 72%nat.
Proof.
  intros H. unfold canfd_frame.to_bytes.
  rewrite !length_app, u32_to_bytes_length, H. reflexivity.
Qed.

Lemma receive_classic_of_sent cfg obj uninit :
  can_frame.is_object obj -> can_frame.is_object uninit ->
  0 <= can_frame.can_id obj < 2 ^ 32 ->
  receive_classic cfg uninit (can_frame.to_bytes (byte_order cfg) obj) =
  deliver (CANFrame_from_ptr (Z.land (can_frame.can_id obj) CAN_EFF_MASK)
             (decode_flags cfg (can_frame.can_id obj))
             (can_frame.can_dlc obj) (can_frame.data obj)).
Proof.
  intros Hobj Hun Hid. unfold receive_classic, receiveBytes.
  rewrite (@can_frame_to_bytes_length (byte_order cfg) obj Hobj), (@can_frame_to_bytes_length (byte_order cfg) uninit Hun).
  cbn [Nat.min].
  rewrite firstn_all2 by (rewrite (@can_frame_to_bytes_length (byte_order cfg) obj Hobj); lia).
  rewrite skipn_all2 by (rewrite (@can_frame_to_bytes_length (byte_order cfg) uninit Hun); lia).
  rewrite app_nil_r. change (16 =? CAN_MTU)%nat with true. cbv iota.
  unfold can_frame.of_bytes, can_frame.to_bytes.
  destruct (@header_fields (byte_order cfg) (can_frame.can_id obj)
              (can_frame.can_dlc obj) (can_frame.__pad obj) (can_frame.__res0 obj)
              (can_frame.__res1 obj) (can_frame.data obj) Hid)
    as (H0 & H4 & H5 & H6 & H7 & H8).
  rewrite H0, H4, H8.
  cbn [can_frame.can_id can_frame.can_dlc can_frame.data].
  rewrite firstn_all2 by (rewrite Hobj; apply Nat.le_refl).
  reflexivity.
Qed.

Lemma receive_fd_of_sent cfg obj uninit :
  can_frame.is_object obj -> canfd_frame.is_object uninit ->
  0 <= can_frame.can_id obj < 2 ^ 32 ->
  receive_fd cfg uninit (can_frame.to_bytes (byte_order cfg) obj) =
  deliver (CANFrame_from_ptr (Z.land (can_frame.can_id obj) CAN_EFF_MASK)
             (decode_flags cfg (can_frame.can_id obj))
             (can_frame.can_dlc obj)
             (can_frame.data obj ++ skipn 8 (canfd_frame.data uninit))).
Proof.
  intros Hobj Hun Hid. unfold receive_fd, receiveBytes.
  rewrite (@can_frame_to_bytes_length (byte_order cfg) obj Hobj), (@canfd_frame_to_bytes_length (byte_order cfg) uninit Hun).
  cbn [Nat.min].
  rewrite firstn_all2 by (rewrite (@can_frame_to_bytes_length (byte_order cfg) obj Hobj); lia).
  change (16 =? CAN_MTU)%nat with true. cbv iota.
  assert (Hskip : skipn 16 (canfd_frame.to_bytes (byte_order cfg) uninit)
                  = skipn 8 (canfd_frame.data uninit)).
  { unfold canfd_frame.to_bytes. rewrite app_assoc.
    rewrite skipn_app.
    rewrite length_app, u32_to_bytes_length. cbn [List.length Nat.add Nat.sub].
    rewrite skipn_all2 by (rewrite length_app, u32_to_bytes_length; cbn; lia).
    reflexivity. }
  rewrite Hskip.
  unfold canfd_frame.of_bytes, can_frame.to_bytes.
  rewrite <- !app_assoc.
  destruct (@header_fields (byte_order cfg) (can_frame.can_id obj)
              (can_frame.can_dlc obj) (can_frame.__pad obj) (can_frame.__res0 obj)
              (can_frame.__res1 obj)
              (can_frame.data obj ++ skipn 8 (canfd_frame.data uninit)) Hid)
    as (H0 & H4 & H5 & H6 & H7 & H8).
  cbn [app] in *.
  rewrite H0, H4, H8.
  cbn [canfd_frame.can_id canfd_frame.len canfd_frame.data].
  rewrite firstn_all2; [reflexivity|].
  rewrite length_app, length_skipn, Hobj, Hun. 
  unfold CAN_MAX_DLEN, CANFD_MAX_DLEN. lia.
Qed.

Lemma land_small_high_bit v bit :
  0 <= v <= CAN_EFF_MASK -> Z.land CAN_EFF_MASK bit = 0 -> Z.land v bit = 0.
Proof.
  intros Hv Hbit. rewrite <- (land_EFF_MASK_small Hv), <- Z.land_assoc, Hbit.
  apply Z.land_0_r.
Qed.

Lemma decode_flags_sent cfg frame :
  0 <= CANFrame.id frame <= CAN_EFF_MASK ->
  decode_flags cfg (sent_identifier cfg frame) =
  Z.lor (if negb (Z.land (CANFrame.flags frame) (CAN_FLAG_IDE cfg) =? 0)
         then CAN_FLAG_IDE cfg else 0)
        (if negb (Z.land (CANFrame.flags frame) (CAN_FLAG_RTR cfg) =? 0)
         then CAN_FLAG_RTR cfg else 0).
Proof.
  intros Hid. unfold decode_flags, sent_identifier.
  rewrite !Z.land_lor_distr_l.
  rewrite (@land_small_high_bit (CANFrame.id frame) CAN_EFF_FLAG Hid eq_refl).
  rewrite (@land_small_high_bit (CANFrame.id frame) CAN_RTR_FLAG Hid eq_refl).
  destruct (negb (Z.land (CANFrame.flags frame) (CAN_FLAG_IDE cfg) =? 0));
    destruct (negb (Z.land (CANFrame.flags frame) (CAN_FLAG_RTR cfg) =? 0));
    cbn [Z.land Z.lor CAN_EFF_FLAG CAN_RTR_FLAG Z.eqb negb Pos.land Pos.lor
         Pos.eqb Z.of_N];
    rewrite ?Z.lor_0_l, ?Z.lor_0_r; reflexivity.
Qed.

(** C7.  In a build with SocketCAN, with or without FD support, for every
    classic frame of the data model (identifier within 29 bits, dlc at most
    8, payload of dlc bytes): the buffer [sendFrame] writes, when it arrives
    as one datagram at a reader whose poll succeeded, makes the reader take
    the [CAN_MTU] branch and deliver through [frameReceived] a frame with
    the same identifier (which is the sent identifier masked with
    [CAN_EFF_MASK]), the same dlc and the same payload bytes.  Of the flags
    it carries exactly the IDE and RTR bits that were set in the frame
    sent. *)
Theorem classic_frame_round_trip (cfg : Config) (host : Host)
        (frame : CANFrame.t) (scFrame : can_frame.t)
        (uninit_fd : canfd_frame.t) (uninit : can_frame.t) (s : CANEndpointImpl) :
  MACCHINA_HAVE_SOCKETCAN cfg = true ->
  can_frame.is_object scFrame ->
  canfd_frame.is_object uninit_fd -> can_frame.is_object uninit ->
  CANFrame.well_formed frame ->
  exists bytes received,
    frames_written (events (sendFrame cfg host frame scFrame s)) = [bytes] /\
    run_body cfg true uninit_fd uninit bytes = Ret (Some (frameReceived received)) /\
    CANFrame.id received = Z.land (CANFrame.id frame) CAN_EFF_MASK /\
    CANFrame.id received = CANFrame.id frame /\
    CANFrame.dlc received = CANFrame.dlc frame /\
    CANFrame.payload received = CANFrame.payload frame /\
    CANFrame.flags received =
    Z.lor (if negb (Z.land (CANFrame.flags frame) (CAN_FLAG_IDE cfg) =? 0)
           then CAN_FLAG_IDE cfg else 0)
          (if negb (Z.land (CANFrame.flags frame) (CAN_FLAG_RTR cfg) =? 0)
           then CAN_FLAG_RTR cfg else 0).
Proof.
  intros Hcfg Hobj Hfd Hun (Hid & Hdlc & Hlen).
  unfold CANFrame.MAX_PAYLOAD_SIZE in Hdlc.
  assert (Hsrc : (CANFrame.dlc frame <= List.length (CANFrame.payload frame))%nat)
    by (rewrite Hlen; apply Nat.le_refl).
  assert (Hdst : (CANFrame.dlc frame <= List.length (can_frame.data scFrame))%nat).
  { unfold can_frame.is_object in Hobj. rewrite Hobj. exact Hdlc. }
  assert (Hid32 : 0 <= CANFrame.id frame < 2 ^ 32).
  { unfold CAN_EFF_MASK in Hid. change (2 ^ 32) with 4294967296. lia. }
  set (obj := sendFrame_object cfg frame scFrame).
  assert (Hdata : can_frame.data obj
                  = CANFrame.payload frame
                      ++ skipn (CANFrame.dlc frame) (can_frame.data scFrame)).
  { unfold obj, sendFrame_object. cbn [can_frame.data].
    rewrite <- Hlen, firstn_all. reflexivity. }
  assert (Hobj' : can_frame.is_object obj).
  { unfold can_frame.is_object in *. rewrite Hdata, length_app, length_skipn, Hobj, Hlen.
    unfold CAN_MAX_DLEN in *. lia. }
  assert (Hcid : can_frame.can_id obj = sent_identifier cfg frame)
    by (apply sendFrame_can_id_sent; exact Hid32).
  assert (Hrange : 0 <= can_frame.can_id obj < 2 ^ 32)
    by apply sendFrame_can_id_range.
  assert (Hlenb : Z.to_nat (can_frame.can_dlc obj) = CANFrame.dlc frame).
  { unfold obj, sendFrame_object. cbn [can_frame.can_dlc].
    rewrite Z.mod_small by (change (2 ^ 8) with 256; unfold CAN_MAX_DLEN in Hdlc; lia).
    apply Nat2Z.id. }
  exists (can_frame.to_bytes (byte_order cfg) obj).
  exists (CANFrame.mk (Z.land (sent_identifier cfg frame) CAN_EFF_MASK)
                      (decode_flags cfg (sent_identifier cfg frame))
                      (CANFrame.dlc frame) (CANFrame.payload frame)).
  split; [|split].
  - rewrite (@sendFrame_eq cfg host frame scFrame s Hcfg Hdst Hsrc).
    cbn [events]. unfold dump_events. destruct (_logger_debug s); reflexivity.
  - unfold run_body. rewrite Hcfg.
    destruct (CAN_RAW_FD_FRAMES cfg).
    + rewrite (@receive_fd_of_sent cfg obj uninit_fd Hobj' Hfd Hrange).
      unfold CANFrame_from_ptr. rewrite Hlenb, Hcid, Hdata.
      replace (CANFrame.dlc frame <=? _)%nat with true.
      2:{ symmetry. apply Nat.leb_le. rewrite !length_app, Hlen. lia. }
      rewrite <- app_assoc.
      rewrite (@firstn_app_exact _ (CANFrame.dlc frame) (CANFrame.payload frame) _ Hlen).
      reflexivity.
    + rewrite (@receive_classic_of_sent cfg obj uninit Hobj' Hun Hrange).
      unfold CANFrame_from_ptr. rewrite Hlenb, Hcid, Hdata.
      replace (CANFrame.dlc frame <=? _)%nat with true.
      2:{ symmetry. apply Nat.leb_le. rewrite !length_app, Hlen. lia. }
      rewrite (@firstn_app_exact _ (CANFrame.dlc frame) (CANFrame.payload frame) _ Hlen).
      reflexivity.
  - cbn [CANFrame.id CANFrame.dlc CANFrame.payload CANFrame.flags].
    rewrite (sent_identifier_masked cfg frame Hid).
    rewrite (land_EFF_MASK_small Hid).
    repeat split. apply decode_flags_sent. exact Hid.
Qed.

Lemma classic_frame_round_trip_witness :
  exists bytes received,
    frames_written
      (events (sendFrame example_cfg_fd host_accepting
                 (CANFrame.mk 0x7FF 1 3 [0xAA; 0xBB; 0xCC])
                 (can_frame.mk 0 0 0 0 0 [9; 9; 9; 9; 9; 9; 9; 9]) example_endpoint))
    = [bytes] /\
    run_body example_cfg_fd true (canfd_frame.mk 0 0 0 0 0 (repeat 7 64))
             (can_frame.mk 0 0 0 0 0 [9; 9; 9; 9; 9; 9; 9; 9]) bytes
    = Ret (Some (frameReceived received)) /\
    CANFrame.id received = 0x7FF /\
    CANFrame.dlc received = 3%nat /\
    CANFrame.payload received = [0xAA; 0xBB; 0xCC].
Proof.
  destruct (@classic_frame_round_trip example_cfg_fd host_accepting
              (CANFrame.mk 0x7FF 1 3 [0xAA; 0xBB; 0xCC])
              (can_frame.mk 0 0 0 0 0 [9; 9; 9; 9; 9; 9; 9; 9])
              (canfd_frame.mk 0 0 0 0 0 (repeat 7 64))
              (can_frame.mk 0 0 0 0 0 [9; 9; 9; 9; 9; 9; 9; 9]) example_endpoint)
    as (bytes & received & Hw & Hrun & _ & Hid & Hdlc & Hpay & _).
  - reflexivity.
  - reflexivity.
  - reflexivity.
  - reflexivity.
  - vm_compute. repeat split; try discriminate. lia.
  - exists bytes, received. repeat split; assumption.
Defined.
(** ** The last disabling call and the destructor, thread by thread *)

Section InterleavingFacts.
Import Interleaving.

Lemma last_disable_invariant_start st :
  last_disable_start st -> last_disable_invariant st.
Proof.
  destruct st as [c m k r]. unfold last_disable_start, last_disable_invariant.
  cbn. intros (Hc & Hk & Hr). subst.
  destruct r; cbn in *; intuition (subst; try congruence).
Qed.

Lemma last_disable_invariant_step st st' :
  last_disable_invariant st -> step st st' -> last_disable_invariant st'.
Proof.
  intros Hinv Hstep. unfold last_disable_invariant in *.
  inversion Hstep; subst; cbn in *;
    repeat match goal with
           | H : _ /\ _ |- _ => destruct H
           | k : Caller |- _ => destruct k
           | r : Reader |- _ => destruct r
           end;
    subst; try contradiction; try congruence; try lia;
    repeat split; try congruence; try lia.
Qed.

Lemma last_disable_invariant_reachable st st' :
  last_disable_invariant st -> reachable st st' -> last_disable_invariant st'.
Proof.
  intros Hinv Hreach. induction Hreach as [x y Hstep|x|x y z _ IH1 _ IH2].
  - eapply last_disable_invariant_step; eassumption.
  - exact Hinv.
  - auto.
Qed.

(** The last disabling call never returns and the reader never leaves
    [run()], however the two threads are scheduled. *)
Lemma last_disable_never_returns st st' :
  last_disable_start st -> reachable st st' ->
  caller st' <> C_returned /\ reader st' <> R_returned.
Proof.
  intros Hstart Hreach.
  assert (Hinv : last_disable_invariant st').
  { eapply last_disable_invariant_reachable; [|exact Hreach].
    apply last_disable_invariant_start. exact Hstart. }
  destruct st' as [c m k r]. unfold last_disable_invariant in Hinv. cbn in *.
  destruct Hinv as [Hk Hr].
  split; intros ->; contradiction.
Qed.

(** And it does stop: with the caller inside join and the reader waiting
    for the mutex, no thread can take a step. *)
Lemma last_disable_deadlock :
  reachable (mk 1 Free C_call R_call) (mk 0 ByCaller C_join R_call) /\
  forall st', ~ step (mk 0 ByCaller C_join R_call) st'.
Proof.
  split.
  - apply rt_trans with (y := mk 1 ByCaller C_locked R_call).
    + apply rt_step. constructor.
    + apply rt_step. apply (disable_last (c := 1)); reflexivity.
  - intros st' H. inversion H.
Qed.

Lemma destroy_invariant_start st : destroy_start st -> destroy_invariant st.
Proof.
  destruct st as [c m k r]. unfold destroy_start, destroy_invariant.
  cbn. intros (Hk & Hr). subst.
  destruct r; cbn in *; subst; split; congruence.
Qed.

Lemma destroy_invariant_step st st' :
  destroy_invariant st -> step st st' -> destroy_invariant st'.
Proof.
  intros Hinv Hstep. unfold destroy_invariant in *.
  inversion Hstep; subst; cbn in *;
    repeat match goal with
           | H : _ /\ _ |- _ => destruct H
           | k : Caller |- _ => destruct k
           | r : Reader |- _ => destruct r
           end;
    subst; try contradiction; try congruence;
    repeat split; try congruence.
Qed.

Lemma destroy_invariant_reachable st st' :
  destroy_invariant st -> reachable st st' -> destroy_invariant st'.
Proof.
  intros Hinv Hreach. induction Hreach as [x y Hstep|x|x y z _ IH1 _ IH2].
  - eapply destroy_invariant_step; eassumption.
  - exact Hinv.
  - auto.
Qed.

(** The destructor, which releases the mutex before it joins, never gets
    stuck: until it has returned, some thread can always take a step. *)
Lemma destroy_never_stuck st st' :
  destroy_start st -> reachable st st' ->
  caller st' = D_returned \/ exists st'', step st' st''.
Proof.
  intros Hstart Hreach.
  assert (Hinv : destroy_invariant st').
  { eapply destroy_invariant_reachable; [|exact Hreach].
    apply destroy_invariant_start. exact Hstart. }
  destruct st' as [c m k r]. unfold destroy_invariant in Hinv. cbn in *.
  destruct Hinv as [Hk Hr].
  destruct r.
  - (* R_call *)
    destruct m; [right; eexists; apply reader_lock| |congruence].
    destruct k; try contradiction; try congruence.
    + destruct (Z.eq_dec c 0).
      * right; eexists; apply destroy_nothing; assumption.
      * right; eexists; apply destroy_reset; assumption.
    + right; eexists; apply destroy_unlock.
    + right; eexists; apply destroy_exit.
  - right. subst. eexists. apply reader_read.
  - right. subst. eexists. apply reader_unlock.
  - right. destruct enabled; eexists; [apply reader_continue|apply reader_leave].
  - right. eexists. apply reader_body.
  - (* R_returned *)
    destruct k; try contradiction.
    + destruct m; try congruence. right; eexists; apply destroy_lock.
    + subst. destruct (Z.eq_dec c 0).
      * right; eexists; apply destroy_nothing; assumption.
      * right; eexists; apply destroy_reset; assumption.
    + subst. right; eexists; apply destroy_unlock.
    + right; eexists; apply destroy_joined.
    + subst. right; eexists; apply destroy_exit.
    + left; reflexivity.
Qed.

(** It can return, the reader having left [run()]. *)
Lemma destroy_can_return c :
  0 < c ->
  reachable (mk c Free D_call R_call) (mk 0 Free D_returned R_returned).
Proof.
  intros Hc.
  eapply rt_trans; [apply rt_step, destroy_lock|].
  eapply rt_trans; [apply rt_step, destroy_reset; lia|].
  eapply rt_trans; [apply rt_step, destroy_unlock|].
  eapply rt_trans; [apply rt_step, reader_lock|].
  eapply rt_trans; [apply rt_step, reader_read|].
  eapply rt_trans; [apply rt_step, reader_unlock|].
  eapply rt_trans; [apply rt_step, reader_leave|].
  apply rt_step, destroy_joined.
Qed.

End InterleavingFacts.

(** ** The filter list across operations *)

Lemma setFilter_eq_nocan cfg host l s :
  MACCHINA_HAVE_SOCKETCAN cfg = false ->
  setFilter cfg host l s
  = mkRes (Ret tt) (with_filter l s) [EvLock; EvWrite F_filter; EvUnlock].
Proof.
  intros Hcfg. unfold setFilter, applyFilter. rewrite Hcfg. reflexivity.
Qed.

Lemma addFilter_eq_nocan cfg host f s :
  MACCHINA_HAVE_SOCKETCAN cfg = false ->
  addFilter cfg host f s =
  if find_equal f (_filter s)
  then mkRes (Ret false) s [EvLock; EvRead F_filter; EvUnlock]
  else mkRes (Ret true) (with_filter (_filter s ++ [f]) s)
             [EvLock; EvRead F_filter; EvWrite F_filter; EvUnlock].
Proof.
  intros Hcfg. unfold addFilter, applyFilter. rewrite Hcfg.
  destruct (find_equal f (_filter s)) eqn:E.
  - erewrite ScopedLock_eq.
    2:{ eapply bind_eq with (e1 := [EvRead F_filter]); [reflexivity|].
        rewrite E. reflexivity. }
    reflexivity.
  - erewrite ScopedLock_eq.
    2:{ eapply bind_eq with (e1 := [EvRead F_filter]); [reflexivity|].
        rewrite E. reflexivity. }
    reflexivity.
Qed.

Lemma removeFilter_eq_nocan cfg host f s :
  MACCHINA_HAVE_SOCKETCAN cfg = false ->
  removeFilter cfg host f s =
  match erase_first_equal f (_filter s) with
  | Some l' => mkRes (Ret true) (with_filter l' s)
                     [EvLock; EvRead F_filter; EvWrite F_filter; EvUnlock]
  | None => mkRes (Ret false) s [EvLock; EvRead F_filter; EvUnlock]
  end.
Proof.
  intros Hcfg. unfold removeFilter, applyFilter. rewrite Hcfg.
  destruct (erase_first_equal f (_filter s)) eqn:E.
  - erewrite ScopedLock_eq.
    2:{ eapply bind_eq with (e1 := [EvRead F_filter]); [reflexivity|].
        rewrite E. reflexivity. }
    reflexivity.
  - erewrite ScopedLock_eq.
    2:{ eapply bind_eq with (e1 := [EvRead F_filter]); [reflexivity|].
        rewrite E. reflexivity. }
    reflexivity.
Qed.

Lemma mutation_result_not_refusal host l' s pre evs :
  outcome (mutation_result host true l' s pre evs) <> Ret false.
Proof.
  unfold mutation_result. cbv zeta. destruct l'; [discriminate|].
  destruct (setsockopt_CAN_RAW_FILTER host (_socket s) _); discriminate.
Qed.

(** In either build and whatever the kernel answers, each operation leaves
    the list [filter_list_after] computes, and [addFilter] and
    [removeFilter] return false exactly when they leave it as it was found
    by the search. *)
Lemma setFilter_list cfg host l s :
  _filter (final (setFilter cfg host l s)) = l.
Proof.
  destruct (MACCHINA_HAVE_SOCKETCAN cfg) eqn:Hcfg.
  - destruct (@setFilter_eq cfg host Hcfg l s) as (evs & _ & ->).
    apply mutation_result_filter.
  - rewrite (@setFilter_eq_nocan cfg host l s Hcfg). reflexivity.
Qed.

Lemma addFilter_list cfg host f s :
  _filter (final (addFilter cfg host f s)) = filter_list_after (OpAdd f) (_filter s) /\
  (outcome (addFilter cfg host f s) = Ret false <-> find_equal f (_filter s) = true).
Proof.
  cbn [filter_list_after].
  destruct (MACCHINA_HAVE_SOCKETCAN cfg) eqn:Hcfg.
  - destruct (@addFilter_eq cfg host Hcfg f s) as (evs & _ & ->).
    destruct (find_equal f (_filter s)).
    + split; [reflexivity|]. split; reflexivity.
    + split; [apply mutation_result_filter|].
      split; [|discriminate]. intros H.
      exfalso. exact (@mutation_result_not_refusal _ _ _ _ _ H).
  - rewrite (@addFilter_eq_nocan cfg host f s Hcfg).
    destruct (find_equal f (_filter s)); cbn; split; try reflexivity;
      split; try reflexivity; discriminate.
Qed.

Lemma removeFilter_list cfg host f s :
  _filter (final (removeFilter cfg host f s))
  = filter_list_after (OpRemove f) (_filter s) /\
  (outcome (removeFilter cfg host f s) = Ret false
   <-> erase_first_equal f (_filter s) = None).
Proof.
  cbn [filter_list_after].
  destruct (MACCHINA_HAVE_SOCKETCAN cfg) eqn:Hcfg.
  - destruct (@removeFilter_eq cfg host Hcfg f s) as (evs & _ & ->).
    destruct (erase_first_equal f (_filter s)).
    + split; [apply mutation_result_filter|].
      split; [|discriminate]. intros H.
      exfalso. exact (@mutation_result_not_refusal _ _ _ _ _ H).
    + split; [reflexivity|]. split; reflexivity.
  - rewrite (@removeFilter_eq_nocan cfg host f s Hcfg).
    destruct (erase_first_equal f (_filter s)); cbn; split; try reflexivity;
      split; try reflexivity; discriminate.
Qed.












(** ** The kernel's filter set across operations *)

Lemma mutation_result_accepted {A} host (v : A) l' s pre evs :
  accepts_filters host -> l' <> [] ->
  outcome (mutation_result host v l' s pre evs) = Ret v /\
  in_sync (final (mutation_result host v l' s pre evs)).
Proof.
  intros Hacc Hne. destruct l' as [|x l']; [contradiction|].
  unfold mutation_result, in_sync. cbv zeta.
  rewrite Hacc. split; reflexivity.
Qed.

Lemma run_op_in_sync cfg host op s :
  MACCHINA_HAVE_SOCKETCAN cfg = true -> accepts_filters host ->
  in_sync s -> installs_empty op (_filter s) = false ->
  (exists b, outcome (run_op cfg host op s) = Ret b) /\
  in_sync (final (run_op cfg host op s)) /\
  _filter (final (run_op cfg host op s)) = filter_list_after op (_filter s).
Proof.
  intros Hcfg Hacc Hsync Hne.
  destruct op as [l|f|f]; cbn [run_op filter_list_after installs_empty] in *.
  - assert (Hl : l <> []) by (destruct l; [discriminate Hne|discriminate]).
    destruct (@setFilter_eq cfg host Hcfg l s) as (evs & _ & Heq).
    destruct (@mutation_result_accepted unit host tt l s [] evs Hacc Hl) as [Ho Hs].
    rewrite <- Heq in Ho, Hs.
    rewrite (@bind_outcome_Ret _ _ (setFilter cfg host l) (fun _ => ret true) s tt Ho).
    cbn. split; [eexists; reflexivity|]. split; [exact Hs|].
    apply setFilter_list.
  - destruct (addFilter_list cfg host f s) as [Hl _].
    assert (Hnew : _filter s ++ [f] <> []).
    { intros H. apply app_eq_nil in H. destruct H as [_ H]. discriminate H. }
    split; [|split; [|exact Hl]].
    + destruct (@addFilter_eq cfg host Hcfg f s) as (evs & _ & ->).
      destruct (find_equal f (_filter s)); [eexists; reflexivity|].
      eexists. apply (mutation_result_accepted _ _ _ _ Hacc Hnew).
    + destruct (@addFilter_eq cfg host Hcfg f s) as (evs & _ & ->).
      destruct (find_equal f (_filter s)); [exact Hsync|].
      apply (mutation_result_accepted _ _ _ _ Hacc Hnew).
  - destruct (removeFilter_list cfg host f s) as [Hl _].
    split; [|split; [|exact Hl]].
    + destruct (@removeFilter_eq cfg host Hcfg f s) as (evs & _ & ->).
      destruct (erase_first_equal f (_filter s)) as [l'|]; [|eexists; reflexivity].
      assert (Hl' : l' <> []) by (destruct l'; [discriminate Hne|discriminate]).
      eexists. apply (mutation_result_accepted _ _ _ _ Hacc Hl').
    + destruct (@removeFilter_eq cfg host Hcfg f s) as (evs & _ & ->).
      destruct (erase_first_equal f (_filter s)) as [l'|]; [|exact Hsync].
      assert (Hl' : l' <> []) by (destruct l'; [discriminate Hne|discriminate]).
      apply (mutation_result_accepted _ _ _ _ Hacc Hl').
Qed.

(** X4. In a build with SocketCAN and with a kernel that accepts every
    filter array, any sequence of [setFilter], [addFilter] and
    [removeFilter] calls none of which installs an empty list (no
    [setFilter] with an empty argument, no [removeFilter] of the only
    filter held), on an endpoint whose kernel filter set is the encoding of
    its list, returns call by call, ends with the list the calls compute
    one after the other, and leaves the kernel's filter set the encoding of
    that list. *)
Theorem filter_operations_keep_kernel_in_sync (cfg : Config) (host : Host)
        (ops : list FilterOp) (s : CANEndpointImpl) :
  MACCHINA_HAVE_SOCKETCAN cfg = true -> accepts_filters host ->
  in_sync s -> never_installs_empty ops (_filter s) = true ->
  let r := run_ops cfg host ops s in
  outcome r = Ret tt /\ in_sync (final r) /\
  _filter (final r) = fold_left (fun l op => filter_list_after op l) ops (_filter s).
Proof.
  intros Hcfg Hacc. revert s.
  induction ops as [|op rest IH]; intros s Hsync Hne r; subst r.
  - cbn. auto.
  - cbn [never_installs_empty] in Hne. apply andb_true_iff in Hne.
    destruct Hne as [Hop Hrest]. apply negb_true_iff in Hop.
    destruct (@run_op_in_sync cfg host op s Hcfg Hacc Hsync Hop) as ([b Hb] & Hs1 & Hl1).
    cbn [run_ops fold_left].
    rewrite (@bind_outcome_Ret _ _ (run_op cfg host op)
               (fun _ => run_ops cfg host rest) s b Hb).
    cbn [outcome final].
    rewrite <- Hl1 in Hrest.
    destruct (IH _ Hs1 Hrest) as (Ho & Hs & Hl).
    rewrite Hl1 in Hl. auto.
Qed.

Lemma filter_operations_keep_kernel_in_sync_witness :
  raw_filter
    (_socket (final (run_ops example_cfg host_accepting
                       [OpAdd example_filter_inverted; OpAdd example_filter_other;
                        OpRemove example_filter;
                        OpSet [example_filter_other; example_filter_inverted]]
                       example_endpoint_synced)))
  = [mk_can_filter 0x20000001 0x1; mk_can_filter 0x20000100 0x7FF].
Proof.
  destruct (@filter_operations_keep_kernel_in_sync example_cfg host_accepting
              [OpAdd example_filter_inverted; OpAdd example_filter_other;
               OpRemove example_filter;
               OpSet [example_filter_other; example_filter_inverted]]
              example_endpoint_synced)
    as (_ & Hs & Hl).
  - reflexivity.
  - intros k fvec. reflexivity.
  - reflexivity.
  - reflexivity.
  - unfold in_sync in Hs. rewrite Hs, Hl. reflexivity.
Defined.

(** X5. In a build with SocketCAN every vector subscript [addFilter]
    evaluates is in bounds, whatever the list and the filter; [setFilter]
    stays in bounds exactly when its argument is not empty, and
    [removeFilter] exactly when it refuses or leaves a filter behind. *)
Theorem filter_operations_subscripts (cfg : Config) (host : Host)
        (s : CANEndpointImpl) :
  MACCHINA_HAVE_SOCKETCAN cfg = true ->
  (forall f, subscripts_in_bounds (events (addFilter cfg host f s)) = true) /\
  (forall l, subscripts_in_bounds (events (setFilter cfg host l s)) = true
             <-> l <> []) /\
  (forall f, subscripts_in_bounds (events (removeFilter cfg host f s)) = true
             <-> erase_first_equal f (_filter s) <> Some []).
Proof.
  intros Hcfg. split; [|split].
  - intros f. destruct (@addFilter_eq cfg host Hcfg f s) as (evs & Hev & ->).
    destruct (find_equal f (_filter s)); [reflexivity|].
    destruct (@mutation_result_subscripts bool host true (_filter s ++ [f]) s
                [EvRead F_filter] evs) as (_ & ->);
      [repeat constructor|exact Hev|].
    rewrite length_app, Nat.add_1_r. reflexivity.
  - intros l. destruct (@setFilter_eq cfg host Hcfg l s) as (evs & Hev & ->).
    destruct (@mutation_result_subscripts unit host tt l s [] evs) as (_ & ->);
      [constructor|exact Hev|].
    destruct l; cbn; split; intros H; try discriminate; try reflexivity.
    contradiction.
  - intros f. destruct (@removeFilter_eq cfg host Hcfg f s) as (evs & Hev & ->).
    destruct (erase_first_equal f (_filter s)) as [l'|].
    + destruct (@mutation_result_subscripts bool host true l' s
                  [EvRead F_filter] evs) as (_ & ->);
        [repeat constructor|exact Hev|].
      destruct l'; cbn; split; intros H; try discriminate; try reflexivity.
      exfalso. apply H. reflexivity.
    + split; [discriminate|reflexivity].
Qed.

Lemma filter_operations_subscripts_witness :
  subscripts_in_bounds
    (events (addFilter example_cfg host_rejecting example_filter example_endpoint))
  = true.
Proof.
  apply (@filter_operations_subscripts example_cfg host_rejecting example_endpoint
           eq_refl).
Defined.

(** X6. In a build without SocketCAN nothing is asked of the kernel: no
    filter array is installed, no socket option is set and no frame is
    written.  [setFilter] stores its argument, the empty list included, and
    returns; [addFilter] appends the filter and returns true, or returns
    false with the list as it was when an equal filter is present;
    [removeFilter] erases the first equal filter and returns true, or
    returns false with the list as it was when there is none;
    [setFilterMode] stores the mode and returns; [sendFrame] and
    [sendFDFrame] return and leave the endpoint as it was (debug logging
    off).  The socket is never changed. *)
Theorem no_socketcan_no_kernel_call (cfg : Config) (host : Host)
        (s : CANEndpointImpl) :
  MACCHINA_HAVE_SOCKETCAN cfg = false ->
  (forall l,
      let r := setFilter cfg host l s in
      outcome r = Ret tt /\ _filter (final r) = l /\
      _socket (final r) = _socket s /\
      existsb touches_kernel (events r) = false) /\
  (forall f,
      let r := addFilter cfg host f s in
      outcome r = Ret (negb (find_equal f (_filter s))) /\
      _filter (final r)
      = (if find_equal f (_filter s) then _filter s else _filter s ++ [f]) /\
      _socket (final r) = _socket s /\
      existsb touches_kernel (events r) = false) /\
  (forall f,
      let r := removeFilter cfg host f s in
      match erase_first_equal f (_filter s) with
      | Some l' => outcome r = Ret true /\ _filter (final r) = l'
      | None => outcome r = Ret false /\ _filter (final r) = _filter s
      end /\
      _socket (final r) = _socket s /\
      existsb touches_kernel (events r) = false) /\
  (forall mode,
      let r := setFilterMode cfg host mode s in
      outcome r = Ret tt /\ _filterMode (final r) = mode /\
      _socket (final r) = _socket s /\
      existsb touches_kernel (events r) = false) /\
  (forall frame scFrame,
      _logger_debug s = false ->
      sendFrame cfg host frame scFrame s = mkRes (Ret tt) s []) /\
  (forall frame scFrame,
      _logger_debug s = false ->
      sendFDFrame cfg host frame scFrame s = mkRes (Ret tt) s []).
Proof.
  intros Hcfg. split; [|split; [|split; [|split; [|split]]]].
  - intros l r. subst r.
    rewrite (@setFilter_eq_nocan cfg host l s Hcfg).
    destruct s; repeat split.
  - intros f r. subst r.
    rewrite (@addFilter_eq_nocan cfg host f s Hcfg).
    destruct (find_equal f (_filter s)); destruct s; repeat split.
  - intros f r. subst r.
    rewrite (@removeFilter_eq_nocan cfg host f s Hcfg).
    destruct (erase_first_equal f (_filter s)); destruct s; repeat split.
  - intros mode r. subst r.
    unfold setFilterMode. rewrite Hcfg. destruct s; repeat split.
  - intros frame scFrame Hdbg. unfold sendFrame.
    eapply bind_eq with (e1 := []) (a := false); [unfold peek; rewrite Hdbg; reflexivity|].
    rewrite Hcfg. reflexivity.
  - intros frame scFrame Hdbg. unfold sendFDFrame.
    eapply bind_eq with (e1 := []) (a := false); [unfold peek; rewrite Hdbg; reflexivity|].
    rewrite Hcfg. reflexivity.
Qed.

Lemma no_socketcan_no_kernel_call_witness :
  _filter (final (setFilter example_cfg_nocan host_rejecting [] example_endpoint_filtering))
  = [] /\
  outcome (removeFilter example_cfg_nocan host_rejecting example_filter_inverted
                        example_endpoint_filtering) = Ret true /\
  sendFrame example_cfg_nocan host_accepting (CANFrame.mk 0x100 0 2 [0xAA; 0xBB])
            example_uninit example_endpoint
  = mkRes (Ret tt) example_endpoint [] /\
  sendFDFrame example_cfg_nocan host_accepting (CANFDFrame.mk 0x100 0 2 [0xAA; 0xBB])
              example_uninit_fd example_endpoint
  = mkRes (Ret tt) example_endpoint [].
Proof.
  destruct (@no_socketcan_no_kernel_call example_cfg_nocan host_rejecting
              example_endpoint_filtering eq_refl) as (Hset & _ & Hrem & _).
  destruct (@no_socketcan_no_kernel_call example_cfg_nocan host_accepting
              example_endpoint eq_refl) as (_ & _ & _ & _ & H & H').
  split; [apply (Hset [])|]. split; [apply (Hrem example_filter_inverted)|].
  split; [apply H|apply H']; reflexivity.
Defined.

(** ** Locks *)

(** X7. In either build, every operation that declares a scoped lock
    reads and writes the shared members only while it holds the mutex:
    [setFilter], [getFilter], [addFilter], [removeFilter], [enableEvents],
    [eventsEnabled], [enableFDEvents], [fdEventsEnabled] and the
    destructor. *)
Theorem scoped_lock_operations_guarded (cfg : Config) (host : Host)
        (s : CANEndpointImpl) :
  (forall l, guarded (events (setFilter cfg host l s)) = true) /\
  (forall f, guarded (events (addFilter cfg host f s)) = true) /\
  (forall f, guarded (events (removeFilter cfg host f s)) = true) /\
  guarded (events (getFilter s)) = true /\
  (forall enable, guarded (events (enableEvents enable s)) = true) /\
  guarded (events (eventsEnabled s)) = true /\
  (forall enable, guarded (events (enableFDEvents cfg host enable s)) = true) /\
  guarded (events (fdEventsEnabled s)) = true /\
  guarded (events (destructor s)) = true.
Proof.
  assert (Hfilter :
            (forall l, guarded (events (setFilter cfg host l s)) = true) /\
            (forall f, guarded (events (addFilter cfg host f s)) = true) /\
            (forall f, guarded (events (removeFilter cfg host f s)) = true)).
  { destruct (MACCHINA_HAVE_SOCKETCAN cfg) eqn:Hcfg.
    - destruct (@locked_operations_guarded cfg host s Hcfg) as (H1 & H2 & H3 & _).
      auto.
    - split; [|split].
      + intros l. rewrite (@setFilter_eq_nocan cfg host l s Hcfg). reflexivity.
      + intros f. rewrite (@addFilter_eq_nocan cfg host f s Hcfg).
        destruct (find_equal f (_filter s)); reflexivity.
      + intros f. rewrite (@removeFilter_eq_nocan cfg host f s Hcfg).
        destruct (erase_first_equal f (_filter s)); reflexivity. }
  destruct Hfilter as (H1 & H2 & H3).
  split; [exact H1|]. split; [exact H2|]. split; [exact H3|].
  split; [reflexivity|]. split.
  { intros []; unfold enableEvents; apply ScopedLock_guarded.
    - unfold bind, read, write, thread_start. cbn.
      destruct (_enableEvents s =? 0); cbn; [|reflexivity].
      destruct (_thread s); reflexivity.
    - unfold bind, read, write, thread_join. cbn.
      destruct (0 <? _enableEvents s); cbn; [|reflexivity].
      destruct (_enableEvents s - 1 =? 0); cbn; [|reflexivity].
      destruct (_thread s); reflexivity. }
  split; [reflexivity|]. split.
  { intros enable. unfold enableFDEvents.
    destruct (CAN_RAW_FD_FRAMES cfg).
    - apply ScopedLock_guarded. destruct enable.
      + unfold bind, read, write, setOption. cbn.
        destruct (_enableFDEvents s =? 0); cbn; [|reflexivity].
        destruct (setOption_error host _ _ _); reflexivity.
      + unfold bind, read, write, setOption. cbn.
        destruct (0 <? _enableFDEvents s); cbn; [|reflexivity].
        destruct (_enableFDEvents s - 1 =? 0); cbn; [|reflexivity].
        destruct (setOption_error host _ _ _); reflexivity.
    - destruct enable; reflexivity. }
  split; [reflexivity|].
  unfold destructor, bind, emit, read, write, thread_join. cbn.
  destruct (_enableEvents s =? 0); cbn; [reflexivity|].
  destruct (_thread s); reflexivity.
Qed.

(** X8. The destructor of an endpoint whose reader runs exactly when the
    counter is positive returns with the counter at 0 and the reader
    joined.  With events enabled it resets the counter, releases the mutex
    and only then joins; with events disabled it does not join at all. *)
Theorem destructor_stops_reader (s : CANEndpointImpl) :
  reader_matches_counter s ->
  let r := destructor s in
  outcome r = Ret tt /\ _enableEvents (final r) = 0 /\
  _thread (final r) = ThreadIdle /\
  events r = (if _enableEvents s =? 0
              then [EvLock; EvRead F_enableEvents; EvUnlock]
              else [EvLock; EvRead F_enableEvents; EvWrite F_enableEvents;
                    EvUnlock; EvThreadJoin]).
Proof.
  intros Hinv r. subst r.
  destruct (destructor_joins_reader Hinv) as (Ho & Hc & Ht).
  split; [exact Ho|]. split; [exact Hc|]. split; [exact Ht|].
  destruct Hinv as [Hpos Hthr].
  unfold destructor, bind, emit, read, write, thread_join. cbn.
  destruct (_enableEvents s =? 0) eqn:E; cbn; [reflexivity|].
  assert (Hrun : _thread s = ThreadRunning).
  { apply Hthr. apply Z.eqb_neq in E. lia. }
  rewrite Hrun. reflexivity.
Qed.

Lemma destructor_stops_reader_witness :
  _thread (final (destructor example_endpoint_enabled)) = ThreadIdle /\
  events (destructor example_endpoint_enabled)
  = [EvLock; EvRead F_enableEvents; EvWrite F_enableEvents; EvUnlock; EvThreadJoin].
Proof.
  destruct (@destructor_stops_reader example_endpoint_enabled)
    as (_ & _ & Ht & He).
  - split; [cbn; lia|]. cbn. split; [intros _; lia|reflexivity].
  - split; [exact Ht|exact He].
Defined.

(** X9. The [enableEvents(false)] call that finds the counter at 1 with
    the reader running stores 0 and calls [_thread.join()] before the
    scoped lock is released: join is the last thing it does, the mutex is
    still held, the call does not return and the reader is not stopped. *)
Theorem enableEvents_joins_holding_mutex (s : CANEndpointImpl) :
  reader_matches_counter s -> _enableEvents s = 1 ->
  let r := enableEvents false s in
  events r = [EvLock; EvRead F_enableEvents; EvWrite F_enableEvents;
              EvRead F_enableEvents; EvThreadJoin] /\
  outcome r = Blocked /\ _enableEvents (final r) = 0 /\
  _thread (final r) = ThreadRunning.
Proof.
  intros Hinv H1 r. subst r.
  rewrite (enableEvents_false_eq Hinv), H1. cbn.
  assert (Hrun : _thread s = ThreadRunning) by (apply Hinv; lia).
  rewrite Hrun. repeat split.
Qed.

Lemma enableEvents_joins_holding_mutex_witness :
  outcome (enableEvents false
             (with_thread ThreadRunning (with_enableEvents 1 example_endpoint)))
  = Blocked.
Proof.
  destruct (@enableEvents_joins_holding_mutex
              (with_thread ThreadRunning (with_enableEvents 1 example_endpoint)))
    as (_ & H & _).
  - split; [cbn; lia|]. cbn. split; [intros _; lia|reflexivity].
  - reflexivity.
  - exact H.
Defined.

(** ** The two threads *)

(** X10. However the caller and the reader are scheduled, a call of
    [enableEvents(false)] that starts with the counter at 1 and the reader
    anywhere in its loop never returns, and the reader never leaves
    [run()]; the run in which the caller locks first ends, after two steps,
    in a state where the caller waits in join holding the mutex, the reader
    waits for the mutex, and neither can move. *)
Theorem last_disable_call_deadlocks :
  (forall st st',
      Interleaving.last_disable_start st -> Interleaving.reachable st st' ->
      Interleaving.caller st' <> Interleaving.C_returned /\
      Interleaving.reader st' <> Interleaving.R_returned) /\
  Interleaving.reachable
    (Interleaving.mk 1 Interleaving.Free Interleaving.C_call Interleaving.R_call)
    (Interleaving.mk 0 Interleaving.ByCaller Interleaving.C_join Interleaving.R_call) /\
  (forall st',
      ~ Interleaving.step
          (Interleaving.mk 0 Interleaving.ByCaller Interleaving.C_join
                           Interleaving.R_call) st').
Proof.
  split.
  - intros st st' Hstart Hreach.
    eapply last_disable_never_returns; eassumption.
  - exact last_disable_deadlock.
Qed.

Lemma last_disable_call_deadlocks_witness :
  Interleaving.caller
    (Interleaving.mk 1 Interleaving.ByCaller Interleaving.C_locked Interleaving.R_call)
  <> Interleaving.C_returned /\
  Interleaving.reader
    (Interleaving.mk 1 Interleaving.ByCaller Interleaving.C_locked Interleaving.R_call)
  <> Interleaving.R_returned.
Proof.
  destruct last_disable_call_deadlocks as (H & _).
  apply (H (Interleaving.mk 1 Interleaving.Free Interleaving.C_call Interleaving.R_body)).
  - repeat split.
  - eapply rt_trans.
    + apply rt_step. apply Interleaving.reader_body.
    + apply rt_step. apply Interleaving.disable_lock.
Defined.

Lemma destroy_enabled_invariant_step st st' :
  destroy_enabled_invariant st -> Interleaving.step st st' ->
  destroy_enabled_invariant st'.
Proof.
  intros Hinv Hstep. unfold destroy_enabled_invariant in *.
  inversion Hstep; subst; cbn in *;
    repeat match goal with
           | H : _ /\ _ |- _ => destruct H
           | k : Interleaving.Caller |- _ => destruct k
           end;
    subst; try contradiction; try discriminate; try lia;
    repeat split; try congruence; try lia.
Qed.

Lemma destroy_enabled_invariant_reachable st st' :
  destroy_enabled_invariant st -> Interleaving.reachable st st' ->
  destroy_enabled_invariant st'.
Proof.
  intros Hinv Hreach. induction Hreach as [x y Hstep|x|x y z _ IH1 _ IH2].
  - eapply destroy_enabled_invariant_step; eassumption.
  - exact Hinv.
  - auto.
Qed.

(** X11. The destructor, started with events enabled and the reader
    anywhere in its loop, never gets stuck: until it has returned some
    thread can always take a step.  It returns only after the reader has
    left [run()], with the counter at 0, and there is a run in which it
    does return. *)
Theorem destructor_never_deadlocks (st st' : Interleaving.State) :
  Interleaving.destroy_start st -> 0 < Interleaving.counter st ->
  Interleaving.reachable st st' ->
  (Interleaving.caller st' = Interleaving.D_returned \/
   exists st'', Interleaving.step st' st'') /\
  (Interleaving.caller st' = Interleaving.D_returned ->
   Interleaving.reader st' = Interleaving.R_returned /\
   Interleaving.counter st' = 0) /\
  Interleaving.reachable
    (Interleaving.mk (Interleaving.counter st) Interleaving.Free
                     Interleaving.D_call Interleaving.R_call)
    (Interleaving.mk 0 Interleaving.Free Interleaving.D_returned
                     Interleaving.R_returned).
Proof.
  intros Hstart Hpos Hreach. split; [|split].
  - eapply destroy_never_stuck; eassumption.
  - intros Hret.
    assert (Hinv : destroy_enabled_invariant st').
    { eapply destroy_enabled_invariant_reachable; [|exact Hreach].
      unfold destroy_enabled_invariant. destruct Hstart as [-> _]. exact Hpos. }
    unfold destroy_enabled_invariant in Hinv. rewrite Hret in Hinv.
    destruct Hinv; auto.
  - apply destroy_can_return. exact Hpos.
Qed.

Lemma destructor_never_deadlocks_witness :
  Interleaving.reachable
    (Interleaving.mk 2 Interleaving.Free Interleaving.D_call Interleaving.R_call)
    (Interleaving.mk 0 Interleaving.Free Interleaving.D_returned
                     Interleaving.R_returned).
Proof.
  destruct (@destructor_never_deadlocks
              (Interleaving.mk 2 Interleaving.Free Interleaving.D_call
                               Interleaving.R_call)
              (Interleaving.mk 2 Interleaving.Free Interleaving.D_call
                               Interleaving.R_call))
    as (_ & _ & H).
  - split; reflexivity.
  - cbn. lia.
  - apply rt_refl.
  - exact H.
Defined.

(** ** The filter mode *)

(** X12. In a build with SocketCAN, [setFilterMode] sets the socket option
    [CAN_RAW_JOIN_FILTERS] to 1 for the AND mode and to 0 for any other.
    When the socket takes the option, the mode is stored, so that
    [getFilterMode] returns it, and the filter list and the installed
    filter set are as before.  When the socket refuses it, the call throws
    [IOException] with the host error code and the endpoint is unchanged:
    [getFilterMode] still returns the former mode. *)
Theorem setFilterMode_sets_join_filters (cfg : Config) (host : Host)
        (mode : FilterMode) (s : CANEndpointImpl) :
  MACCHINA_HAVE_SOCKETCAN cfg = true ->
  let v := if FilterMode_eqb mode CAN_FILTER_MODE_AND then 1 else 0 in
  let r := setFilterMode cfg host mode s in
  options_set (events r) = [(CAN_RAW_JOIN_FILTERS, v)] /\
  match setOption_error host (_socket s) CAN_RAW_JOIN_FILTERS v with
  | None =>
      outcome r = Ret tt /\
      join_filters (_socket (final r)) = v /\
      outcome (getFilterMode (final r)) = Ret mode /\
      _filter (final r) = _filter s /\
      raw_filter (_socket (final r)) = raw_filter (_socket s)
  | Some errno =>
      (exists msg, outcome r = Throw (IOException msg errno)) /\
      final r = s /\
      outcome (getFilterMode (final r)) = Ret (_filterMode s)
  end.
Proof.
  intros Hcfg v r. subst v r.
  unfold setFilterMode, bind, setOption, write. rewrite Hcfg.
  destruct (FilterMode_eqb mode CAN_FILTER_MODE_AND);
    destruct (setOption_error host (_socket s) CAN_RAW_JOIN_FILTERS _);
    cbn; repeat split; eexists; reflexivity.
Qed.

Lemma setFilterMode_sets_join_filters_witness :
  join_filters
    (_socket (final (setFilterMode example_cfg host_accepting CAN_FILTER_MODE_AND
                                   example_endpoint))) = 1 /\
  final (setFilterMode example_cfg host_rejecting CAN_FILTER_MODE_AND example_endpoint)
  = example_endpoint.
Proof.
  split.
  - destruct (@setFilterMode_sets_join_filters example_cfg host_accepting
                CAN_FILTER_MODE_AND example_endpoint eq_refl) as (_ & H).
    cbn in H. destruct H as (_ & H & _). exact H.
  - destruct (@setFilterMode_sets_join_filters example_cfg host_rejecting
                CAN_FILTER_MODE_AND example_endpoint eq_refl) as (_ & H).
    cbn in H. destruct H as (_ & H & _). exact H.
Defined.

(** ** FD events *)

(** X13. [enableFDEvents] throws [NotImplementedException] exactly when
    [fdFramesSupported] returns false and the call is an enabling one; it
    then leaves the endpoint untouched, takes no lock and sets no option.
    In the same build a disabling call returns and does nothing. *)
Theorem enableFDEvents_unsupported (cfg : Config) (host : Host)
        (enable : bool) (s : CANEndpointImpl) :
  ((exists msg, outcome (enableFDEvents cfg host enable s)
                = Throw (NotImplementedException msg))
   <-> outcome (fdFramesSupported cfg s) = Ret false /\ enable = true) /\
  (outcome (fdFramesSupported cfg s) = Ret false ->
   final (enableFDEvents cfg host enable s) = s /\
   events (enableFDEvents cfg host enable s) = [] /\
   (enable = false -> outcome (enableFDEvents cfg host enable s) = Ret tt)).
Proof.
  unfold enableFDEvents, fdFramesSupported, ret, throw. cbn [outcome].
  destruct (CAN_RAW_FD_FRAMES cfg) eqn:Hfd.
  - split.
    + split.
      * intros [msg H]. exfalso. revert H.
        unfold ScopedLock, bind, emit, read, write, setOption, ret. cbn.
        destruct enable; cbn.
        -- destruct (_enableFDEvents s =? 0); cbn; [|discriminate].
           destruct (setOption_error host _ _ _); cbn; discriminate.
        -- destruct (0 <? _enableFDEvents s); cbn; [|discriminate].
           destruct (_enableFDEvents s - 1 =? 0); cbn; [|discriminate].
           destruct (setOption_error host _ _ _); cbn; discriminate.
      * intros [H _]. discriminate H.
    + intros H. discriminate H.
  - destruct enable; cbn; split.
    + split; [intros _; split; reflexivity|]. intros _. eexists. reflexivity.
    + intros _. repeat split. discriminate.
    + split; [intros [msg H]; discriminate H|]. intros [_ H]. discriminate H.
    + intros _. repeat split.
Qed.

Lemma enableFDEvents_unsupported_witness :
  final (enableFDEvents example_cfg host_accepting true example_endpoint)
  = example_endpoint /\
  outcome (enableFDEvents example_cfg host_accepting false example_endpoint) = Ret tt.
Proof.
  split.
  - destruct (enableFDEvents_unsupported example_cfg host_accepting true
                example_endpoint) as (_ & H).
    apply H. reflexivity.
  - destruct (enableFDEvents_unsupported example_cfg host_accepting false
                example_endpoint) as (_ & H).
    apply H; reflexivity.
Defined.

Lemma enableFDEvents_step cfg host (enable : bool) s :
  CAN_RAW_FD_FRAMES cfg = true -> accepts_options host ->
  fd_option_matches_counter s ->
  let r := enableFDEvents cfg host enable s in
  outcome r = Ret tt /\ fd_option_matches_counter (final r) /\
  _enableFDEvents (final r)
  = (if enable then _enableFDEvents s + 1
     else if 0 <? _enableFDEvents s then _enableFDEvents s - 1
          else _enableFDEvents s) /\
  options_set (events r)
  = (if enable
     then if _enableFDEvents s =? 0 then [(CAN_RAW_FD_FRAMES_OPT, 1)] else []
     else if _enableFDEvents s =? 1 then [(CAN_RAW_FD_FRAMES_OPT, 0)] else []).
Proof.
  intros Hfd Hacc [Hpos Hopt] r. subst r.
  unfold enableFDEvents. rewrite Hfd.
  unfold fd_option_matches_counter, ScopedLock, bind, emit, read, write, setOption, ret.
  destruct enable; cbn.
  - destruct (_enableFDEvents s =? 0) eqn:E; cbn.
    + rewrite Hacc. cbn. apply Z.eqb_eq in E. rewrite E. cbn. repeat split; lia.
    + apply Z.eqb_neq in E. rewrite Hopt.
      replace (0 <? _enableFDEvents s) with true by (symmetry; apply Z.ltb_lt; lia).
      replace (0 <? _enableFDEvents s + 1) with true by (symmetry; apply Z.ltb_lt; lia).
      repeat split; lia.
  - destruct (0 <? _enableFDEvents s) eqn:E; cbn.
    + apply Z.ltb_lt in E.
      destruct (_enableFDEvents s - 1 =? 0) eqn:E1; cbn.
      * rewrite Hacc. cbn. apply Z.eqb_eq in E1.
        replace (_enableFDEvents s =? 1) with true by (symmetry; apply Z.eqb_eq; lia).
        rewrite E1. cbn. repeat split; lia.
      * apply Z.eqb_neq in E1. rewrite Hopt.
        replace (_enableFDEvents s =? 1) with false by (symmetry; apply Z.eqb_neq; lia).
        replace (0 <? _enableFDEvents s) with true by (symmetry; apply Z.ltb_lt; lia).
        replace (0 <? _enableFDEvents s - 1) with true by (symmetry; apply Z.ltb_lt; lia).
        repeat split; lia.
    + apply Z.ltb_ge in E.
      replace (_enableFDEvents s =? 1) with false by (symmetry; apply Z.eqb_neq; lia).
      rewrite Hopt.
      replace (0 <? _enableFDEvents s) with false by (symmetry; apply Z.ltb_ge; lia).
      repeat split; lia.
Qed.

(** X14. In a build with FD support and with a socket that takes every
    option, any sequence of [enableFDEvents] calls on an endpoint whose FD
    option is on exactly when its FD counter is positive returns call by
    call and keeps it so: afterwards [fdEventsEnabled] returns true exactly
    when the socket's [CAN_RAW_FD_FRAMES] option is 1.  If no disabling call
    finds the counter at 0, the counter has grown by the number of enabling
    calls less the number of disabling ones. *)
Theorem enableFDEvents_reference_count (cfg : Config) (host : Host)
        (calls : list bool) (s : CANEndpointImpl) :
  CAN_RAW_FD_FRAMES cfg = true -> accepts_options host ->
  fd_option_matches_counter s ->
  let r := enableFDEvents_calls cfg host calls s in
  outcome r = Ret tt /\ fd_option_matches_counter (final r) /\
  (outcome (fdEventsEnabled (final r)) = Ret true
   <-> fd_frames (_socket (final r)) = 1) /\
  (balanced_from (_enableFDEvents s) calls = true ->
   _enableFDEvents (final r)
   = _enableFDEvents s + calls_with true calls - calls_with false calls).
Proof.
  intros Hfd Hacc. revert s.
  induction calls as [|enable rest IH]; intros s Hinv r; subst r.
  - cbn. split; [reflexivity|]. split; [exact Hinv|]. split.
    + destruct Hinv as [_ Hopt]. rewrite Hopt.
      destruct (0 <? _enableFDEvents s); split; intros H;
        try reflexivity; discriminate H.
    + intros _. unfold calls_with. cbn. lia.
  - destruct (@enableFDEvents_step cfg host enable s Hfd Hacc Hinv)
      as (Ho & Hinv1 & Hcnt & _).
    cbn [enableFDEvents_calls].
    rewrite (@bind_outcome_Ret _ _ (enableFDEvents cfg host enable)
               (fun _ => enableFDEvents_calls cfg host rest) s tt Ho).
    cbn [outcome final].
    destruct (IH _ Hinv1) as (Ho2 & Hinv2 & Hiff & Hbal2).
    split; [exact Ho2|]. split; [exact Hinv2|]. split; [exact Hiff|].
    intros Hbal. rewrite Hbal2.
    + rewrite Hcnt. destruct enable.
      * rewrite calls_with_cons_same, calls_with_cons_other by discriminate. lia.
      * cbn in Hbal. apply andb_true_iff in Hbal. destruct Hbal as [Hp _].
        rewrite Hp.
        rewrite calls_with_cons_same, calls_with_cons_other by discriminate. lia.
    + rewrite Hcnt. destruct enable; cbn in Hbal; [exact Hbal|].
      apply andb_true_iff in Hbal. destruct Hbal as [Hp Hb]. rewrite Hp. exact Hb.
Qed.

Lemma enableFDEvents_reference_count_witness :
  _enableFDEvents
    (final (enableFDEvents_calls example_cfg_fd host_accepting [true; true; false]
                                 example_endpoint_fd)) = 1 /\
  fd_frames
    (_socket (final (enableFDEvents_calls example_cfg_fd host_accepting
                                          [true; true; false]
                                          example_endpoint_fd))) = 1.
Proof.
  destruct (@enableFDEvents_reference_count example_cfg_fd host_accepting
              [true; true; false] example_endpoint_fd)
    as (_ & _ & Hiff & Hcnt).
  - reflexivity.
  - intros k o v. reflexivity.
  - split; [cbn; lia|reflexivity].
  - split.
    + rewrite Hcnt; reflexivity.
    + apply Hiff. unfold fdEventsEnabled.
      erewrite ScopedLock_eq by reflexivity. cbn [outcome].
      rewrite Hcnt; reflexivity.
Defined.

Lemma enableFDEvents_first_refused cfg host s errno :
  CAN_RAW_FD_FRAMES cfg = true ->
  _enableFDEvents s = 0 ->
  setOption_error host (_socket s) CAN_RAW_FD_FRAMES_OPT 1 = Some errno ->
  exists msg evs,
    enableFDEvents cfg host true s
    = mkRes (Throw (IOException msg errno)) (with_enableFDEvents 1 s) evs.
Proof.
  intros Hfd Hc Herr.
  unfold enableFDEvents. rewrite Hfd.
  unfold ScopedLock, bind, emit, read, write, setOption, ret.
  cbn. rewrite Hc. cbn. destruct s; cbn in *. rewrite Herr. cbn.
  eexists. eexists. reflexivity.
Qed.

Lemma enableFDEvents_again cfg host s :
  CAN_RAW_FD_FRAMES cfg = true ->
  0 < _enableFDEvents s ->
  exists evs,
    enableFDEvents cfg host true s
    = mkRes (Ret tt) (with_enableFDEvents (_enableFDEvents s + 1) s) evs /\
    options_set evs = [].
Proof.
  intros Hfd Hc.
  unfold enableFDEvents. rewrite Hfd.
  unfold ScopedLock, bind, emit, read, write, setOption, ret.
  cbn. replace (_enableFDEvents s =? 0) with false
    by (symmetry; apply Z.eqb_neq; lia).
  cbn. eexists. split; reflexivity.
Qed.

(** X15. In a build with FD support, when the socket refuses the
    [CAN_RAW_FD_FRAMES] option on the first enabling call, the call throws
    [IOException] with the host error code after it has already counted
    itself: the counter is 1 and the option is as it was.  [fdEventsEnabled]
    then returns true, and a further enabling call returns without setting
    the option again. *)
Theorem enableFDEvents_failed_enable_is_counted (cfg : Config) (host : Host)
        (s : CANEndpointImpl) (errno : Z) :
  CAN_RAW_FD_FRAMES cfg = true ->
  _enableFDEvents s = 0 ->
  setOption_error host (_socket s) CAN_RAW_FD_FRAMES_OPT 1 = Some errno ->
  let r := enableFDEvents cfg host true s in
  (exists msg, outcome r = Throw (IOException msg errno)) /\
  _enableFDEvents (final r) = 1 /\ _socket (final r) = _socket s /\
  outcome (fdEventsEnabled (final r)) = Ret true /\
  outcome (enableFDEvents cfg host true (final r)) = Ret tt /\
  options_set (events (enableFDEvents cfg host true (final r))) = [] /\
  _socket (final (enableFDEvents cfg host true (final r))) = _socket s.
Proof.
  intros Hfd Hc Herr r. subst r.
  destruct (@enableFDEvents_first_refused cfg host s errno Hfd Hc Herr)
    as (msg & evs & H1).
  rewrite H1. cbn [outcome final].
  destruct (@enableFDEvents_again cfg host (with_enableFDEvents 1 s) Hfd)
    as (evs2 & H2 & Hopts); [destruct s; cbn; lia|].
  rewrite H2. cbn [outcome final events].
  split; [exists msg; reflexivity|].
  split; [destruct s; reflexivity|].
  split; [destruct s; reflexivity|].
  split; [unfold fdEventsEnabled; erewrite ScopedLock_eq by reflexivity;
          destruct s; reflexivity|].
  split; [reflexivity|].
  split; [exact Hopts|destruct s; reflexivity].
Qed.

Lemma enableFDEvents_failed_enable_is_counted_witness :
  outcome (fdEventsEnabled
             (final (enableFDEvents example_cfg_fd host_rejecting true
                                    example_endpoint_fd))) = Ret true /\
  fd_frames
    (_socket (final (enableFDEvents example_cfg_fd host_rejecting true
                                    example_endpoint_fd))) = 0.
Proof.
  destruct (@enableFDEvents_failed_enable_is_counted example_cfg_fd host_rejecting
              example_endpoint_fd 22 eq_refl eq_refl eq_refl)
    as (_ & _ & Hs & He & _).
  split; [exact He|]. rewrite Hs. reflexivity.
Defined.

(** ** FD frames *)

Lemma sendFDFrame_eq cfg host frame scFrame s :
  MACCHINA_HAVE_SOCKETCAN cfg = true ->
  (CANFDFrame.length frame <= List.length (canfd_frame.data scFrame))%nat ->
  (CANFDFrame.length frame <= List.length (CANFDFrame.payload frame))%nat ->
  let bytes := canfd_frame.to_bytes (byte_order cfg)
                 (sendFDFrame_object cfg frame scFrame) in
  let err := sendBytes_error host (_socket s) bytes in
  sendFDFrame cfg host frame scFrame s =
  mkRes (match err with
         | None => Ret tt
         | Some errno => Throw (IOException "I/O error" errno)
         end)
        s
        (dump_events (_logger_debug s) "Sending CAN-FD frame"
                     (firstn (CANFDFrame.length frame) (CANFDFrame.payload frame))
           ++ [EvSendBytes bytes err]).
Proof.
  intros Hcfg Hdst Hsrc bytes err.
  assert (Hcpy : memcpy (canfd_frame.data scFrame) (CANFDFrame.payload frame)
                        (CANFDFrame.length frame)
                 = Some (firstn (CANFDFrame.length frame) (CANFDFrame.payload frame)
                           ++ skipn (CANFDFrame.length frame)
                                    (canfd_frame.data scFrame))).
  { unfold memcpy. apply Nat.leb_le in Hdst, Hsrc. rewrite Hdst, Hsrc. reflexivity. }
  assert (Hsend : sendBytes host bytes s =
                  mkRes (match err with
                         | None => Ret tt
                         | Some errno => Throw (IOException "I/O error" errno)
                         end) s [EvSendBytes bytes err]).
  { unfold sendBytes. fold err. destruct err; reflexivity. }
  unfold sendFDFrame.
  eapply bind_eq with (e1 := []) (a := _logger_debug s); [reflexivity|].
  cbn [app].
  eapply bind_eq with (a := tt) (s1 := s).
  - unfold dump_events, logger_dump.
    destruct (_logger_debug s); [|reflexivity].
    apply Nat.leb_le in Hsrc. rewrite Hsrc. reflexivity.
  - rewrite Hcfg. cbv zeta. rewrite Hcpy. exact Hsend.
Qed.

Lemma sendFDFrame_object_is_object cfg frame scFrame :
  canfd_frame.is_object scFrame ->
  (CANFDFrame.length frame <= CANFD_MAX_DLEN)%nat ->
  (CANFDFrame.length frame <= List.length (CANFDFrame.payload frame))%nat ->
  canfd_frame.is_object (sendFDFrame_object cfg frame scFrame).
Proof.
  unfold canfd_frame.is_object, sendFDFrame_object, CANFD_MAX_DLEN.
  cbn [canfd_frame.data]. intros Hobj Hlen Hsrc.
  rewrite length_app, length_firstn, length_skipn. lia.
Qed.

(** X16. In a build with SocketCAN, whether or not the platform supports
    FD frames, [sendFDFrame] of a frame with a 32-bit identifier, a length
    of at most 64 and a payload of that many bytes hands the socket exactly
    one buffer of [CANFD_MTU] bytes: its identifier word is the identifier
    or-ed with the EFF and RTR bits for the flags set, its length byte is
    the frame's length and its first data bytes are the payload.  It
    returns when the write succeeds and otherwise throws [IOException] with
    the host error code; it leaves the endpoint as it was. *)
Theorem sendFDFrame_buffer_layout (cfg : Config) (host : Host)
        (frame : CANFDFrame.t) (scFrame : canfd_frame.t) (s : CANEndpointImpl) :
  MACCHINA_HAVE_SOCKETCAN cfg = true ->
  canfd_frame.is_object scFrame ->
  0 <= CANFDFrame.id frame < 2 ^ 32 ->
  (CANFDFrame.length frame <= CANFD_MAX_DLEN)%nat ->
  List.length (CANFDFrame.payload frame) = CANFDFrame.length frame ->
  let r := sendFDFrame cfg host frame scFrame s in
  exists bytes,
    frames_written (events r) = [bytes] /\
    List.length bytes = CANFD_MTU /\
    identifier_field (byte_order cfg) bytes = sent_fd_identifier cfg frame /\
    dlc_field bytes = Z.of_nat (CANFDFrame.length frame) /\
    firstn (CANFDFrame.length frame) (data_field bytes) = CANFDFrame.payload frame /\
    final r = s /\
    match sendBytes_error host (_socket s) bytes with
    | None => outcome r = Ret tt
    | Some errno => exists msg, outcome r = Throw (IOException msg errno)
    end.
Proof.
  intros Hcfg Hobj Hid Hlen Hpay r. subst r.
  assert (Hsrc : (CANFDFrame.length frame <= List.length (CANFDFrame.payload frame))%nat)
    by (rewrite Hpay; apply Nat.le_refl).
  assert (Hdst : (CANFDFrame.length frame <= List.length (canfd_frame.data scFrame))%nat).
  { unfold canfd_frame.is_object in Hobj. rewrite Hobj. exact Hlen. }
  rewrite (@sendFDFrame_eq cfg host frame scFrame s Hcfg Hdst Hsrc).
  set (obj := sendFDFrame_object cfg frame scFrame).
  assert (Hobj' : canfd_frame.is_object obj)
    by (apply sendFDFrame_object_is_object; assumption).
  assert (Hrange : 0 <= canfd_frame.can_id obj < 2 ^ 32)
    by (apply (sendFrame_can_id_range cfg (as_classic frame))).
  destruct (@header_fields (byte_order cfg) (canfd_frame.can_id obj)
              (canfd_frame.len obj) (canfd_frame.flags obj) (canfd_frame.__res0 obj)
              (canfd_frame.__res1 obj) (canfd_frame.data obj) Hrange)
    as (H0 & H4 & _ & _ & _ & H8).
  exists (canfd_frame.to_bytes (byte_order cfg) obj).
  cbn [events outcome final]. unfold dump_events.
  split; [destruct (_logger_debug s); reflexivity|].
  split; [apply (@canfd_frame_to_bytes_length (byte_order cfg) obj Hobj')|].
  unfold identifier_field, dlc_field, data_field, canfd_frame.to_bytes.
  rewrite H0, H4, H8.
  split; [apply (@sendFrame_can_id_sent cfg (as_classic frame) Hid)|].
  split.
  { unfold obj, sendFDFrame_object. cbn [canfd_frame.len].
    apply Z.mod_small. change (2 ^ 8) with 256. unfold CANFD_MAX_DLEN in Hlen. lia. }
  split.
  { unfold obj, sendFDFrame_object. cbn [canfd_frame.data].
    rewrite <- Hpay, firstn_all.
    apply (@firstn_app_exact _ _ (CANFDFrame.payload frame) _ eq_refl). }
  split; [reflexivity|].
  destruct (sendBytes_error host (_socket s) _); [eexists|]; reflexivity.
Qed.

Lemma sendFDFrame_buffer_layout_witness :
  exists bytes,
    frames_written
      (events (sendFDFrame example_cfg host_accepting
                 (CANFDFrame.mk 0x1ABCDEF 1 12 [1; 2; 3; 4; 5; 6; 7; 8; 9; 10; 11; 12])
                 example_uninit_fd example_endpoint)) = [bytes] /\
    List.length bytes = 72%nat /\
    identifier_field LittleEndian bytes = 0x81ABCDEF /\
    dlc_field bytes = 12.
Proof.
  destruct (@sendFDFrame_buffer_layout example_cfg host_accepting
              (CANFDFrame.mk 0x1ABCDEF 1 12 [1; 2; 3; 4; 5; 6; 7; 8; 9; 10; 11; 12])
              example_uninit_fd example_endpoint)
    as (bytes & Hw & Hl & Hi & Hd & _).
  - reflexivity.
  - reflexivity.
  - vm_compute. split; [discriminate|reflexivity].
  - vm_compute. lia.
  - reflexivity.
  - exists bytes. split; [exact Hw|]. split; [exact Hl|]. split; [exact Hi|exact Hd].
Defined.

(** X17. In a build with SocketCAN and FD support, for an FD frame with an
    identifier within 29 bits, a length of at most 64 and a payload of that
    many bytes: the buffer [sendFDFrame] writes, arriving as one datagram at
    a reader whose poll succeeded, makes the reader take the [CANFD_MTU]
    branch and deliver, on the FD channel, a frame with the same identifier,
    length and payload, carrying exactly the IDE and RTR flags that were set
    in the frame sent. *)
Theorem fd_frame_round_trip (cfg : Config) (host : Host)
        (frame : CANFDFrame.t) (scFrame : canfd_frame.t)
        (uninit_fd : canfd_frame.t) (uninit : can_frame.t) (s : CANEndpointImpl) :
  MACCHINA_HAVE_SOCKETCAN cfg = true -> CAN_RAW_FD_FRAMES cfg = true ->
  canfd_frame.is_object scFrame -> canfd_frame.is_object uninit_fd ->
  0 <= CANFDFrame.id frame <= CAN_EFF_MASK ->
  (CANFDFrame.length frame <= CANFD_MAX_DLEN)%nat ->
  List.length (CANFDFrame.payload frame) = CANFDFrame.length frame ->
  exists bytes,
    frames_written (events (sendFDFrame cfg host frame scFrame s)) = [bytes] /\
    run_body cfg true uninit_fd uninit bytes
    = Ret (Some (sdFrameReceived
                   (CANFDFrame.mk
                      (CANFDFrame.id frame)
                      (flags_of cfg
                         (negb (Z.land (CANFDFrame.flags frame) (CAN_FLAG_IDE cfg) =? 0))
                         (negb (Z.land (CANFDFrame.flags frame) (CAN_FLAG_RTR cfg) =? 0)))
                      (CANFDFrame.length frame)
                      (CANFDFrame.payload frame)))).
Proof.
  intros Hcfg Hfd Hobj Hun Hid Hlen Hpay.
  assert (Hsrc : (CANFDFrame.length frame <= List.length (CANFDFrame.payload frame))%nat)
    by (rewrite Hpay; apply Nat.le_refl).
  assert (Hdst : (CANFDFrame.length frame <= List.length (canfd_frame.data scFrame))%nat).
  { unfold canfd_frame.is_object in Hobj. rewrite Hobj. exact Hlen. }
  assert (Hid32 : 0 <= CANFDFrame.id frame < 2 ^ 32).
  { unfold CAN_EFF_MASK in Hid. change (2 ^ 32) with 4294967296. lia. }
  set (obj := sendFDFrame_object cfg frame scFrame).
  assert (Hobj' : canfd_frame.is_object obj)
    by (apply sendFDFrame_object_is_object; assumption).
  assert (Hrange : 0 <= canfd_frame.can_id obj < 2 ^ 32)
    by (apply (sendFrame_can_id_range cfg (as_classic frame))).
  assert (Hcid : canfd_frame.can_id obj = sent_identifier cfg (as_classic frame))
    by (apply (@sendFrame_can_id_sent cfg (as_classic frame) Hid32)).
  exists (canfd_frame.to_bytes (byte_order cfg) obj). split.
  - rewrite (@sendFDFrame_eq cfg host frame scFrame s Hcfg Hdst Hsrc).
    cbn [events]. unfold dump_events. destruct (_logger_debug s); reflexivity.
  - unfold run_body. rewrite Hcfg, Hfd. unfold receive_fd, receiveBytes.
    rewrite (@canfd_frame_to_bytes_length (byte_order cfg) obj Hobj'),
            (@canfd_frame_to_bytes_length (byte_order cfg) uninit_fd Hun).
    cbn [Nat.min].
    rewrite firstn_all2
      by (rewrite (@canfd_frame_to_bytes_length (byte_order cfg) obj Hobj'); lia).
    rewrite skipn_all2
      by (rewrite (@canfd_frame_to_bytes_length (byte_order cfg) uninit_fd Hun); lia).
    rewrite app_nil_r.
    change (72 =? CAN_MTU)%nat with false. change (72 =? CANFD_MTU)%nat with true.
    cbv iota.
    unfold canfd_frame.of_bytes, canfd_frame.to_bytes.
    destruct (@header_fields (byte_order cfg) (canfd_frame.can_id obj)
                (canfd_frame.len obj) (canfd_frame.flags obj) (canfd_frame.__res0 obj)
                (canfd_frame.__res1 obj) (canfd_frame.data obj) Hrange)
      as (H0 & H4 & _ & _ & _ & H8).
    rewrite H0, H4, H8.
    cbn [canfd_frame.can_id canfd_frame.len canfd_frame.data].
    rewrite firstn_all2 by (rewrite Hobj'; apply Nat.le_refl).
    fold obj. rewrite Hcid.
    rewrite (@sent_identifier_masked cfg (as_classic frame) Hid).
    rewrite (@decode_flags_sent cfg (as_classic frame) Hid).
    unfold CANFDFrame_from_ptr.
    assert (Hlenb : Z.to_nat (canfd_frame.len obj) = CANFDFrame.length frame).
    { unfold obj, sendFDFrame_object. cbn [canfd_frame.len].
      rewrite Z.mod_small
        by (change (2 ^ 8) with 256; unfold CANFD_MAX_DLEN in Hlen; lia).
      apply Nat2Z.id. }
    rewrite Hlenb.
    replace (CANFDFrame.length frame <=? _)%nat with true
      by (symmetry; apply Nat.leb_le; rewrite Hobj'; exact Hlen).
    assert (Hdata : firstn (CANFDFrame.length frame) (canfd_frame.data obj)
                    = CANFDFrame.payload frame).
    { unfold obj, sendFDFrame_object. cbn [canfd_frame.data].
      rewrite <- Hpay, firstn_all.
      apply (@firstn_app_exact _ _ (CANFDFrame.payload frame) _ eq_refl). }
    rewrite Hdata. reflexivity.
Qed.

Lemma fd_frame_round_trip_witness :
  exists bytes,
    frames_written
      (events (sendFDFrame example_cfg_fd host_accepting
                 (CANFDFrame.mk 0x1ABCDEF 1 12 [1; 2; 3; 4; 5; 6; 7; 8; 9; 10; 11; 12])
                 example_uninit_fd example_endpoint)) = [bytes] /\
    run_body example_cfg_fd true example_uninit_fd example_uninit bytes
    = Ret (Some (sdFrameReceived
                   (CANFDFrame.mk 0x1ABCDEF 1 12
                                  [1; 2; 3; 4; 5; 6; 7; 8; 9; 10; 11; 12]))).
Proof.
  destruct (@fd_frame_round_trip example_cfg_fd host_accepting
              (CANFDFrame.mk 0x1ABCDEF 1 12 [1; 2; 3; 4; 5; 6; 7; 8; 9; 10; 11; 12])
              example_uninit_fd example_uninit_fd example_uninit example_endpoint)
    as (bytes & Hw & Hr).
  - reflexivity.
  - reflexivity.
  - reflexivity.
  - reflexivity.
  - vm_compute. split; discriminate.
  - vm_compute. lia.
  - reflexivity.
  - exists bytes. split; [exact Hw|exact Hr].
Defined.

(** ** What the reader delivers *)

Lemma land_EFF_MASK_range x : 0 <= Z.land x CAN_EFF_MASK <= CAN_EFF_MASK.
Proof.
  change CAN_EFF_MASK with (Z.ones 29). rewrite Z.land_ones by lia.
  pose proof (Z.mod_pos_bound x (2 ^ 29) eq_refl) as H.
  rewrite Z.ones_equiv. lia.
Qed.

Lemma decode_flags_flags_of cfg w :
  decode_flags cfg w
  = flags_of cfg (negb (Z.land w CAN_EFF_FLAG =? 0))
                 (negb (Z.land w CAN_RTR_FLAG =? 0)).
Proof.
  unfold decode_flags, flags_of.
  destruct (negb (Z.land w CAN_EFF_FLAG =? 0)), (negb (Z.land w CAN_RTR_FLAG =? 0));
    rewrite ?Z.lor_0_l, ?Z.lor_0_r; reflexivity.
Qed.

Lemma receiveBytes_count buffer msg n :
  snd (receiveBytes buffer msg) = n -> (n <= List.length msg)%nat.
Proof. unfold receiveBytes. cbn [snd]. intros <-. apply Nat.le_min_l. Qed.

Lemma CANFrame_from_ptr_Ret id flags dlc avail f :
  CANFrame_from_ptr id flags dlc avail = Ret f ->
  CANFrame.id f = id /\ CANFrame.flags f = flags /\
  List.length (CANFrame.payload f) = CANFrame.dlc f.
Proof.
  unfold CANFrame_from_ptr.
  destruct (Z.to_nat dlc <=? List.length avail)%nat eqn:E; [|discriminate].
  intros H. injection H as <-. cbn. apply Nat.leb_le in E.
  repeat split. rewrite length_firstn. lia.
Qed.

Lemma CANFDFrame_from_ptr_Ret id flags len avail f :
  CANFDFrame_from_ptr id flags len avail = Ret f ->
  CANFDFrame.id f = id /\ CANFDFrame.flags f = flags /\
  List.length (CANFDFrame.payload f) = CANFDFrame.length f.
Proof.
  unfold CANFDFrame_from_ptr.
  destruct (Z.to_nat len <=? List.length avail)%nat eqn:E; [|discriminate].
  intros H. injection H as <-. cbn. apply Nat.leb_le in E.
  repeat split. rewrite length_firstn. lia.
Qed.

Lemma receive_classic_delivers cfg uninit msg note :
  receive_classic cfg uninit msg = Ret (Some note) ->
  (CAN_MTU <= List.length msg)%nat /\ is_fd note = false /\
  well_formed_note cfg note.
Proof.
  unfold receive_classic.
  destruct (receiveBytes (can_frame.to_bytes (byte_order cfg) uninit) msg)
    as [buf n] eqn:Hrecv.
  assert (Hn : (n <= List.length msg)%nat)
    by (apply (@receiveBytes_count (can_frame.to_bytes (byte_order cfg) uninit));
        rewrite Hrecv; reflexivity).
  cbv zeta.
  destruct (n =? CAN_MTU)%nat eqn:E; [|discriminate].
  apply Nat.eqb_eq in E. subst n.
  destruct (CANFrame_from_ptr _ _ _ _) as [f| | |] eqn:Hf; try discriminate.
  intros H. injection H as <-.
  apply CANFrame_from_ptr_Ret in Hf. destruct Hf as (Hid & Hfl & Hlen).
  split; [exact Hn|]. split; [reflexivity|].
  unfold well_formed_note. cbn [note_id note_flags note_payload note_length].
  rewrite Hid, Hfl. split; [apply land_EFF_MASK_range|].
  split; [|exact Hlen].
  eexists. eexists. apply decode_flags_flags_of.
Qed.

Lemma receive_fd_delivers cfg uninit msg note :
  receive_fd cfg uninit msg = Ret (Some note) ->
  (CAN_MTU <= List.length msg)%nat /\
  (is_fd note = true -> (CANFD_MTU <= List.length msg)%nat) /\
  well_formed_note cfg note.
Proof.
  unfold receive_fd.
  destruct (receiveBytes (canfd_frame.to_bytes (byte_order cfg) uninit) msg)
    as [buf n] eqn:Hrecv.
  assert (Hn : (n <= List.length msg)%nat)
    by (apply (@receiveBytes_count (canfd_frame.to_bytes (byte_order cfg) uninit));
        rewrite Hrecv; reflexivity).
  cbv zeta.
  destruct (n =? CAN_MTU)%nat eqn:E.
  - apply Nat.eqb_eq in E. subst n.
    destruct (CANFrame_from_ptr _ _ _ _) as [f| | |] eqn:Hf; try discriminate.
    intros H. injection H as <-.
    apply CANFrame_from_ptr_Ret in Hf. destruct Hf as (Hid & Hfl & Hlen).
    split; [exact Hn|]. split; [discriminate|].
    unfold well_formed_note. cbn [note_id note_flags note_payload note_length].
    rewrite Hid, Hfl. split; [apply land_EFF_MASK_range|].
    split; [|exact Hlen].
    eexists. eexists. apply decode_flags_flags_of.
  - destruct (n =? CANFD_MTU)%nat eqn:E2; [|discriminate].
    apply Nat.eqb_eq in E2. subst n.
    destruct (CANFDFrame_from_ptr _ _ _ _) as [f| | |] eqn:Hf; try discriminate.
    intros H. injection H as <-.
    apply CANFDFrame_from_ptr_Ret in Hf. destruct Hf as (Hid & Hfl & Hlen).
    split; [unfold CAN_MTU, CANFD_MTU, can_frame.sizeof, canfd_frame.sizeof in *; lia|].
    split; [intros _; exact Hn|].
    unfold well_formed_note. cbn [note_id note_flags note_payload note_length].
    rewrite Hid, Hfl. split; [apply land_EFF_MASK_range|].
    split; [|exact Hlen].
    eexists. eexists. apply decode_flags_flags_of.
Qed.

(** X18. Whatever bytes arrive and whatever the local buffer held before,
    one pass of the reader loop delivers a frame only in a build with
    SocketCAN, after a successful poll, from a datagram of at least
    [CAN_MTU] bytes.  The frame delivered has an identifier within 29 bits,
    no flags other than IDE and RTR, and a payload of exactly as many bytes
    as its length says.  An FD frame is delivered only in a build with FD
    support and from a datagram of at least [CANFD_MTU] bytes. *)
Theorem reader_delivers_well_formed (cfg : Config) (readable : bool)
        (uninit_fd : canfd_frame.t) (uninit : can_frame.t) (msg : list Z)
        (note : Notification) :
  run_body cfg readable uninit_fd uninit msg = Ret (Some note) ->
  MACCHINA_HAVE_SOCKETCAN cfg = true /\ readable = true /\
  (CAN_MTU <= List.length msg)%nat /\
  0 <= note_id note <= CAN_EFF_MASK /\
  (exists ide rtr, note_flags note = flags_of cfg ide rtr) /\
  List.length (note_payload note) = note_length note /\
  (is_fd note = true ->
   CAN_RAW_FD_FRAMES cfg = true /\ (CANFD_MTU <= List.length msg)%nat).
Proof.
  unfold run_body.
  destruct (MACCHINA_HAVE_SOCKETCAN cfg); [|discriminate].
  destruct readable; [|discriminate].
  destruct (CAN_RAW_FD_FRAMES cfg).
  - destruct (receive_fd cfg uninit_fd msg) as [o| | |] eqn:Hr; try discriminate.
    intros H. injection H as ->.
    apply receive_fd_delivers in Hr. destruct Hr as (Hlen & Hfd & Hid & Hfl & Hpay).
    repeat split; try assumption; try apply Hid. apply Hfd. assumption.
  - destruct (receive_classic cfg uninit msg) as [o| | |] eqn:Hr; try discriminate.
    intros H. injection H as ->.
    apply receive_classic_delivers in Hr.
    destruct Hr as (Hlen & Hfd & Hid & Hfl & Hpay).
    repeat split; try assumption; try apply Hid; rewrite Hfd in *; discriminate.
Qed.

Lemma reader_delivers_well_formed_witness :
  0 <= 0x123 <= CAN_EFF_MASK /\
  (exists ide rtr, 1 = flags_of example_cfg ide rtr) /\
  (16 <= List.length example_datagram)%nat.
Proof.
  destruct (@reader_delivers_well_formed example_cfg true example_uninit_fd
              example_uninit example_datagram
              (frameReceived (CANFrame.mk 0x123 1 2 [0xAA; 0xBB])) eq_refl)
    as (_ & _ & Hlen & Hid & Hfl & _).
  split; [exact Hid|]. split; [exact Hfl|exact Hlen].
Defined.
